(** * GeeCache: bounded LRU store, consistent-hash ring, cache groups and
      the peer HTTP endpoint

    A shallow embedding of the Go packages [lru], [consistenthash] and
    [geecache] (multi-node version), with the properties of the design
    document proved or refuted on it. *)

From Stdlib Require Import ZArith Lia Ascii Strings.Byte DecimalString.
From stdpp Require Import base gmap list strings sorting.

(** ** Machine integers

    Go's [int64] (and [int] on 64-bit targets) is a [Z] with the two's
    complement wrap-around written out. *)

Module Int64.

Definition min_int : Z := (- 2 ^ 63)%Z.
Definition max_int : Z := (2 ^ 63 - 1)%Z.

Definition wrap (z : Z) : Z := ((z + 2 ^ 63) mod 2 ^ 64 - 2 ^ 63)%Z.

Definition add (a b : Z) : Z := wrap (a + b).
Definition sub (a b : Z) : Z := wrap (a - b).

Definition in_range (z : Z) : Prop := (min_int ≤ z ≤ max_int)%Z.

End Int64.

(** [len(s)] of a Go string: its number of bytes. *)
Definition len (s : string) : Z := Z.of_nat (String.length s).

(** ** Package lru *)

Module lru.

(** [type Value interface { Len() int }] *)
Class Value (V : Type) := Len : V → Z.

(** Pointers to [list.Element]s.  Every element of the recency list holds
    one [*entry]; the two objects are allocated together and never separated,
    so one address stands for both. *)
Abbreviation elem := nat.

Section lru.
Context {V : Type} `{!Value V, !Inhabited V} {W : Type}.

(** [type entry struct { key string; value Value }] *)
Record entry := Entry { key : string; value : V }.

#[export] Instance entry_inhabited : Inhabited entry :=
  populate (Entry "" inhabitant).

(** [type Cache struct].  [ll] is the [container/list] recency list, front
    first, as the sequence of its element pointers; [heap] is the memory
    holding the entries those pointers refer to; [cache] is the Go map
    from key to element pointer.  The eviction callback acts on the state
    [W] of whatever it closes over.

    A pointer kept by the list or by the index always refers to an allocated
    entry (invariant [wf] below), so reading it with [!!!] never meets the
    default. *)
Record Cache := mkCache {
  maxBytes : Z;
  nbytes : Z;
  ll : list elem;
  heap : gmap elem entry;
  cache : gmap string elem;
  OnEvicted : option (string → V → W → W)
}.

(** *** container/list *)

(** [l.Remove(e)] *)
Definition Remove (e : elem) (l : list elem) : list elem :=
  filter (λ x, x ≠ e) l.

(** [l.MoveToFront(e)]: nothing happens when [e] is not an element of [l]. *)
Definition MoveToFront (e : elem) (l : list elem) : list elem :=
  if decide (e ∈ l) then e :: Remove e l else l.

(** [l.Back()] *)
Definition Back (l : list elem) : option elem := last l.

(** *** Cache *)

Definition New (maxBytes : Z) (onEvicted : option (string → V → W → W)) : Cache :=
  {| maxBytes := maxBytes; nbytes := 0; ll := []; heap := ∅; cache := ∅;
     OnEvicted := onEvicted |}.

(** [len(kv.key) + kv.value.Len()] in [int64] arithmetic. *)
Definition cost (k : string) (v : V) : Z :=
  Int64.add (Int64.wrap (len k)) (Int64.wrap (Len v)).

Definition RemoveOldest (c : Cache) (w : W) : Cache * W :=
  match Back (ll c) with
  | Some ele =>
      let kv := heap c !!! ele in
      ({| maxBytes := maxBytes c;
          nbytes := Int64.sub (nbytes c) (cost (key kv) (value kv));
          ll := Remove ele (ll c);
          heap := delete ele (heap c);
          cache := delete (key kv) (cache c);
          OnEvicted := OnEvicted c |},
       match OnEvicted c with
       | Some f => f (key kv) (value kv) w
       | None => w
       end)
  | None => (c, w)
  end.

(** The loop [for c.maxBytes != 0 && c.maxBytes < c.nbytes { c.RemoveOldest() }];
    [None] when the fuel runs out. *)
Fixpoint evict (fuel : nat) (c : Cache) (w : W) : option (Cache * W) :=
  if bool_decide (maxBytes c ≠ 0 ∧ maxBytes c < nbytes c)%Z then
    match fuel with
    | O => None
    | S n => let '(c', w') := RemoveOldest c w in evict n c' w'
    end
  else Some (c, w).

(** The [if ele, ok := c.cache[key]; ok { ... } else { ... }] of [Add]:
    update and promotion of an existing entry, insertion of a new one. *)
Definition store (k : string) (v : V) (c : Cache) : Cache :=
  match cache c !! k with
  | Some ele =>
      let kv := heap c !!! ele in
      {| maxBytes := maxBytes c;
         nbytes := Int64.add (nbytes c)
                     (Int64.sub (Int64.wrap (Len v)) (Int64.wrap (Len (value kv))));
         ll := MoveToFront ele (ll c);
         heap := <[ele := Entry (key kv) v]> (heap c);
         cache := cache c;
         OnEvicted := OnEvicted c |}
  | None =>
      let ele := fresh (dom (heap c)) in
      {| maxBytes := maxBytes c;
         nbytes := Int64.add (nbytes c) (cost k v);
         ll := ele :: ll c;
         heap := <[ele := Entry k v]> (heap c);
         cache := <[k := ele]> (cache c);
         OnEvicted := OnEvicted c |}
  end.

(** [Add].  Each turn of the loop that does anything shortens the list, and
    on an empty list [RemoveOldest] changes nothing, so one more turn than
    the list is long decides the loop: [None] here is a loop that never
    exits (see [evict_None_forever]). *)
Definition Add (k : string) (v : V) (c : Cache) (w : W) : option (Cache * W) :=
  let c1 := store k v c in
  evict (S (length (ll c1))) c1 w.

Definition Get (k : string) (c : Cache) : option V * Cache :=
  match cache c !! k with
  | Some ele =>
      let kv := heap c !!! ele in
      (Some (value kv),
       {| maxBytes := maxBytes c; nbytes := nbytes c;
          ll := MoveToFront ele (ll c);
          heap := heap c; cache := cache c; OnEvicted := OnEvicted c |})
  | None => (None, c)
  end.

Definition Len_ (c : Cache) : Z := Z.of_nat (length (ll c)).

(** *** Views of a store: the entries it holds, most recently used first *)

Definition entries (c : Cache) : list entry := (λ e, heap c !!! e) <$> ll c.

Definition size (kv : entry) : Z := (len (key kv) + Len (value kv))%Z.

Definition total (l : list entry) : Z := foldr (λ kv s, size kv + s)%Z 0%Z l.

(** The eviction callback applied to the entries [es], last one first. *)
Definition notify (cb : option (string → V → W → W)) (es : list entry) (w : W) : W :=
  match cb with
  | Some f => foldr (λ kv w, f (key kv) (value kv) w) w es
  | None => w
  end.

(** Consecutive [Add] calls. *)
Fixpoint Adds (ops : list (string * V)) (c : Cache) (w : W) : option (Cache * W) :=
  match ops with
  | [] => Some (c, w)
  | (k, v) :: ops' =>
      match Add k v c w with
      | Some (c', w') => Adds ops' c' w'
      | None => None
      end
  end.

(** The value most recently added under key [k] by the calls [ops]. *)
Fixpoint last_value (k : string) (ops : list (string * V)) : option V :=
  match ops with
  | [] => None
  | (k', v) :: ops' =>
      match last_value k ops' with
      | Some v' => Some v'
      | None => if decide (k' = k) then Some v else None
      end
  end.

(** The value held under key [k] by the entries [es]. *)
Fixpoint held (k : string) (es : list entry) : option V :=
  match es with
  | [] => None
  | kv :: es' => if decide (key kv = k) then Some (value kv) else held k es'
  end.

(** *** Invariants

    The list and the index hold the same elements: the list has no element
    twice, its elements are the allocated ones, and the index sends a key
    to the element whose entry carries that key. *)
Record wf (c : Cache) : Prop := {
  wf_nodup : NoDup (ll c);
  wf_heap : ∀ e, e ∈ ll c ↔ is_Some (heap c !! e);
  wf_cache : ∀ k e, cache c !! k = Some e ↔ ∃ v, heap c !! e = Some (Entry k v)
}.

(** The byte counter is the sum over the entries held, computed as the
    program computes it, in [int64] arithmetic. *)
Definition tallied (c : Cache) : Prop :=
  nbytes c = Int64.wrap (total (entries c)).

(** No wrap-around has taken place: every value reports a length that is
    not negative, the sum over the entries held fits an [int64], and the
    byte counter is that sum. *)
Record accounted (c : Cache) : Prop := {
  acc_nbytes : nbytes c = total (entries c);
  acc_nonneg : Forall (λ kv, 0 ≤ Len (value kv))%Z (entries c);
  acc_range : (total (entries c) ≤ Int64.max_int)%Z
}.

End lru.

Arguments entry V : clear implicits.
Arguments Cache V W : clear implicits.

(** *** Clients of the store *)

Section operations.
Context {V : Type} `{!Value V, !Inhabited V} {W : Type}.

(** The calls that a client of the package can make on a store. *)
Inductive op : Type :=
  | OpAdd (k : string) (v : V)
  | OpGet (k : string)
  | OpRemoveOldest.

Definition call (o : op) (c : Cache V W) (w : W) : option (Cache V W * W) :=
  match o with
  | OpAdd k v => Add k v c w
  | OpGet k => Some ((Get k c).2, w)
  | OpRemoveOldest => Some (RemoveOldest c w)
  end.

Fixpoint calls (ops : list op) (c : Cache V W) (w : W) : option (Cache V W * W) :=
  match ops with
  | [] => Some (c, w)
  | o :: ops' =>
      match call o c w with
      | Some (c', w') => calls ops' c' w'
      | None => None
      end
  end.

(** [n] consecutive calls of [RemoveOldest]. *)
Fixpoint RemoveOldest_times (n : nat) (c : Cache V W) (w : W) : Cache V W * W :=
  match n with
  | O => (c, w)
  | S n' => let '(c', w') := RemoveOldest c w in RemoveOldest_times n' c' w'
  end.

End operations.

End lru.


(** ** Package consistenthash *)

Module consistenthash.

(** [type Hash func(data []byte) uint32].  The bytes are given as a Go
    string; the result is read as a [uint32], which [int(...)] leaves as it
    is, [int] being 64 bits wide. *)
Definition Hash := string → Z.

Definition uint32 (z : Z) : Z := (z mod 2 ^ 32)%Z.

(** [crc32.ChecksumIEEE], bit by bit (reflected polynomial 0xEDB88320). *)
Definition crc_shift (crc : Z) : Z :=
  if Z.testbit crc 0 then Z.lxor (Z.shiftr crc 1) 0xEDB88320%Z else Z.shiftr crc 1.

Definition crc_byte (crc : Z) (a : ascii) : Z :=
  Nat.iter 8 crc_shift (Z.lxor crc (Z.of_N (Ascii.N_of_ascii a))).

Definition ChecksumIEEE : Hash := λ data,
  Z.lxor (foldl crc_byte 0xFFFFFFFF%Z (String.list_ascii_of_string data)) 0xFFFFFFFF%Z.

(** [strconv.Itoa] on the non-negative loop index. *)
Definition Itoa (i : nat) : string := NilZero.string_of_uint (Nat.to_uint i).

(** [sort.Ints]: the ascending arrangement of the slice. *)
Definition Ints (l : list Z) : list Z := merge_sort Z.le l.

(** [sort.Search(n, f)]: the binary search of Go's library,
    [for i < j { h := int(uint(i+j) >> 1); if !f(h) { i = h + 1 } else { j = h } }].
    [i] and [j] are positions in a slice, so that [i+j] is below [2^64] and
    the conversions change nothing.  The interval shrinks at every turn, so
    [j - i] turns are enough. *)
Fixpoint Search_loop (fuel : nat) (f : Z → bool) (i j : Z) : Z :=
  match fuel with
  | O => i
  | S fuel' =>
      if bool_decide (i < j)%Z then
        let h := Z.shiftr (i + j) 1 in
        if negb (f h) then Search_loop fuel' f (h + 1) j
        else Search_loop fuel' f i h
      else i
  end.

Definition Search (n : Z) (f : Z → bool) : Z := Search_loop (Z.to_nat n) f 0 n.

(** [type Map struct] *)
Record Map := mkMap {
  hash : Hash;
  replicas : Z;
  keys : list Z;
  hashMap : gmap Z string
}.

Definition New (replicas : Z) (fn : option Hash) : Map :=
  {| hash := default ChecksumIEEE fn; replicas := replicas; keys := [];
     hashMap := ∅ |}.

(** One turn of the inner loop of [Add]: virtual node [i] of peer [key]. *)
Definition add_replica (key : string) (m : Map) (i : nat) : Map :=
  let h := uint32 (hash m (Itoa i +:+ key)) in
  {| hash := hash m; replicas := replicas m;
     keys := keys m ++ [h];
     hashMap := <[h := key]> (hashMap m) |}.

(** The two nested loops of [Add], before the sort. *)
Definition add_all (peers : list string) (m : Map) : Map :=
  foldl (λ m key, foldl (add_replica key) m (seq 0 (Z.to_nat (replicas m)))) m peers.

Definition Add (peers : list string) (m : Map) : Map :=
  let m' := add_all peers m in
  {| hash := hash m'; replicas := replicas m';
     keys := Ints (keys m');
     hashMap := hashMap m' |}.

(** [m.keys[i]] *)
Definition key_at (m : Map) (i : Z) : Z := keys m !!! Z.to_nat i.

Definition Get (key : string) (m : Map) : string :=
  if decide (length (keys m) = 0) then ""
  else
    let h := uint32 (hash m key) in
    let n := Z.of_nat (length (keys m)) in
    let idx := Search n (λ i, bool_decide (h ≤ key_at m i)%Z) in
    default "" (hashMap m !! key_at m (idx `mod` n)).

(** A ring as the program builds it: [New], then any number of [Add] calls. *)
Definition build (replicas : Z) (fn : option Hash) (adds : list (list string)) : Map :=
  foldl (λ m peers, Add peers m) (New replicas fn) adds.

(** The least index whose virtual-node hash is at least [h], the number of
    virtual nodes when there is none. *)
Fixpoint first_geq (h : Z) (l : list Z) : nat :=
  match l with
  | [] => 0
  | x :: l' => if bool_decide (h ≤ x)%Z then 0 else S (first_geq h l')
  end.

(** The virtual nodes of the peers [peers], each with its hash, in the
    order in which [Add] visits them. *)
Definition vnodes (hash : Hash) (replicas : Z) (peers : list string) : list (Z * string) :=
  peers ≫= λ key,
    (λ i, (uint32 (hash (Itoa i +:+ key)), key)) <$> seq 0 (Z.to_nat replicas).

(** [hm[h] = key] for each virtual node in turn. *)
Definition record_all (hm : gmap Z string) (vs : list (Z * string)) : gmap Z string :=
  foldl (λ hm v, <[v.1 := v.2]> hm) hm vs.

(** The peer a lookup that reaches position [i] of a ring of [n] virtual
    nodes resolves to: position [n] wraps around to position [0]. *)
Definition wrap_index (n i : nat) : nat := if decide (i < n) then i else 0.

(** [x] is the virtual-node hash that serves the hash [h] on the ring of
    hashes [l]: the least one at or after [h], the least of all when none
    is at or after [h]. *)
Definition successor (h : Z) (l : list Z) (x : Z) : Prop :=
  x ∈ l ∧
  (∀ y, y ∈ l → (h ≤ y)%Z → (h ≤ x ∧ x ≤ y)%Z) ∧
  ((∀ y, y ∈ l → (y < h)%Z) → ∀ y, y ∈ l → (x ≤ y)%Z).

End consistenthash.

(** ** Package geecache *)

Module geecache.

(** What a call does: it returns, it panics, or it never returns. *)
Inductive outcome (A : Type) : Type :=
  | Returns (a : A)
  | Panics (msg : string)
  | Hangs.
Arguments Returns {A} a.
Arguments Panics {A} msg.
Arguments Hangs {A}.

(** *** byteview.go *)

Record ByteView := mkByteView { b : list byte }.

#[export] Instance ByteView_inhabited : Inhabited ByteView := populate (mkByteView []).

Definition ByteView_Len (v : ByteView) : Z := Z.of_nat (length (b v)).

#[export] Instance ByteView_Value : lru.Value ByteView := ByteView_Len.

(** [cloneBytes]: a new slice, filled byte by byte from the old one. *)
Fixpoint cloneBytes (bs : list byte) : list byte :=
  match bs with
  | [] => []
  | x :: bs' => x :: cloneBytes bs'
  end.

Definition ByteSlice (v : ByteView) : list byte := cloneBytes (b v).

Definition String_ (v : ByteView) : string := String.string_of_list_byte (b v).

(** *** cache.go: the store behind its lock.  The lock is held for the whole
    of each operation, so an operation is one step; the store is created
    without eviction callback, whose state is therefore [unit]. *)

Record cache := mkcache {
  lru : option (lru.Cache ByteView unit);
  cacheBytes : Z
}.

Definition add (key : string) (value : ByteView) (c : cache) : outcome cache :=
  let l := match lru c with
           | None => lru.New (cacheBytes c) None
           | Some l => l
           end in
  match lru.Add key value l tt with
  | Some (l', _) => Returns {| lru := Some l'; cacheBytes := cacheBytes c |}
  | None => Hangs
  end.

Definition get (key : string) (c : cache) : option ByteView * cache :=
  match lru c with
  | None => (None, c)
  | Some l =>
      match lru.Get key l with
      | (Some v, l') => (Some v, {| lru := Some l'; cacheBytes := cacheBytes c |})
      | (None, l') => (None, {| lru := Some l'; cacheBytes := cacheBytes c |})
      end
  end.

(** *** geecache.go and peers.go

    [W] is the state of everything outside the group that a loader or a
    peer can read or change (the data source, the network); [error] is
    Go's [error], of which only [fmt.Errorf] and [Error()] are used.
    Log lines are left out. *)

Section group.
Context {W error : Type} (Errorf : string → error) (Error : error → string).

(** [type Getter interface { Get(key string) ([]byte, error) }] *)
Definition Getter := string → W → (list byte * option error) * W.

(** [type PeerGetter interface { Get(group string, key string) ([]byte, error) }] *)
Definition PeerGetter := string → string → W → (list byte * option error) * W.

(** [type PeerPicker interface { PickPeer(key string) (peer PeerGetter, ok bool) }] *)
Definition PeerPicker := string → W → option PeerGetter * W.

Record Group := mkGroup {
  name : string;
  getter : Getter;
  mainCache : cache;
  peers : option PeerPicker
}.

Definition with_mainCache (g : Group) (c : cache) : Group :=
  {| name := name g; getter := getter g; mainCache := c; peers := peers g |}.

(** The process-wide [groups] registry is passed explicitly. *)
Definition NewGroup (name : string) (cacheBytes : Z) (getter : option Getter)
    (groups : gmap string Group) : outcome (Group * gmap string Group) :=
  match getter with
  | None => Panics "nil Getter"
  | Some getter =>
      let g := {| name := name; getter := getter;
                  mainCache := {| lru := None; cacheBytes := cacheBytes |};
                  peers := None |} in
      Returns (g, <[name := g]> groups)
  end.

Definition GetGroup (name : string) (groups : gmap string Group) : option Group :=
  groups !! name.

(** The argument is an interface value, [None] when it is [nil]: the
    assignment then leaves the group without picker. *)
Definition RegisterPeers (picker : option PeerPicker) (g : Group) : outcome Group :=
  match peers g with
  | Some _ => Panics "RegisterPeerPicker called more than once"
  | None => Returns {| name := name g; getter := getter g;
                       mainCache := mainCache g; peers := picker |}
  end.

Definition populateCache (key : string) (value : ByteView) (g : Group) : outcome Group :=
  match add key value (mainCache g) with
  | Returns c => Returns (with_mainCache g c)
  | Panics msg => Panics msg
  | Hangs => Hangs
  end.

Definition getLocally (key : string) (g : Group) (w : W)
    : outcome ((ByteView * option error) * Group * W) :=
  match getter g key w with
  | (_, Some err, w') => Returns ((mkByteView [], Some err), g, w')
  | (bytes, None, w') =>
      let value := mkByteView (cloneBytes bytes) in
      match populateCache key value g with
      | Returns g' => Returns ((value, None), g', w')
      | Panics msg => Panics msg
      | Hangs => Hangs
      end
  end.

Definition getFromPeer (peer : PeerGetter) (key : string) (g : Group) (w : W)
    : (ByteView * option error) * W :=
  match peer (name g) key w with
  | (_, Some err, w') => ((mkByteView [], Some err), w')
  | (bytes, None, w') => ((mkByteView bytes, None), w')
  end.

Definition load (key : string) (g : Group) (w : W)
    : outcome ((ByteView * option error) * Group * W) :=
  match peers g with
  | Some picker =>
      match picker key w with
      | (Some peer, w1) =>
          match getFromPeer peer key g w1 with
          | ((value, None), w2) => Returns ((value, None), g, w2)
          | ((_, Some _), w2) => getLocally key g w2
          end
      | (None, w1) => getLocally key g w1
      end
  | None => getLocally key g w
  end.

Definition Get (key : string) (g : Group) (w : W)
    : outcome ((ByteView * option error) * Group * W) :=
  if decide (key = "") then
    Returns ((mkByteView [], Some (Errorf "key is required")), g, w)
  else
    match get key (mainCache g) with
    | (Some v, c) => Returns ((v, None), with_mainCache g c, w)
    | (None, c) => load key (with_mainCache g c) w
    end.

(** *** http.go, server side *)

(** [strings.HasPrefix] *)
Definition HasPrefix (s prefix : string) : bool := String.prefix prefix s.

(** [s[n:]] *)
Fixpoint slice_from (n : nat) (s : string) : string :=
  match n, s with
  | S n', String _ s' => slice_from n' s'
  | _, _ => s
  end.

(** The text before and after the first occurrence of the byte [sep]. *)
Fixpoint Cut (sep : ascii) (s : string) : option (string * string) :=
  match s with
  | EmptyString => None
  | String a s' =>
      if decide (a = sep) then Some (EmptyString, s')
      else match Cut sep s' with
           | Some (before, after) => Some (String a before, after)
           | None => None
           end
  end.

(** Pieces of [s] between occurrences of [sep], the last piece being the
    unsplit rest once [more] cuts are made. *)
Fixpoint genSplit (more : nat) (sep : ascii) (s : string) : list string :=
  match more with
  | O => [s]
  | S more' =>
      match Cut sep s with
      | Some (before, after) => before :: genSplit more' sep after
      | None => [s]
      end
  end.

(** [strings.SplitN(s, sep, n)] for a separator of one byte. *)
Definition SplitN (s : string) (sep : ascii) (n : Z) : list string :=
  if decide (n = 0)%Z then []
  else if decide (n < 0)%Z then genSplit (String.length s) sep s
  else genSplit (Z.to_nat (n - 1)) sep s.

Record HTTPPool := mkHTTPPool {
  self : string;
  basePath : string
}.

Definition defaultBasePath : string := "/_geecache/".

Definition NewHTTPPool (self : string) : HTTPPool :=
  {| self := self; basePath := defaultBasePath |}.

(** What the handler leaves in the [http.ResponseWriter]. *)
Record response := mkResponse {
  status : Z;
  contentType : string;
  body : list byte
}.

Definition StatusOK : Z := 200.
Definition StatusBadRequest : Z := 400.
Definition StatusNotFound : Z := 404.
Definition StatusInternalServerError : Z := 500.

(** [http.Error(w, msg, code)] *)
Definition http_Error (msg : string) (code : Z) : response :=
  {| status := code; contentType := "text/plain; charset=utf-8";
     body := String.list_byte_of_string (msg +:+ String "010" EmptyString) |}.

Definition ServeHTTP (p : HTTPPool) (path : string)
    (groups : gmap string Group) (w : W)
    : outcome (response * gmap string Group * W) :=
  if negb (HasPrefix path (basePath p)) then
    Panics ("HTTPPool serving unexpected path: " +:+ path)
  else
    match SplitN (slice_from (String.length (basePath p)) path) "/" 2 with
    | [groupName; key] =>
        match GetGroup groupName groups with
        | None =>
            Returns (http_Error ("no such group: " +:+ groupName) StatusNotFound,
                     groups, w)
        | Some group =>
            match Get key group w with
            | Returns ((_, Some err), group', w') =>
                Returns (http_Error (Error err) StatusInternalServerError,
                         <[groupName := group']> groups, w')
            | Returns ((view, None), group', w') =>
                Returns ({| status := StatusOK;
                            contentType := "application/octet-stream";
                            body := ByteSlice view |},
                         <[groupName := group']> groups, w')
            | Panics msg => Panics msg
            | Hangs => Hangs
            end
        end
    | _ => Returns (http_Error "bad request" StatusBadRequest, groups, w)
    end.

(** [strings.Split(s, sep)]: all the segments of [s]. *)
Definition Split (s : string) (sep : ascii) : list string := SplitN s sep (-1).

(** The state of the world in which [load] calls the data-source loader:
    at once without peer picker, after the picker when it declines, after
    the peer's answer when the fetch fails; [None] when a peer serves the
    key. *)
Definition fallback (key : string) (g : Group) (w : W) : option W :=
  match peers g with
  | Some picker =>
      match picker key w with
      | (Some peer, w1) =>
          match peer (name g) key w1 with
          | (_, Some _, w2) => Some w2
          | (_, None, _) => None
          end
      | (None, w1) => Some w1
      end
  | None => Some w
  end.

(** The store behind a cache wrapper, once created, has the capacity of
    the wrapper and satisfies the invariants of the LRU store: list and
    index agree, and the byte counter is the sum over the entries. *)
Definition cache_ok (c : cache) : Prop :=
  match lru c with
  | Some l => lru.wf l ∧ lru.maxBytes l = cacheBytes c ∧ lru.tallied l
  | None => True
  end.

End group.

Arguments Group W error : clear implicits.

(** A loader that also counts how often it is called. *)
Definition counting {W error} (f : @Getter W error) : @Getter (W * nat) error :=
  λ key s, let '(r, w') := f key s.1 in (r, (w', S s.2)).

(** *** Clients of a cache wrapper and of a group *)

(** The calls made on a cache wrapper. *)
Inductive cache_op : Type :=
  | CAdd (key : string) (value : ByteView)
  | CGet (key : string).

Definition cache_call (o : cache_op) (c : cache) : outcome cache :=
  match o with
  | CAdd key value => add key value c
  | CGet key => Returns (get key c).2
  end.

Definition is_add (o : cache_op) : bool :=
  match o with
  | CAdd _ _ => true
  | CGet _ => false
  end.

Fixpoint cache_calls (ops : list cache_op) (c : cache) : outcome cache :=
  match ops with
  | [] => Returns c
  | o :: ops' =>
      match cache_call o c with
      | Returns c' => cache_calls ops' c'
      | Panics msg => Panics msg
      | Hangs => Hangs
      end
  end.

(** Consecutive [Get] calls on a group, results dropped. *)
Fixpoint Gets {W error} (Errorf : string → error) (keys : list string)
    (g : Group W error) (w : W) : outcome (Group W error * W) :=
  match keys with
  | [] => Returns (g, w)
  | key :: keys' =>
      match Get Errorf key g w with
      | Returns (_, g', w') => Gets Errorf keys' g' w'
      | Panics msg => Panics msg
      | Hangs => Hangs
      end
  end.

(** Consecutive [NewGroup] calls, each with name, capacity and loader. *)
Fixpoint NewGroups {W error} (regs : list (string * Z * option (@Getter W error)))
    (groups : gmap string (Group W error)) : outcome (gmap string (Group W error)) :=
  match regs with
  | [] => Returns groups
  | (name, cacheBytes, getter) :: regs' =>
      match NewGroup name cacheBytes getter groups with
      | Returns (_, groups') => NewGroups regs' groups'
      | Panics msg => Panics msg
      | Hangs => Hangs
      end
  end.

(** The group as [NewGroup] makes it. *)
Definition fresh_group {W error} (name : string) (cacheBytes : Z)
    (getter : @Getter W error) : Group W error :=
  {| name := name; getter := getter;
     mainCache := {| lru := None; cacheBytes := cacheBytes |}; peers := None |}.

(** A group with its peer picker taken away. *)
Definition without_peers {W error} (g : Group W error) : Group W error :=
  {| name := name g; getter := getter g; mainCache := mainCache g; peers := None |}.

(** *** http.go: peers of a pool *)

Definition defaultReplicas : Z := 50.

(** [type httpGetter struct { baseURL string }] *)
Record httpGetter := mkhttpGetter { baseURL : string }.

(** [type HTTPPool struct] in full: to the fields that [ServeHTTP] reads
    (record [HTTPPool]) come the ring, a nil pointer until [Set] is called,
    and the getters by peer address. *)
Record PeerPool := mkPeerPool {
  pool : HTTPPool;
  pool_peers : option consistenthash.Map;
  httpGetters : gmap string httpGetter
}.

Definition NewPeerPool (self : string) : PeerPool :=
  {| pool := NewHTTPPool self; pool_peers := None; httpGetters := ∅ |}.

(** [func (p *HTTPPool) Set(peers ...string)].  The ring is that of package
    [consistenthash] above. *)
Definition Set_ (peers : list string) (p : PeerPool) : PeerPool :=
  {| pool := pool p;
     pool_peers :=
       Some (consistenthash.Add peers (consistenthash.New defaultReplicas None));
     httpGetters :=
       foldl (λ hg peer, <[peer := mkhttpGetter (peer +:+ basePath (pool p))]> hg)
         ∅ peers |}.

(** [func (p *HTTPPool) PickPeer(key string) (PeerGetter, bool)].  With the
    ring still nil, reading its keys is a nil dereference. *)
Definition PickPeer (key : string) (p : PeerPool) : outcome (option httpGetter * bool) :=
  match pool_peers p with
  | None => Panics "runtime error: invalid memory address or nil pointer dereference"
  | Some ring =>
      let peer := consistenthash.Get key ring in
      if decide (peer ≠ "" ∧ peer ≠ self (pool p))
      then Returns (httpGetters p !! peer, true)
      else Returns (None, false)
  end.

(** *** http.go: the address a getter asks for

    [url.QueryEscape] of Go's library: letters, digits and [-_.~] stay, a
    space becomes [+], every other byte becomes [%XX] in upper-case
    hexadecimal. *)

Definition in_range_ascii (lo hi c : ascii) : bool :=
  (nat_of_ascii lo <=? nat_of_ascii c) && (nat_of_ascii c <=? nat_of_ascii hi).

Definition shouldEscape (c : ascii) : bool :=
  if in_range_ascii "a" "z" c || in_range_ascii "A" "Z" c || in_range_ascii "0" "9" c
  then false
  else if bool_decide (c ∈ ["-"; "_"; "."; "~"]%char) then false
  else true.

Definition upperhex (n : nat) : ascii :=
  nth n (String.list_ascii_of_string "0123456789ABCDEF") "0"%char.

Fixpoint QueryEscape (s : string) : string :=
  match s with
  | EmptyString => EmptyString
  | String c s' =>
      if shouldEscape c then
        if decide (c = " "%char) then String "+" (QueryEscape s')
        else String "%" (String (upperhex (nat_of_ascii c / 16))
                           (String (upperhex (nat_of_ascii c mod 16)) (QueryEscape s')))
      else String c (QueryEscape s')
  end.

(** [u] of [httpGetter.Get]: [fmt.Sprintf("%v%v/%v", h.baseURL,
    url.QueryEscape(group), url.QueryEscape(key))]. *)
Definition request_url (h : httpGetter) (group key : string) : string :=
  baseURL h +:+ QueryEscape group +:+ String "/" (QueryEscape key).

(** The path of that address: what follows scheme and host in [baseURL]. *)
Definition request_path (basePath group key : string) : string :=
  basePath +:+ QueryEscape group +:+ String "/" (QueryEscape key).

(** The decoding by which Go's [net/url] turns the path of a request into
    [r.URL.Path]: [%XX] becomes the byte of that value, every other byte,
    [+] included, stays; a [%] without two hexadecimal digits after it is
    an error. *)
Definition ishex (c : ascii) : bool :=
  in_range_ascii "0" "9" c || in_range_ascii "a" "f" c || in_range_ascii "A" "F" c.

Definition unhex (c : ascii) : nat :=
  if in_range_ascii "0" "9" c then nat_of_ascii c - nat_of_ascii "0"
  else if in_range_ascii "a" "f" c then nat_of_ascii c - nat_of_ascii "a" + 10
  else if in_range_ascii "A" "F" c then nat_of_ascii c - nat_of_ascii "A" + 10
  else 0.

Fixpoint PathUnescape (s : string) : option string :=
  match s with
  | EmptyString => Some EmptyString
  | String c s' =>
      if decide (c = "%"%char) then
        match s' with
        | String a (String b s'') =>
            if ishex a && ishex b
            then String (ascii_of_nat (unhex a * 16 + unhex b)) <$> PathUnescape s''
            else None
        | _ => None
        end
      else String c <$> PathUnescape s'
  end.

(** A text with a [+] in the place of each space. *)
Fixpoint plus_for_space (s : string) : string :=
  match s with
  | EmptyString => EmptyString
  | String c s' =>
      String (if decide (c = " "%char) then "+"%char else c) (plus_for_space s')
  end.

End geecache.

(** ** Package geecache as of 3_http-server: groups before peers *)

Module geecache3.
Import geecache.

Section group.
Context {W error : Type} (Errorf : string → error).

Record Group := mkGroup {
  name : string;
  getter : @Getter W error;
  mainCache : cache
}.

Definition populateCache (key : string) (value : ByteView) (g : Group) : outcome Group :=
  match add key value (mainCache g) with
  | Returns c => Returns {| name := name g; getter := getter g; mainCache := c |}
  | Panics msg => Panics msg
  | Hangs => Hangs
  end.

Definition getLocally (key : string) (g : Group) (w : W)
    : outcome ((ByteView * option error) * Group * W) :=
  match getter g key w with
  | (_, Some err, w') => Returns ((mkByteView [], Some err), g, w')
  | (bytes, None, w') =>
      let value := mkByteView (cloneBytes bytes) in
      match populateCache key value g with
      | Returns g' => Returns ((value, None), g', w')
      | Panics msg => Panics msg
      | Hangs => Hangs
      end
  end.

Definition load (key : string) (g : Group) (w : W)
    : outcome ((ByteView * option error) * Group * W) :=
  getLocally key g w.

Definition Get (key : string) (g : Group) (w : W)
    : outcome ((ByteView * option error) * Group * W) :=
  if decide (key = "") then
    Returns ((mkByteView [], Some (Errorf "key is required")), g, w)
  else
    match get key (mainCache g) with
    | (Some v, c) =>
        Returns ((v, None), {| name := name g; getter := getter g; mainCache := c |}, w)
    | (None, c) => load key {| name := name g; getter := getter g; mainCache := c |} w
    end.

End group.

Arguments Group W error : clear implicits.

(** A group of 5_multi-nodes seen as a group of this version. *)
Definition forget {W error} (g : geecache.Group W error) : Group W error :=
  {| name := geecache.name g; getter := geecache.getter g;
     mainCache := geecache.mainCache g |}.

End geecache3.


(** ** The demonstration program (main.go) and test data *)

Module demo.
Import geecache.

(** [[]byte(s)] as a cached value. *)
Definition bytes_view (s : string) : ByteView := mkByteView (String.list_byte_of_string s).

(** [var db = map[string]string{...}] *)
Definition db : gmap string string :=
  <["Tom" := "630"]> (<["Jack" := "589"]> (<["Sam" := "567"]> ∅)).

(** Errors are their text: [fmt.Errorf] builds it, [Error()] reads it. *)
Definition Errorf (msg : string) : string := msg.
Definition Error (err : string) : string := err.

(** The loader passed to [NewGroup] by [createGroup]. *)
Definition slowDB : @Getter unit string := λ key w,
  match db !! key with
  | Some v => ((String.list_byte_of_string v, None), w)
  | None => (([], Some (Errorf (key +:+ " not exist"))), w)
  end.

(** The group [createGroup] registers, with capacity [cacheBytes]
    ([2<<10] in main.go). *)
Definition scores (cacheBytes : Z) : Group unit string :=
  {| name := "scores"; getter := slowDB;
     mainCache := {| lru := None; cacheBytes := cacheBytes |};
     peers := None |}.

(** The same group with the loader counting its calls. *)
Definition counted_scores (cacheBytes : Z) : Group (unit * nat) string :=
  {| name := "scores"; getter := counting slowDB;
     mainCache := {| lru := None; cacheBytes := cacheBytes |};
     peers := None |}.

(** A peer that answers every key with the text ["remote"], and a picker
    that always picks it. *)
Definition remote_peer : @PeerGetter unit string := λ group key w,
  ((String.list_byte_of_string "remote", None), w).

Definition always_remote : @PeerPicker unit string := λ key w, (Some remote_peer, w).

Definition scores_with_peer : Group unit string :=
  {| name := "scores"; getter := slowDB;
     mainCache := {| lru := None; cacheBytes := 2048 |};
     peers := Some always_remote |}.

(** A hash that reads its input as a decimal number, to place virtual
    nodes by hand. *)
Definition digit_hash : consistenthash.Hash := λ data,
  foldl (λ n a, 10 * n + (Z.of_N (Ascii.N_of_ascii a) - 48))%Z 0%Z
    (String.list_ascii_of_string data).

(** Peers "6", "4" and "2" with three virtual nodes each, at 2, 4, 6, 12,
    14, 16, 22, 24 and 26. *)
Definition small_ring : consistenthash.Map :=
  consistenthash.build 3 (Some digit_hash) [["6"; "4"; "2"]].

(** An eviction callback that records what it is called with, latest first. *)
Definition record_evicted : string → ByteView → list (string * ByteView) → list (string * ByteView) :=
  λ k v log, (k, v) :: log.

(** A store of capacity 10 after three insertions; a fourth one makes it
    evict. *)
Definition three_adds : list (string * ByteView) :=
  [("k1", bytes_view "12"); ("k2", bytes_view "345"); ("k1", bytes_view "6")].

Definition four_adds : list (string * ByteView) :=
  three_adds ++ [("k3", bytes_view "7890")].

Definition small_store : lru.Cache ByteView (list (string * ByteView)) :=
  match lru.Adds three_adds (lru.New 10 (Some record_evicted)) [] with
  | Some (c, _) => c
  | None => lru.New 10 (Some record_evicted)
  end.

(** A value that reports the length it is made with, whatever that is. *)
Record sized := mksized { reported : Z }.

#[export] Instance sized_Value : lru.Value sized := reported.

#[export] Instance sized_inhabited : Inhabited sized := populate (mksized 0).

(** A store without bound that holds one entry. *)
Definition unbounded_store : lru.Cache ByteView unit :=
  lru.store "Tom" (bytes_view "630") (lru.New 0 None).

(** The handler of [/api] in [startAPIServer], from the [key] of the query
    on. *)
Definition api_handler {W error} (Errorf : string → error) (Error : error → string)
    (key : string) (gee : Group W error) (w : W)
    : outcome (response * Group W error * W) :=
  match Get Errorf key gee w with
  | Returns ((_, Some err), gee', w') =>
      Returns (http_Error (Error err) StatusInternalServerError, gee', w')
  | Returns ((view, None), gee', w') =>
      Returns ({| status := StatusOK;
                  contentType := "application/octet-stream";
                  body := ByteSlice view |}, gee', w')
  | Panics msg => Panics msg
  | Hangs => Hangs
  end.

(** Calls of every kind on a store of capacity 10, and what they leave. *)
Definition busy_ops : list (lru.op (V := ByteView)) :=
  [lru.OpAdd "k1" (bytes_view "12"); lru.OpGet "k1";
   lru.OpAdd "k2" (bytes_view "345"); lru.OpRemoveOldest;
   lru.OpAdd "k3" (bytes_view "7890")].

Definition busy_store
    : lru.Cache ByteView (list (string * ByteView)) * list (string * ByteView) :=
  default (lru.New 10 (Some record_evicted), [])
    (lru.calls busy_ops (lru.New 10 (Some record_evicted)) []).

(** A cache wrapper of capacity 10 after a miss, an insertion and a hit. *)
Definition wrapper_ops : list cache_op :=
  [CGet "a"; CAdd "a" (bytes_view "1"); CGet "a"].

Definition wrapper_after : cache :=
  match cache_calls wrapper_ops {| lru := None; cacheBytes := 10 |} with
  | Returns c => c
  | _ => {| lru := None; cacheBytes := 10 |}
  end.

(** The group of main.go after three requests. *)
Definition scores_after : Group unit string :=
  match Gets Errorf ["Tom"; "kkk"; "Tom"] (scores 2048) tt with
  | Returns (g, _) => g
  | _ => scores 2048
  end.


End demo.

(** * Properties *)

(** ** Machine integers *)

Lemma wrap_in_range z : Int64.in_range z → Int64.wrap z = z.
Proof.
  unfold Int64.in_range, Int64.wrap, Int64.min_int, Int64.max_int. intros Hz.
  rewrite Z.mod_small; lia.
Qed.

Ltac range_solve :=
  unfold Int64.in_range, Int64.min_int, Int64.max_int in *; lia.

(** Removes every conversion and wrap-around whose argument is in range. *)
Ltac unwrap :=
  unfold Int64.add, Int64.sub in *;
  repeat match goal with
         | |- context [Int64.wrap ?z] => rewrite (wrap_in_range z) by range_solve
         end.

Ltac literals :=
  let c64 := eval vm_compute in (2 ^ 64)%Z in
  let c63 := eval vm_compute in (2 ^ 63)%Z in
  change (2 ^ 64)%Z with c64 in *; change (2 ^ 63)%Z with c63 in *.

Lemma wrap_multiple x : ∃ k, Int64.wrap x = (x + 2 ^ 64 * k)%Z.
Proof.
  unfold Int64.wrap. exists (- ((x + 2 ^ 63) `div` 2 ^ 64))%Z.
  pose proof (Z.div_mod (x + 2 ^ 63) (2 ^ 64)). literals. lia.
Qed.

Lemma wrap_eq_mod a b : ((a - b) `mod` 2 ^ 64 = 0)%Z → Int64.wrap a = Int64.wrap b.
Proof.
  intros H. apply Z.mod_divide in H; [|lia]. destruct H as [q Hq].
  unfold Int64.wrap. f_equal.
  replace (a + 2 ^ 63)%Z with (b + 2 ^ 63 + q * 2 ^ 64)%Z by lia.
  apply Z.mod_add. lia.
Qed.

(** Proves [wrap a = wrap b] when [a] and [b], conversions inside them set
    aside, differ by a multiple of [2^64]. *)
Ltac wrap_eq :=
  unfold Int64.add, Int64.sub in *;
  apply wrap_eq_mod;
  repeat match goal with
         | |- context [Int64.wrap ?x] =>
             let k := fresh "k" in
             let H := fresh "H" in
             destruct (wrap_multiple x) as [k H]; rewrite H; clear H
         end;
  literals; Z.to_euclidean_division_equations; lia.

Lemma len_nonneg s : (0 ≤ len s)%Z.
Proof. unfold len. lia. Qed.

Lemma filter_all {A} (P : A → Prop) `{!∀ x, Decision (P x)} (l : list A) :
  Forall P l → filter P l = l.
Proof.
  induction 1 as [|x l Hx _ IH]; [done |].
  rewrite filter_cons_True by done. by rewrite IH.
Qed.

(** ** The LRU store *)

Module lru_facts.
Import lru.

Section facts.
Context {V : Type} `{!Value V, !Inhabited V} {W : Type}.
Implicit Types (c : Cache V W) (w : W) (k : string) (v : V) (e : elem)
  (kv : entry V) (es : list (entry V)).

(** *** Sums *)

Lemma total_app es1 es2 : total (es1 ++ es2) = (total es1 + total es2)%Z.
Proof. induction es1 as [|kv es1 IH]; simpl; [done | rewrite IH; lia]. Qed.

Lemma total_nonneg es :
  Forall (λ kv, 0 ≤ Len (value kv))%Z es → (0 ≤ total es)%Z.
Proof.
  induction 1 as [|kv es Hkv _ IH]; simpl; [done |].
  unfold size. pose proof (len_nonneg (key kv)). lia.
Qed.

Lemma size_nonneg kv : (0 ≤ Len (value kv))%Z → (0 ≤ size kv)%Z.
Proof. unfold size. pose proof (len_nonneg (key kv)). lia. Qed.

(** *** The recency list *)

Lemma Remove_not_elem e l : e ∉ l → Remove e l = l.
Proof.
  intros He. unfold Remove. induction l as [|x l IH]; [done |].
  apply not_elem_of_cons in He as [Hne He].
  rewrite filter_cons_True by done. by rewrite IH.
Qed.

Lemma Remove_last e l : e ∉ l → Remove e (l ++ [e]) = l.
Proof.
  intros He. unfold Remove. rewrite filter_app.
  rewrite filter_cons_False by (intros Hne; by apply Hne).
  rewrite filter_nil, app_nil_r. by apply Remove_not_elem.
Qed.

Lemma elem_of_Remove x e l : x ∈ Remove e l ↔ x ≠ e ∧ x ∈ l.
Proof. unfold Remove. by rewrite list_elem_of_filter. Qed.

Lemma NoDup_Remove e l : NoDup l → NoDup (Remove e l).
Proof. apply NoDup_filter. Qed.

Lemma NoDup_MoveToFront e l : NoDup l → NoDup (MoveToFront e l).
Proof.
  intros Hl. unfold MoveToFront. case_decide; [|done].
  apply NoDup_cons. split; [|by apply NoDup_Remove].
  rewrite elem_of_Remove. naive_solver.
Qed.

Lemma elem_of_MoveToFront x e l : x ∈ MoveToFront e l ↔ x ∈ l.
Proof.
  unfold MoveToFront. case_decide as He; [|done].
  rewrite elem_of_cons, elem_of_Remove.
  destruct (decide (x = e)) as [->|]; naive_solver.
Qed.

(** *** Reading the heap through the invariant *)

Lemma wf_deref c k e :
  wf c → cache c !! k = Some e →
  ∃ v0, heap c !! e = Some (Entry k v0) ∧ heap c !!! e = Entry k v0 ∧ e ∈ ll c.
Proof.
  intros Hwf Hk. apply (wf_cache c Hwf) in Hk as [v0 Hv0].
  exists v0. split_and!; [done | by apply lookup_total_correct |].
  apply (wf_heap c Hwf). by eexists.
Qed.

Lemma wf_key_inj c e1 e2 :
  wf c → e1 ∈ ll c → e2 ∈ ll c →
  key (heap c !!! e1) = key (heap c !!! e2) → e1 = e2.
Proof.
  intros Hwf [[k1 v1] H1]%(wf_heap c Hwf) [[k2 v2] H2]%(wf_heap c Hwf).
  rewrite (lookup_total_correct _ _ _ H1), (lookup_total_correct _ _ _ H2).
  simpl. intros ->.
  assert (cache c !! k2 = Some e1) as Ha by (apply (wf_cache c Hwf); eauto).
  assert (cache c !! k2 = Some e2) as Hb by (apply (wf_cache c Hwf); eauto).
  congruence.
Qed.

Lemma wf_NoDup_keys c : wf c → NoDup (key <$> entries c).
Proof.
  intros Hwf. unfold entries. rewrite <-list_fmap_compose.
  apply NoDup_fmap_2_strong; [|apply (wf_nodup c Hwf)].
  intros e1 e2 H1 H2 Heq. by apply (wf_key_inj c).
Qed.

Lemma elem_of_entries c k v :
  wf c → Entry k v ∈ entries c ↔ ∃ e, cache c !! k = Some e ∧ heap c !!! e = Entry k v.
Proof.
  intros Hwf. unfold entries. rewrite list_elem_of_fmap. split.
  - intros (e & Heq & He). exists e. split; [|done].
    apply (wf_heap c Hwf) in He as [kv Hkv].
    rewrite (lookup_total_correct _ _ _ Hkv) in Heq. subst kv.
    apply (wf_cache c Hwf). eauto.
  - intros (e & Hk & Heq). exists e. split; [done |].
    by destruct (wf_deref c k e Hwf Hk) as (? & ? & ? & ?).
Qed.

Lemma cache_None_entries c k :
  wf c → cache c !! k = None → Forall (λ kv, key kv ≠ k) (entries c).
Proof.
  intros Hwf Hk. apply Forall_forall. intros [k' v'] Hin <-.
  apply (elem_of_entries c k' v' Hwf) in Hin as (e & He & _). simpl in Hk.
  congruence.
Qed.

(** Moving the element of key [k] to the front, seen on the entries. *)
Lemma entries_move c k e (h : gmap elem (entry V)) :
  wf c → cache c !! k = Some e →
  (∀ e', e' ≠ e → h !! e' = heap c !! e') →
  (λ e', h !!! e') <$> Remove e (ll c)
  = filter (λ kv, key kv ≠ k) (entries c).
Proof.
  intros Hwf Hk Hh.
  destruct (wf_deref c k e Hwf Hk) as (v0 & Hv0 & Hv0' & Hin).
  unfold entries, Remove.
  assert (∀ l, l ⊆ ll c →
    (λ e', h !!! e') <$> filter (λ x, x ≠ e) l
    = filter (λ kv, key kv ≠ k) ((λ e', heap c !!! e') <$> l)) as Hgen.
  { induction l as [|x l IH]; intros Hsub; [done |].
    assert (x ∈ ll c) as Hx by (apply Hsub; left).
    assert (l ⊆ ll c) as Hl by (intros y Hy; apply Hsub; by right).
    rewrite fmap_cons. destruct (decide (x = e)) as [->|Hne].
    - rewrite filter_cons_False by naive_solver.
      rewrite filter_cons_False by (rewrite Hv0'; naive_solver).
      by apply IH.
    - rewrite filter_cons_True by done.
      rewrite filter_cons_True.
      + rewrite fmap_cons, IH by done. f_equal.
        unfold lookup_total, map_lookup_total. by rewrite Hh.
      + intros Hkey. apply Hne. apply (wf_key_inj c); [done..|].
        by rewrite Hv0'. }
  by apply Hgen.
Qed.

(** *** [store]: the branches of [Add] *)

Lemma store_wf k v c : wf c → wf (store k v c).
Proof.
  intros Hwf. unfold store. destruct (cache c !! k) as [ele|] eqn:Hk.
  - destruct (wf_deref c k ele Hwf Hk) as (v0 & Hv0 & Hv0' & Hin).
    rewrite Hv0'. split; simpl.
    + apply NoDup_MoveToFront, (wf_nodup c Hwf).
    + intros e. rewrite elem_of_MoveToFront, (wf_heap c Hwf e).
      destruct (decide (e = ele)) as [->|Hne].
      * rewrite lookup_insert_eq, Hv0. split; eauto.
      * by rewrite lookup_insert_ne.
    + intros k' e. destruct (decide (e = ele)) as [->|Hne].
      * rewrite lookup_insert_eq, (wf_cache c Hwf k' ele), Hv0.
        split; intros [v' Hv']; simplify_eq; eauto.
      * rewrite lookup_insert_ne by done. apply (wf_cache c Hwf).
  - set (ele := fresh (dom (heap c))).
    assert (heap c !! ele = None) as Hfresh.
    { apply not_elem_of_dom. apply is_fresh. }
    assert (ele ∉ ll c) as Hnotin.
    { rewrite (wf_heap c Hwf), Hfresh. by intros [? ?]. }
    split; simpl.
    + apply NoDup_cons. split; [done | apply (wf_nodup c Hwf)].
    + intros e. rewrite elem_of_cons, (wf_heap c Hwf e).
      destruct (decide (e = ele)) as [->|Hne].
      * rewrite lookup_insert_eq. split; eauto.
      * rewrite lookup_insert_ne by done. naive_solver.
    + intros k' e. destruct (decide (k' = k)) as [->|Hkne].
      * rewrite lookup_insert_eq. destruct (decide (e = ele)) as [->|Hne].
        -- rewrite lookup_insert_eq. split; eauto.
        -- rewrite lookup_insert_ne by done. split; [congruence |].
           intros Hex. apply (wf_cache c Hwf) in Hex. congruence.
      * rewrite lookup_insert_ne by done.
        destruct (decide (e = ele)) as [->|Hne].
        -- rewrite lookup_insert_eq. split.
           ++ intros [v' Hv']%(wf_cache c Hwf). congruence.
           ++ intros [v' Hv']. congruence.
        -- rewrite lookup_insert_ne by done. apply (wf_cache c Hwf).
Qed.

Lemma store_entries k v c :
  wf c →
  entries (store k v c) = Entry k v :: filter (λ kv, key kv ≠ k) (entries c).
Proof.
  intros Hwf. unfold store. destruct (cache c !! k) as [ele|] eqn:Hk.
  - destruct (wf_deref c k ele Hwf Hk) as (v0 & Hv0 & Hv0' & Hin).
    rewrite Hv0'. unfold entries at 1. simpl.
    unfold MoveToFront. rewrite decide_True by done.
    rewrite fmap_cons. f_equal.
    + by rewrite lookup_total_insert_eq.
    + apply (entries_move c k ele); [done..|].
      intros e' Hne. by rewrite lookup_insert_ne.
  - set (ele := fresh (dom (heap c))).
    assert (heap c !! ele = None) as Hfresh.
    { apply not_elem_of_dom. apply is_fresh. }
    assert (ele ∉ ll c) as Hnotin.
    { rewrite (wf_heap c Hwf), Hfresh. by intros [? ?]. }
    unfold entries at 1. simpl. f_equal.
    + by rewrite lookup_total_insert_eq.
    + rewrite filter_all.
      * apply list_fmap_ext. intros i e He.
        apply lookup_total_insert_ne. intros <-.
        apply Hnotin. by eapply list_elem_of_lookup_2.
      * by apply cache_None_entries.
Qed.

Lemma total_filter_key es k v0 :
  NoDup (key <$> es) → Entry k v0 ∈ es →
  total es = (size (Entry k v0) + total (filter (λ kv, key kv ≠ k) es))%Z.
Proof.
  induction es as [|kv es IH]; intros Hnd Hin; [by apply elem_of_nil in Hin |].
  rewrite fmap_cons in Hnd. apply NoDup_cons in Hnd as [Hkv Hnd].
  apply elem_of_cons in Hin as [<-|Hin].
  - rewrite filter_cons_False by naive_solver.
    rewrite filter_all; [done |].
    apply Forall_forall. intros kv' Hkv' Heq. apply Hkv. simpl.
    rewrite <-Heq. by apply list_elem_of_fmap_2.
  - rewrite filter_cons_True.
    + simpl. rewrite (IH Hnd Hin). lia.
    + intros Heq. apply Hkv. rewrite Heq.
      by apply (list_elem_of_fmap_2 key) in Hin.
Qed.

Lemma total_filter_le (P : entry V → Prop) `{!∀ x, Decision (P x)} es :
  Forall (λ kv, 0 ≤ Len (value kv))%Z es → (total (filter P es) ≤ total es)%Z.
Proof.
  induction 1 as [|kv es Hkv _ IH]; [done |].
  pose proof (size_nonneg kv Hkv).
  destruct (decide (P kv)).
  - rewrite filter_cons_True by done. simpl. lia.
  - rewrite filter_cons_False by done. simpl. lia.
Qed.

Lemma cost_size k v :
  (0 ≤ Len v)%Z → (len k + Len v ≤ Int64.max_int)%Z →
  cost k v = size (Entry k v).
Proof.
  intros Hv Hle. pose proof (len_nonneg k). unfold cost, size. simpl.
  by unwrap.
Qed.

Lemma store_fields k v c :
  maxBytes (store k v c) = maxBytes c ∧ OnEvicted (store k v c) = OnEvicted c.
Proof. unfold store. by destruct (cache c !! k). Qed.

Lemma store_accounted k v c :
  wf c → accounted c → (0 ≤ Len v)%Z →
  (nbytes c + len k + Len v ≤ Int64.max_int)%Z →
  accounted (store k v c).
Proof.
  intros Hwf [Hn Hnn Hr] Hv Hfit.
  pose proof (len_nonneg k) as Hk0.
  pose proof (total_nonneg _ Hnn) as Ht0.
  assert (Forall (λ kv, 0 ≤ Len (value kv))%Z
            (Entry k v :: filter (λ kv, key kv ≠ k) (entries c))) as Hnn'.
  { constructor; [done |]. apply Forall_forall. intros kv Hkv.
    apply list_elem_of_filter in Hkv as [_ Hkv].
    by apply (proj1 (Forall_forall _ _) Hnn). }
  pose proof (total_filter_le (λ kv, key kv ≠ k) _ Hnn) as Hle.
  assert (0 ≤ total (filter (λ kv, key kv ≠ k) (entries c)))%Z as Htf0.
  { apply total_nonneg. by apply Forall_cons in Hnn' as [_ ?]. }
  split; rewrite store_entries by done; [| done |].
  - unfold store. destruct (cache c !! k) as [ele|] eqn:Hk; simpl.
    + destruct (wf_deref c k ele Hwf Hk) as (v0 & Hv0 & Hv0' & Hin).
      rewrite Hv0'. simpl.
      assert (Entry k v0 ∈ entries c) as Hin'.
      { apply elem_of_entries; eauto. }
      assert (0 ≤ Len v0)%Z as Hv0nn.
      { by apply (proj1 (Forall_forall _ _) Hnn _ Hin'). }
      rewrite (total_filter_key _ k v0 (wf_NoDup_keys c Hwf) Hin') in Hn, Hr, Ht0.
      unfold size in *. simpl in *. unwrap. range_solve.
    + rewrite cost_size by lia. unfold size. simpl.
      rewrite (filter_all _ _ (cache_None_entries c k Hwf Hk)).
      unwrap. range_solve.
  - simpl. unfold size at 1. simpl.
    destruct (cache c !! k) as [ele|] eqn:Hk.
    + destruct (wf_deref c k ele Hwf Hk) as (v0 & Hv0 & Hv0' & Hin).
      assert (Entry k v0 ∈ entries c) as Hin'.
      { apply elem_of_entries; eauto. }
      rewrite (total_filter_key _ k v0 (wf_NoDup_keys c Hwf) Hin') in Hn.
      unfold size in Hn. simpl in Hn.
      assert (0 ≤ Len v0)%Z as Hv0nn.
      { by apply (proj1 (Forall_forall _ _) Hnn _ Hin'). }
      lia.
    + lia.
Qed.

(** *** [RemoveOldest] *)

Lemma RemoveOldest_empty c w : ll c = [] → RemoveOldest c w = (c, w).
Proof. intros Hl. unfold RemoveOldest. by rewrite Hl. Qed.

Lemma RemoveOldest_fields c w :
  maxBytes (RemoveOldest c w).1 = maxBytes c ∧
  OnEvicted (RemoveOldest c w).1 = OnEvicted c.
Proof. unfold RemoveOldest. by destruct (Back (ll c)). Qed.

Lemma RemoveOldest_last c w l e :
  wf c → ll c = l ++ [e] →
  let kv := heap c !!! e in
  let c' := (RemoveOldest c w).1 in
  wf c' ∧ ll c' = l ∧ cache c' = delete (key kv) (cache c) ∧
  entries c = entries c' ++ [kv] ∧
  nbytes c' = Int64.sub (nbytes c) (cost (key kv) (value kv)) ∧
  (RemoveOldest c w).2 = notify (OnEvicted c) [kv] w.
Proof.
  intros Hwf Hl kv c'.
  pose proof (wf_nodup c Hwf) as Hnd. rewrite Hl in Hnd.
  apply NoDup_app in Hnd as (Hndl & Hdisj & _).
  assert (e ∉ l) as Hel.
  { intros He. apply (Hdisj e He). left. }
  assert (e ∈ ll c) as Hin by (rewrite Hl; set_solver).
  destruct (proj1 (wf_heap c Hwf e) Hin) as [[k0 v0] Hkv].
  assert (kv = Entry k0 v0) as Hkveq by (by apply lookup_total_correct).
  assert (cache c !! k0 = Some e) as Hk0 by (apply (wf_cache c Hwf); eauto).
  assert (RemoveOldest c w =
    ({| maxBytes := maxBytes c;
        nbytes := Int64.sub (nbytes c) (cost (key kv) (value kv));
        ll := l; heap := delete e (heap c);
        cache := delete (key kv) (cache c); OnEvicted := OnEvicted c |},
     notify (OnEvicted c) [kv] w)) as Heq.
  { unfold RemoveOldest, Back. rewrite Hl, last_snoc. fold kv.
    rewrite Remove_last by done. unfold notify. by destruct (OnEvicted c). }
  subst c'. rewrite Heq. simpl. split_and!; try done.
  - split; simpl.
    + done.
    + intros x. destruct (decide (x = e)) as [->|Hne].
      * rewrite lookup_delete_eq. split; [done | by intros [? ?]].
      * rewrite lookup_delete_ne by done. rewrite <-(wf_heap c Hwf x), Hl.
        set_solver.
    + intros k' x. rewrite Hkveq. simpl.
      destruct (decide (x = e)) as [->|Hne].
      * rewrite lookup_delete_eq. split; [|by intros [? ?]].
        destruct (decide (k' = k0)) as [->|Hkne].
        -- by rewrite lookup_delete_eq.
        -- rewrite lookup_delete_ne by done.
           intros [v' Hv']%(wf_cache c Hwf). congruence.
      * rewrite (lookup_delete_ne (heap c)) by done.
        destruct (decide (k' = k0)) as [->|Hkne].
        -- rewrite lookup_delete_eq. split; [done |].
           intros Hex. apply (wf_cache c Hwf) in Hex. congruence.
        -- rewrite lookup_delete_ne by done. apply (wf_cache c Hwf).
  - unfold entries. simpl. rewrite Hl, fmap_app. simpl. f_equal.
    apply list_fmap_ext. intros i x Hx. symmetry.
    apply lookup_total_delete_ne. intros <-.
    apply Hel. by eapply list_elem_of_lookup_2.
Qed.

Lemma accounted_tallied c : accounted c → tallied c.
Proof.
  intros [Hn Hnn Hr]. unfold tallied. rewrite Hn.
  pose proof (total_nonneg _ Hnn). symmetry. apply wrap_in_range. range_solve.
Qed.

(** Entries that are kept when others are dropped are accounted for
    without wrap-around if all of them were. *)
Lemma accounted_kept c c' gone :
  accounted c → tallied c' → entries c = entries c' ++ gone → accounted c'.
Proof.
  intros [Hn Hnn Hr] Ht Hes. rewrite Hes in Hnn, Hr.
  apply Forall_app in Hnn as [Hnn' Hgone]. rewrite total_app in Hr.
  pose proof (total_nonneg _ Hnn'). pose proof (total_nonneg _ Hgone).
  split; [| done | lia].
  rewrite Ht. apply wrap_in_range. range_solve.
Qed.

Lemma store_tallied k v c : wf c → tallied c → tallied (store k v c).
Proof.
  intros Hwf Ht. unfold tallied in *. rewrite store_entries by done.
  unfold store. destruct (cache c !! k) as [ele|] eqn:Hk; simpl.
  - destruct (wf_deref c k ele Hwf Hk) as (v0 & Hv0 & Hv0' & Hin).
    rewrite Hv0'. simpl.
    assert (Entry k v0 ∈ entries c) as Hin' by (apply elem_of_entries; eauto).
    rewrite (total_filter_key _ k v0 (wf_NoDup_keys c Hwf) Hin') in Ht.
    rewrite Ht. unfold size. simpl. wrap_eq.
  - rewrite (filter_all _ _ (cache_None_entries c k Hwf Hk)).
    rewrite Ht. unfold cost, size. simpl. wrap_eq.
Qed.

Lemma RemoveOldest_tallied c w l e :
  wf c → tallied c → ll c = l ++ [e] → tallied (RemoveOldest c w).1.
Proof.
  intros Hwf Ht Hl. unfold tallied in *.
  destruct (RemoveOldest_last c w l e Hwf Hl) as (_ & _ & _ & Hes & Hnb & _).
  rewrite Hnb, Ht, Hes, total_app. simpl. unfold cost, size. wrap_eq.
Qed.

(** *** The eviction loop *)

Lemma evict_S fuel c w :
  evict (S fuel) c w =
  if bool_decide (maxBytes c ≠ 0 ∧ maxBytes c < nbytes c)%Z
  then evict fuel (RemoveOldest c w).1 (RemoveOldest c w).2
  else Some (c, w).
Proof. simpl. by destruct (RemoveOldest c w). Qed.

Lemma evict_unbounded fuel c w : maxBytes c = 0%Z → evict fuel c w = Some (c, w).
Proof.
  intros H0. destruct fuel; simpl; rewrite bool_decide_eq_false_2; naive_solver.
Qed.

Lemma notify_nil (cb : option (string → V → W → W)) w : notify cb [] w = w.
Proof. by destruct cb. Qed.

Lemma notify_app cb es1 es2 w :
  notify cb (es1 ++ es2) w = notify cb es1 (notify cb es2 w).
Proof. unfold notify. destruct cb; [apply foldr_app | done]. Qed.

(** On a bounded store the loop exits, whatever the lengths that the values
    report.  It drops a suffix [gone] of the entries, oldest first, and
    stops at the first prefix whose sum, as the program computes it, is
    within the capacity. *)
Lemma evict_bounded n c w :
  length (ll c) = n → wf c → tallied c → (0 < maxBytes c)%Z →
  ∃ c' gone,
    evict (S n) c w = Some (c', notify (OnEvicted c) gone w) ∧
    wf c' ∧ tallied c' ∧
    maxBytes c' = maxBytes c ∧ OnEvicted c' = OnEvicted c ∧
    entries c = entries c' ++ gone ∧
    (nbytes c' ≤ maxBytes c)%Z ∧
    match gone with
    | [] => True
    | kv :: _ => (maxBytes c < Int64.wrap (total (entries c' ++ [kv])))%Z
    end.
Proof.
  revert c w. induction n as [|n IH]; intros c w Hlen Hwf Ht Hmax.
  - apply length_zero_iff_nil in Hlen.
    assert (nbytes c = 0%Z) as Hn0.
    { rewrite Ht. unfold entries. by rewrite Hlen. }
    exists c, []. simpl. rewrite bool_decide_eq_false_2 by lia.
    rewrite app_nil_r, notify_nil. split_and!; try done. lia.
  - rewrite evict_S. case_bool_decide as Hcond.
    + destruct (ll c) as [|x l0] eqn:Hl using rev_ind; [done |]. clear IHl0.
      rewrite length_app in Hlen. simpl in Hlen.
      destruct (RemoveOldest_last c w l0 x Hwf Hl)
        as (Hwf1 & Hl1 & _ & Hes & _ & Hw1).
      pose proof (RemoveOldest_tallied c w l0 x Hwf Ht Hl) as Ht1.
      destruct (RemoveOldest_fields c w) as [Hm1 Hcb1].
      destruct (RemoveOldest c w) as [c1 w1] eqn:HR.
      cbn [fst snd] in *.
      destruct (IH c1 w1) as (c' & gone & Hev & Hwf' & Ht' & Hm' & Hcb' & Hes' & Hle & Hmaxi);
        [rewrite Hl1; lia | done | done | lia |].
      exists c', (gone ++ [heap c !!! x]).
      rewrite Hev, Hcb1, Hw1, notify_app.
      split_and!; [done | done | done | congruence | congruence | | lia |].
      * by rewrite Hes, Hes', <-app_assoc.
      * destruct gone as [|kv gone]; simpl.
        -- rewrite app_nil_r in Hes'. rewrite <-Hes', <-Hes, <-Ht. lia.
        -- by rewrite <-Hm1.
    + exists c, []. rewrite app_nil_r, notify_nil. split_and!; try done. lia.
Qed.

(** *** [Add] on the entries *)

Lemma Add_bounded k v c w :
  wf c → tallied c → (0 < maxBytes c)%Z →
  ∃ c' gone,
    Add k v c w = Some (c', notify (OnEvicted c) gone w) ∧
    wf c' ∧ tallied c' ∧
    maxBytes c' = maxBytes c ∧ OnEvicted c' = OnEvicted c ∧
    Entry k v :: filter (λ kv, key kv ≠ k) (entries c) = entries c' ++ gone ∧
    (nbytes c' ≤ maxBytes c)%Z ∧
    match gone with
    | [] => True
    | kv :: _ => (maxBytes c < Int64.wrap (total (entries c' ++ [kv])))%Z
    end.
Proof.
  intros Hwf Ht Hmax. unfold Add.
  destruct (store_fields k v c) as [Hm Hcb].
  destruct (evict_bounded (length (ll (store k v c))) (store k v c) w)
    as (c' & gone & Hev & Hwf' & Ht' & Hm' & Hcb' & Hes & Hle & Hmaxi);
    [done | by apply store_wf | by apply store_tallied | lia |].
  exists c', gone. rewrite Hev, Hcb, <-Hm. rewrite store_entries in Hes by done.
  split_and!; try done; congruence.
Qed.

Lemma Add_unbounded k v c w :
  maxBytes c = 0%Z → Add k v c w = Some (store k v c, w).
Proof.
  intros H0. unfold Add. apply evict_unbounded.
  by rewrite (proj1 (store_fields k v c)).
Qed.

Lemma New_wf maxB cb : wf (New (W := W) (V := V) maxB cb).
Proof.
  split; simpl.
  - constructor.
  - intros e. rewrite lookup_empty. split; [by intros ?%elem_of_nil | by intros [? ?]].
  - intros k e. rewrite !lookup_empty. split; [done | by intros [? ?]].
Qed.

Lemma New_accounted maxB cb : accounted (New (W := W) (V := V) maxB cb).
Proof. split; simpl; [done | constructor | unfold total; simpl; range_solve]. Qed.

Lemma New_tallied maxB cb : tallied (New (W := W) (V := V) maxB cb).
Proof. apply accounted_tallied, New_accounted. Qed.

(** Without wrap-around before an [Add], and with room for the new entry
    in an [int64], there is none after it. *)
Lemma Add_accounted k v c w c' w' :
  wf c → accounted c → (0 ≤ Len v)%Z →
  (nbytes c + len k + Len v ≤ Int64.max_int)%Z →
  (0 ≤ maxBytes c)%Z →
  Add k v c w = Some (c', w') → accounted c'.
Proof.
  intros Hwf Hacc Hv Hfit Hmax HA.
  destruct (decide (maxBytes c = 0%Z)) as [H0|Hne].
  - rewrite Add_unbounded in HA by done. injection HA as <- _.
    by apply store_accounted.
  - destruct (Add_bounded k v c w Hwf (accounted_tallied c Hacc))
      as (c1 & gone & HA1 & _ & Ht1 & _ & _ & Hes & _); [lia |].
    rewrite HA1 in HA. injection HA as <- _.
    apply (accounted_kept (store k v c) c1 gone);
      [by apply store_accounted | done | by rewrite store_entries].
Qed.

(** An entry that fits a bounded store stays in it, in front. *)
Lemma Add_fits k v c w :
  wf c → tallied c → (0 < maxBytes c)%Z →
  Int64.in_range (len k + Len v) → (len k + Len v ≤ maxBytes c)%Z →
  ∃ c' gone kept,
    Add k v c w = Some (c', notify (OnEvicted c) gone w) ∧
    wf c' ∧ tallied c' ∧ maxBytes c' = maxBytes c ∧
    entries c' = Entry k v :: kept ∧
    filter (λ kv, key kv ≠ k) (entries c) = kept ++ gone.
Proof.
  intros Hwf Ht Hmax Hr Hle.
  destruct (Add_bounded k v c w Hwf Ht Hmax)
    as (c' & gone & HA & Hwf' & Ht' & Hm' & _ & Hes & _ & Hmaxi).
  destruct (entries c') as [|kv kept] eqn:Hc'.
  - simpl in Hes. subst gone. simpl in Hmaxi. unfold size in Hmaxi.
    simpl in Hmaxi. rewrite Z.add_0_r, wrap_in_range in Hmaxi by done. lia.
  - simpl in Hes. injection Hes as <- Hes.
    exists c', gone, kept. by rewrite Hc'.
Qed.

(** An entry larger than the capacity empties a store whose accounting has
    not wrapped around. *)
Lemma Add_oversize k v c w :
  wf c → accounted c → (0 < maxBytes c)%Z → (0 ≤ Len v)%Z →
  (nbytes c + len k + Len v ≤ Int64.max_int)%Z →
  (maxBytes c < len k + Len v)%Z →
  ∃ c',
    Add k v c w
    = Some (c', notify (OnEvicted c)
                  (Entry k v :: filter (λ kv, key kv ≠ k) (entries c)) w) ∧
    wf c' ∧ accounted c' ∧ maxBytes c' = maxBytes c ∧ entries c' = [].
Proof.
  intros Hwf Hacc Hmax Hv Hfit Hbig.
  destruct (Add_bounded k v c w Hwf (accounted_tallied c Hacc) Hmax)
    as (c' & gone & HA & Hwf' & Ht' & Hm' & _ & Hes & Hle & _).
  assert (accounted c') as Hacc'.
  { apply (Add_accounted k v c w c' (notify (OnEvicted c) gone w) Hwf Hacc Hv Hfit);
      [lia | done]. }
  destruct (entries c') as [|kv kept] eqn:Hc'.
  - simpl in Hes. subst gone. by exists c'.
  - simpl in Hes. injection Hes as <- Hes.
    destruct Hacc' as [Hn Hnn _]. rewrite Hc' in Hn, Hnn.
    apply Forall_cons in Hnn as [_ Hnn].
    pose proof (total_nonneg _ Hnn). simpl in Hn. unfold size in Hn at 1.
    simpl in Hn. lia.
Qed.

(** *** [Get] *)

Lemma held_elem_of es k v :
  NoDup (key <$> es) → held k es = Some v ↔ Entry k v ∈ es.
Proof.
  induction es as [|[k' v'] es IH]; intros Hnd; simpl.
  - split; [done | by intros ?%elem_of_nil].
  - rewrite fmap_cons in Hnd. apply NoDup_cons in Hnd as [Hk' Hnd].
    rewrite elem_of_cons. case_decide as Hk.
    + subst k'. split; [intros [= ->]; by left |].
      intros [[= ->]|Hin]; [done |]. exfalso. apply Hk'.
      by apply (list_elem_of_fmap_2 key) in Hin.
    + rewrite (IH Hnd). split; [by right |].
      intros [[= ? ?]|Hin]; [by subst | done].
Qed.

Lemma held_None es k : held k es = None ↔ Forall (λ kv, key kv ≠ k) es.
Proof.
  induction es as [|kv es IH]; simpl; [by split |].
  rewrite Forall_cons. case_decide; [split; [done | naive_solver] |].
  rewrite IH. naive_solver.
Qed.

Lemma cache_held c k :
  wf c → held k (entries c) = (λ e, value (heap c !!! e)) <$> cache c !! k.
Proof.
  intros Hwf. destruct (cache c !! k) as [e|] eqn:Hk; simpl.
  - destruct (wf_deref c k e Hwf Hk) as (v0 & Hv0 & Hv0' & Hin).
    rewrite Hv0'. simpl. apply held_elem_of; [by apply wf_NoDup_keys |].
    apply elem_of_entries; eauto.
  - apply held_None. by apply cache_None_entries.
Qed.

Lemma Get_value k c : wf c → (Get k c).1 = held k (entries c).
Proof.
  intros Hwf. rewrite (cache_held c k Hwf). unfold Get.
  by destruct (cache c !! k).
Qed.

Lemma Get_miss k c : (Get k c).1 = None → (Get k c).2 = c.
Proof. unfold Get. by destruct (cache c !! k). Qed.

Lemma Get_hit k v c :
  wf c → (Get k c).1 = Some v →
  let c' := (Get k c).2 in
  wf c' ∧ entries c' = Entry k v :: filter (λ kv, key kv ≠ k) (entries c) ∧
  nbytes c' = nbytes c ∧ maxBytes c' = maxBytes c ∧ cache c' = cache c ∧
  heap c' = heap c ∧ OnEvicted c' = OnEvicted c.
Proof.
  intros Hwf. unfold Get. destruct (cache c !! k) as [e|] eqn:Hk; [|done].
  simpl. intros [= <-].
  destruct (wf_deref c k e Hwf Hk) as (v0 & Hv0 & Hv0' & Hin).
  split_and!; try done.
  - split; simpl.
    + apply NoDup_MoveToFront, (wf_nodup c Hwf).
    + intros x. rewrite elem_of_MoveToFront. apply (wf_heap c Hwf).
    + apply (wf_cache c Hwf).
  - unfold entries at 1. simpl. unfold MoveToFront.
    rewrite decide_True by done. rewrite fmap_cons, Hv0'. simpl. f_equal.
    by apply (entries_move c k e).
Qed.

(** *** The fuel given to the loop by [Add] decides it *)

Lemma evict_more fuel c w r :
  evict fuel c w = Some r → evict (S fuel) c w = Some r.
Proof.
  revert c w. induction fuel as [|fuel IH]; intros c w.
  - simpl. case_bool_decide; [done |]. by destruct (RemoveOldest c w).
  - rewrite (evict_S (S fuel)), (evict_S fuel).
    case_bool_decide; [apply IH | done].
Qed.

Lemma evict_less fuel fuel' c w :
  fuel' ≤ fuel → evict fuel c w = None → evict fuel' c w = None.
Proof.
  induction 1 as [|fuel Hle IH]; [done |]. intros HN. apply IH.
  destruct (evict fuel c w) as [r|] eqn:Hr; [|done].
  apply evict_more in Hr. congruence.
Qed.

Lemma RemoveOldest_length c w :
  ll c ≠ [] → length (ll (RemoveOldest c w).1) < length (ll c).
Proof.
  intros Hne. unfold RemoveOldest, Back.
  destruct (ll c) as [|x l _] eqn:Hl using rev_ind; [done |].
  rewrite last_snoc. simpl. unfold Remove.
  apply (length_filter_lt _ _ x); [set_solver | naive_solver].
Qed.

(** When [Add]'s loop runs out of its fuel, no amount of fuel lets it exit. *)
Lemma evict_None_forever c w :
  evict (S (length (ll c))) c w = None → ∀ fuel, evict fuel c w = None.
Proof.
  remember (length (ll c)) as n eqn:Hn. revert c w Hn.
  induction n as [n IH] using lt_wf_ind. intros c w Hn HN.
  rewrite evict_S in HN. case_bool_decide as Hcond; [|done].
  destruct (decide (ll c = [])) as [Hnil|Hne].
  - intros fuel. induction fuel as [|fuel IHf].
    + simpl. by rewrite bool_decide_eq_true_2.
    + rewrite evict_S, bool_decide_eq_true_2 by done.
      by rewrite (RemoveOldest_empty c w Hnil).
  - pose proof (RemoveOldest_length c w Hne) as Hlt.
    intros [|fuel].
    + simpl. by rewrite bool_decide_eq_true_2.
    + rewrite evict_S, bool_decide_eq_true_2 by done.
      apply (IH (length (ll (RemoveOldest c w).1))); [lia | done |].
      apply (evict_less n); [lia | done].
Qed.

(** *** Sequences of [Add] on a bounded store *)

Lemma Adds_bounded (maxB : Z) (ops : list (string * V)) c w :
  wf c → tallied c → maxBytes c = maxB → (0 < maxB)%Z → (nbytes c ≤ maxB)%Z →
  ∃ c' w', Adds ops c w = Some (c', w') ∧ wf c' ∧ tallied c' ∧
           maxBytes c' = maxB ∧ (nbytes c' ≤ maxB)%Z.
Proof.
  revert c w. induction ops as [|[k v] ops IH]; intros c w Hwf Ht Hm Hmax Hle.
  - exists c, w. by simpl.
  - destruct (Add_bounded k v c w Hwf Ht)
      as (c1 & gone & HA & Hwf1 & Ht1 & Hm1 & _ & _ & Hle1 & _); [lia |].
    simpl. rewrite HA.
    destruct (IH c1 (notify (OnEvicted c) gone w))
      as (c' & w' & HAs & Hwf' & Ht' & Hm' & Hle'); [done | done | lia | lia | lia |].
    by exists c', w'.
Qed.

Lemma Adds_accounted (maxB : Z) (ops : list (string * V)) c w c' w' :
  wf c → accounted c → maxBytes c = maxB → (0 < maxB)%Z → (nbytes c ≤ maxB)%Z →
  Forall (λ op, 0 ≤ Len op.2 ∧ maxB + len op.1 + Len op.2 ≤ Int64.max_int)%Z ops →
  Adds ops c w = Some (c', w') → accounted c'.
Proof.
  intros Hwf Hacc Hm Hmax Hle Hops. revert c w Hwf Hacc Hm Hle.
  induction Hops as [|[k v] ops [Hv Hfit] _ IH]; intros c w Hwf Hacc Hm Hle; simpl.
  - by intros [= <- _].
  - simpl in Hv, Hfit.
    destruct (Add_bounded k v c w Hwf (accounted_tallied c Hacc))
      as (c1 & gone & HA & Hwf1 & _ & Hm1 & _ & _ & Hle1 & _); [lia |].
    rewrite HA. apply IH; [done | | lia | lia].
    apply (Add_accounted k v c w c1 (notify (OnEvicted c) gone w) Hwf Hacc Hv);
      [lia | lia | done].
Qed.

(** C1, as amended. On a store created with capacity [maxB > 0], every
    [Add] of a sequence returns, and after each of them (and before the
    first) the byte counter is at most [maxB] and is the sum of
    [len(key) + value.Len()] over the entries held as [int64] arithmetic
    computes it, whatever the values.  It is the exact sum when the values
    added report lengths that are not negative and the capacity and any
    one entry added together fit an [int64]. *)
Theorem add_sequence_within_capacity
    (maxB : Z) (cb : option (string → V → W → W)) (ops : list (string * V)) (w : W) :
  (0 < maxB)%Z →
  ∀ n, ∃ c' w',
    Adds (take n ops) (New maxB cb) w = Some (c', w') ∧
    (nbytes c' ≤ maxB)%Z ∧
    nbytes c' = Int64.wrap (total (entries c')) ∧
    (Forall (λ op, 0 ≤ Len op.2 ∧ maxB + len op.1 + Len op.2 ≤ Int64.max_int)%Z ops →
     nbytes c' = total (entries c')).
Proof.
  intros Hmax n.
  destruct (Adds_bounded maxB (take n ops) (New maxB cb) w)
    as (c' & w' & HA & _ & Ht & _ & Hle);
    [apply New_wf | apply New_tallied | done | done | simpl; lia |].
  exists c', w'. split_and!; [done | done | done |].
  intros Hops. apply acc_nbytes.
  apply (Adds_accounted maxB (take n ops) (New maxB cb) w c' w');
    [apply New_wf | apply New_accounted | done | done | simpl; lia
    | by apply Forall_take | done].
Qed.

(** *** The structural invariant is kept by every operation *)

Lemma RemoveOldest_wf c w : wf c → wf (RemoveOldest c w).1.
Proof.
  intros Hwf. destruct (ll c) as [|e l _] eqn:Hl using rev_ind.
  - by rewrite RemoveOldest_empty.
  - by destruct (RemoveOldest_last c w l e Hwf Hl) as [? _].
Qed.

Lemma evict_wf fuel c w c' w' : wf c → evict fuel c w = Some (c', w') → wf c'.
Proof.
  revert c w. induction fuel as [|fuel IH]; intros c w Hwf.
  - simpl. case_bool_decide; [done |]. by intros [= <- <-].
  - rewrite evict_S. case_bool_decide; [|by intros [= <- <-]].
    apply IH. by apply RemoveOldest_wf.
Qed.

Lemma Add_wf k v c w c' w' : wf c → Add k v c w = Some (c', w') → wf c'.
Proof. intros Hwf. unfold Add. apply evict_wf. by apply store_wf. Qed.

Lemma Adds_wf (ops : list (string * V)) c w c' w' :
  wf c → Adds ops c w = Some (c', w') → wf c'.
Proof.
  revert c w. induction ops as [|[k v] ops IH]; intros c w Hwf; simpl.
  - by intros [= <- <-].
  - destruct (Add k v c w) as [[c1 w1]|] eqn:HA; [|done].
    apply IH. by eapply Add_wf.
Qed.

Lemma evict_fields fuel c w c' w' :
  evict fuel c w = Some (c', w') →
  maxBytes c' = maxBytes c ∧ OnEvicted c' = OnEvicted c.
Proof.
  revert c w. induction fuel as [|fuel IH]; intros c w.
  - simpl. case_bool_decide; [done |]. by intros [= <- _].
  - rewrite evict_S. case_bool_decide; [|by intros [= <- _]].
    intros [-> ->]%IH. apply RemoveOldest_fields.
Qed.

Lemma Add_fields k v c w c' w' :
  Add k v c w = Some (c', w') →
  maxBytes c' = maxBytes c ∧ OnEvicted c' = OnEvicted c.
Proof.
  unfold Add. intros [-> ->]%evict_fields. apply store_fields.
Qed.

Lemma evict_tallied fuel c w c' w' :
  wf c → tallied c → evict fuel c w = Some (c', w') → tallied c'.
Proof.
  revert c w. induction fuel as [|fuel IH]; intros c w Hwf Ht.
  - simpl. case_bool_decide; [done |]. by intros [= <- <-].
  - rewrite evict_S. case_bool_decide; [|by intros [= <- <-]].
    apply IH; [by apply RemoveOldest_wf |].
    destruct (ll c) as [|e l _] eqn:Hl using rev_ind.
    + by rewrite RemoveOldest_empty.
    + by apply (RemoveOldest_tallied c w l e).
Qed.

Lemma Add_tallied k v c w c' w' :
  wf c → tallied c → Add k v c w = Some (c', w') → tallied c'.
Proof.
  intros Hwf Ht. unfold Add. apply evict_tallied; [by apply store_wf |].
  by apply store_tallied.
Qed.

Lemma Get_wf_tallied k c :
  wf c → tallied c → wf (Get k c).2 ∧ tallied (Get k c).2 ∧
  maxBytes (Get k c).2 = maxBytes c.
Proof.
  intros Hwf Ht. destruct (Get k c).1 as [v|] eqn:HG.
  - destruct (Get_hit k v c Hwf HG) as (Hwf' & Hes & Hn & Hm & _).
    split_and!; [done | | done]. unfold tallied in *. rewrite Hn, Ht, Hes.
    f_equal. apply total_filter_key; [by apply wf_NoDup_keys |].
    apply held_elem_of; [by apply wf_NoDup_keys |]. by rewrite <-Get_value.
  - by rewrite (Get_miss k c HG).
Qed.

(** *** Recency *)

(** An [Add] on a store without bound, or of an entry that fits a bounded
    store, leaves the entry in front. *)
Lemma Add_front k v c w :
  wf c → tallied c →
  maxBytes c = 0%Z ∨
  ((0 < maxBytes c)%Z ∧ Int64.in_range (len k + Len v) ∧
   (len k + Len v ≤ maxBytes c)%Z) →
  ∃ c' w' kept gone,
    Add k v c w = Some (c', w') ∧ wf c' ∧ tallied c' ∧
    maxBytes c' = maxBytes c ∧
    entries c' = Entry k v :: kept ∧
    filter (λ kv, key kv ≠ k) (entries c) = kept ++ gone.
Proof.
  intros Hwf Ht [H0|(Hmax & Hr & Hle)].
  - exists (store k v c), w, (filter (λ kv, key kv ≠ k) (entries c)), [].
    rewrite Add_unbounded, store_entries, app_nil_r by done.
    split_and!; [done | by apply store_wf | by apply store_tallied
                | apply store_fields | done | done].
  - destruct (Add_fits k v c w Hwf Ht Hmax Hr Hle)
      as (c' & gone & kept & HA & ? & ? & ? & Hes & Hk).
    by exists c', (notify (OnEvicted c) gone w), kept, gone.
Qed.


(** *** A store without bound *)

Lemma held_store k k' v c :
  wf c → held k' (entries (store k v c))
         = if decide (k = k') then Some v else held k' (entries c).
Proof.
  intros Hwf. rewrite store_entries by done. simpl. case_decide; [done |].
  induction (entries c) as [|kv es IH]; [done |].
  destruct (decide (key kv = k)) as [Hk|Hk].
  - rewrite filter_cons_False by naive_solver. simpl.
    rewrite decide_False by congruence. done.
  - rewrite filter_cons_True by done. simpl. by rewrite IH.
Qed.

Lemma Adds_unbounded (ops : list (string * V)) c w :
  wf c → maxBytes c = 0%Z →
  ∃ c', Adds ops c w = Some (c', w) ∧ wf c' ∧ maxBytes c' = 0%Z ∧
        ∀ k, held k (entries c')
             = match last_value k ops with
               | Some v => Some v
               | None => held k (entries c)
               end.
Proof.
  revert c. induction ops as [|[k0 v0] ops IH]; intros c Hwf H0.
  - by exists c.
  - simpl. rewrite Add_unbounded by done.
    destruct (IH (store k0 v0 c)) as (c' & HA & Hwf' & H0' & Hheld).
    { by apply store_wf. }
    { by rewrite (proj1 (store_fields k0 v0 c)). }
    exists c'. do 3 (split; [done |]).
    intros k. rewrite Hheld. destruct (last_value k ops); [done |].
    rewrite held_store by done. by case_decide.
Qed.

Lemma last_value_elem_of (ops : list (string * V)) k v :
  (k, v) ∈ ops → is_Some (last_value k ops).
Proof.
  induction ops as [|[k0 v0] ops IH]; [by intros ?%elem_of_nil |].
  intros [[= <- <-]|Hin]%elem_of_cons; simpl.
  - destruct (last_value k ops); [by eexists |].
    rewrite decide_True by done. by eexists.
  - destruct (IH Hin) as [v' ->]. by eexists.
Qed.

(** C9. On a store created with capacity zero, every sequence of [Add]
    calls returns without one eviction: the callback state is unchanged,
    the store holds one entry for each key added, and [Get] of any key
    returns the value most recently added under it; so every added key
    is retrievable. *)
Theorem zero_capacity_never_evicts
    (cb : option (string → V → W → W)) (ops : list (string * V)) (w : W) :
  ∃ c',
    Adds ops (New 0 cb) w = Some (c', w) ∧
    (∀ k, (Get k c').1 = last_value k ops) ∧
    (∀ k v, (k, v) ∈ ops → is_Some (Get k c').1) ∧
    (∀ k, is_Some (last_value k ops) ↔ k ∈ key <$> entries c') ∧
    NoDup (key <$> entries c').
Proof.
  destruct (Adds_unbounded ops (New 0 cb) w (New_wf 0 cb) eq_refl)
    as (c' & HA & Hwf' & _ & Hheld).
  assert (∀ k, (Get k c').1 = last_value k ops) as HG.
  { intros k. rewrite Get_value, Hheld by done. by destruct (last_value k ops). }
  exists c'. split_and!; [done | done | | | by apply wf_NoDup_keys].
  - intros k v Hin. rewrite HG. by eapply last_value_elem_of.
  - intros k. rewrite <-HG, Get_value by done. split.
    + intros [v Hv]. apply held_elem_of in Hv; [|by apply wf_NoDup_keys].
      by apply (list_elem_of_fmap_2 key) in Hv.
    + intros ([k' v] & -> & Hin)%list_elem_of_fmap. exists v.
      by apply held_elem_of; [apply wf_NoDup_keys |].
Qed.

(** C10, as amended. Take a bounded store whose list and index agree and
    whose accounting is exact: the values held report lengths that are not
    negative and the byte counter is the exact sum over the entries.  An
    [Add] of an entry larger than the capacity, whose value reports a
    length that is not negative and which the counter has room for in an
    [int64], returns; the loop has then removed every entry, the new one
    last: the store is empty, [Get] misses the key, the byte counter is
    zero, and the callback, when there is one, has been called for every
    entry, oldest first, ending with the key and value just added. *)
Theorem oversize_add_empties_store k v c w :
  wf c → accounted c → (0 < maxBytes c)%Z → (0 ≤ Len v)%Z →
  (nbytes c + len k + Len v ≤ Int64.max_int)%Z →
  (maxBytes c < len k + Len v)%Z →
  ∃ c' w',
    Add k v c w = Some (c', w') ∧
    entries c' = [] ∧ cache c' !! k = None ∧ (Get k c').1 = None ∧
    nbytes c' = 0%Z ∧
    w' = notify (OnEvicted c) (Entry k v :: filter (λ kv, key kv ≠ k) (entries c)) w ∧
    (∀ f, OnEvicted c = Some f →
          w' = f k v (notify (Some f) (filter (λ kv, key kv ≠ k) (entries c)) w)).
Proof.
  intros Hwf Hacc Hmax Hv Hfit Hbig.
  destruct (Add_oversize k v c w Hwf Hacc Hmax Hv Hfit Hbig)
    as (c' & HA & Hwf' & Hacc' & _ & Hes).
  exists c', (notify (OnEvicted c)
                (Entry k v :: filter (λ kv, key kv ≠ k) (entries c)) w).
  assert (held k (entries c') = None) as Hheld by (by rewrite Hes).
  split_and!; try done.
  - rewrite (cache_held c' k Hwf') in Hheld.
    by destruct (cache c' !! k).
  - by rewrite Get_value.
  - rewrite (acc_nbytes c' Hacc'), Hes. done.
  - by intros f ->.
Qed.

End facts.
End lru_facts.

(** ** The consistent-hash ring *)

Module ring_facts.
Import consistenthash.

(** *** Binary search *)

Lemma Search_loop_spec (f : Z → bool) (n : Z) (fuel : nat) (i j : Z) :
  (0 ≤ i ≤ j)%Z → (j ≤ n)%Z → (j - i ≤ Z.of_nat fuel)%Z →
  (∀ x y, (0 ≤ x ≤ y)%Z → (y < n)%Z → f x = true → f y = true) →
  (∀ x, (0 ≤ x < i)%Z → f x = false) →
  ((j < n)%Z → f j = true) →
  let r := Search_loop fuel f i j in
  (i ≤ r ≤ j)%Z ∧ (∀ x, (0 ≤ x < r)%Z → f x = false) ∧ ((r < n)%Z → f r = true).
Proof.
  intros Hij Hjn Hfuel Hmono. revert i j Hij Hjn Hfuel.
  induction fuel as [|fuel IH]; intros i j Hij Hjn Hfuel Hlow Hhigh; simpl.
  - assert (i = j) as -> by lia. split_and!; [lia | lia | done | done].
  - case_bool_decide as Hlt.
    + rewrite Z.shiftr_div_pow2 by lia. change (2 ^ 1)%Z with 2%Z.
      set (h := ((i + j) `div` 2)%Z).
      assert (i ≤ h < j)%Z as Hh by (subst h; split;
        [apply Z.div_le_lower_bound | apply Z.div_lt_upper_bound]; lia).
      clearbody h.
      destruct (f h) eqn:Hfh; simpl.
      * destruct (IH i h) as (Hr & Hl & Hu); [lia | lia | lia | done | done |].
        split_and!; [lia | lia | done | done].
      * destruct (IH (h + 1)%Z j) as (Hr & Hl & Hu); [lia | lia | lia | | done |].
        { intros x Hx. destruct (f x) eqn:Hfx; [|done].
          rewrite <-Hfh. symmetry. apply (Hmono x h); [lia | lia | done]. }
        split_and!; [lia | lia | done | done].
    + assert (i = j) as -> by lia. split_and!; [lia | lia | done | done].
Qed.

Lemma first_geq_spec (h : Z) (l : list Z) :
  first_geq h l ≤ length l ∧
  (∀ j x, j < first_geq h l → l !! j = Some x → (x < h)%Z) ∧
  (∀ x, l !! first_geq h l = Some x → (h ≤ x)%Z).
Proof.
  induction l as [|a l (IH1 & IH2 & IH3)]; simpl.
  - split_and!; [lia | intros; lia | done].
  - case_bool_decide as Ha.
    + split_and!; [lia | intros; lia | by intros x [= <-]].
    + split_and!; [lia | | done].
      intros [|j] x Hj; simpl; [intros [= <-]; lia |].
      apply IH2. lia.
Qed.

Lemma first_geq_lt_iff (h : Z) (l : list Z) :
  first_geq h l < length l ↔ ∃ x, x ∈ l ∧ (h ≤ x)%Z.
Proof.
  destruct (first_geq_spec h l) as (Hle & Hlow & Hhigh). split.
  - intros Hlt. destruct (lookup_lt_is_Some_2 l _ Hlt) as [x Hx].
    exists x. split; [by eapply list_elem_of_lookup_2 | by apply Hhigh].
  - intros (x & [j Hj]%list_elem_of_lookup_1 & Hx).
    destruct (decide (first_geq h l < length l)) as [|Hge]; [done |].
    pose proof (lookup_lt_Some _ _ _ Hj).
    assert (x < h)%Z by (apply (Hlow j); [lia | done]). lia.
Qed.

Lemma StronglySorted_lookup_le (l : list Z) i j a b :
  StronglySorted Z.le l → l !! i = Some a → l !! j = Some b → i ≤ j → (a ≤ b)%Z.
Proof.
  intros Hs. revert i j. induction Hs as [|x l Hs IH Hx]; intros i j Hi Hj Hij.
  - done.
  - destruct i as [|i], j as [|j]; simpl in *; simplify_eq; try lia.
    + apply (proj1 (Forall_forall _ _) Hx). by eapply list_elem_of_lookup_2.
    + apply (IH i j); [done | done | lia].
Qed.

(** On an ascending list the binary search returns the first position whose
    value is at least [h], the length when there is none. *)
Lemma Search_first_geq (h : Z) (l : list Z) :
  StronglySorted Z.le l →
  Search (Z.of_nat (length l)) (λ i, bool_decide (h ≤ l !!! Z.to_nat i)%Z)
  = Z.of_nat (first_geq h l).
Proof.
  intros Hs. set (f := λ i : Z, bool_decide (h ≤ l !!! Z.to_nat i)%Z).
  set (n := Z.of_nat (length l)).
  pose proof (Search_loop_spec f n (Z.to_nat n) 0 n) as Hspec. cbv zeta in Hspec.
  change (Search_loop (Z.to_nat n) f 0 n) with (Search n f) in Hspec.
  set (r := Search n f) in *.
  destruct Hspec as (Hr & Hlow & Hhigh);
    [lia | lia | lia | | intros; lia | lia |].
  { intros x y Hxy Hy. unfold f. rewrite !bool_decide_eq_true. intros Hx.
    destruct (lookup_lt_is_Some_2 l (Z.to_nat x)) as [a Ha]; [lia |].
    destruct (lookup_lt_is_Some_2 l (Z.to_nat y)) as [b Hb]; [lia |].
    rewrite (list_lookup_total_correct _ _ _ Ha) in Hx.
    rewrite (list_lookup_total_correct _ _ _ Hb).
    pose proof (StronglySorted_lookup_le l _ _ a b Hs Ha Hb). lia. }
  destruct (first_geq_spec h l) as (Hle & Hlow' & Hhigh'). fold n in Hle.
  destruct (Z.lt_trichotomy r (Z.of_nat (first_geq h l))) as [Hlt|[Heq|Hgt]]; [|done|].
  - exfalso. destruct (lookup_lt_is_Some_2 l (Z.to_nat r)) as [a Ha]; [lia |].
    assert (a < h)%Z by (apply (Hlow' (Z.to_nat r)); [lia | done]).
    assert (f r = true) as Hfr by (apply Hhigh; lia).
    unfold f in Hfr. rewrite bool_decide_eq_true in Hfr.
    rewrite (list_lookup_total_correct _ _ _ Ha) in Hfr. lia.
  - exfalso.
    destruct (lookup_lt_is_Some_2 l (first_geq h l)) as [a Ha]; [lia |].
    assert (h ≤ a)%Z by (by apply Hhigh').
    assert (f (Z.of_nat (first_geq h l)) = false) as Hf by (apply Hlow; lia).
    unfold f in Hf. rewrite bool_decide_eq_false, Nat2Z.id in Hf.
    rewrite (list_lookup_total_correct _ _ _ Ha) in Hf. lia.
Qed.

(** *** Building a ring *)

Lemma add_replicas_spec key (ns : list nat) (m : Map) :
  foldl (add_replica key) m ns
  = {| hash := hash m; replicas := replicas m;
       keys := keys m ++ ((λ i, uint32 (hash m (Itoa i +:+ key))) <$> ns);
       hashMap := record_all (hashMap m)
                    ((λ i, (uint32 (hash m (Itoa i +:+ key)), key)) <$> ns) |}.
Proof.
  revert m. induction ns as [|i ns IH]; intros m; simpl.
  - rewrite app_nil_r. by destruct m.
  - rewrite IH. simpl. by rewrite <-app_assoc.
Qed.

Lemma add_all_spec (peers : list string) (m : Map) :
  add_all peers m
  = {| hash := hash m; replicas := replicas m;
       keys := keys m ++ (vnodes (hash m) (replicas m) peers).*1;
       hashMap := record_all (hashMap m) (vnodes (hash m) (replicas m) peers) |}.
Proof.
  unfold add_all. revert m. induction peers as [|key peers IH]; intros m; simpl.
  - rewrite app_nil_r. by destruct m.
  - rewrite IH, add_replicas_spec. simpl. unfold vnodes.
    rewrite fmap_app, app_assoc. unfold record_all. rewrite foldl_app.
    by rewrite <-list_fmap_compose.
Qed.

Lemma vnodes_app hash replicas ps1 ps2 :
  vnodes hash replicas (ps1 ++ ps2)
  = vnodes hash replicas ps1 ++ vnodes hash replicas ps2.
Proof. unfold vnodes. apply bind_app. Qed.

Lemma vnodes_peer hash replicas peers x p :
  (x, p) ∈ vnodes hash replicas peers → p ∈ peers.
Proof.
  unfold vnodes. rewrite list_elem_of_bind. intros (key & Hin & Hkey).
  apply list_elem_of_fmap in Hin as (i & [= -> ->] & _). done.
Qed.

Lemma Ints_sorted l : StronglySorted Z.le (Ints l).
Proof. apply (StronglySorted_merge_sort Z.le). Qed.

Lemma Ints_perm l : Ints l ≡ₚ l.
Proof. apply merge_sort_Permutation. Qed.

Lemma sorted_perm_unique (l1 l2 : list Z) :
  StronglySorted Z.le l1 → StronglySorted Z.le l2 → l1 ≡ₚ l2 → l1 = l2.
Proof. apply (StronglySorted_unique Z.le). Qed.

(** A ring however built holds, in ascending order, the hashes of the
    virtual nodes of all its peers, and records an owner for each. *)
Lemma build_spec replicas fn (adds : list (list string)) :
  let m := build replicas fn adds in
  let h := default ChecksumIEEE fn in
  hash m = h ∧ consistenthash.replicas m = replicas ∧
  StronglySorted Z.le (keys m) ∧
  keys m ≡ₚ (vnodes h replicas (concat adds)).*1 ∧
  hashMap m = record_all ∅ (vnodes h replicas (concat adds)).
Proof.
  induction adds as [|ps adds IH] using rev_ind; simpl.
  - split_and!; [done | done | constructor | done | done].
  - unfold build in *. rewrite foldl_app. simpl.
    set (m := foldl (λ m peers, Add peers m) (New replicas fn) adds) in *.
    destruct IH as (Hh & Hr & Hs & Hp & Hm). simpl in *.
    unfold Add. rewrite add_all_spec. simpl. rewrite Hh, Hr.
    rewrite concat_app, vnodes_app. simpl. rewrite app_nil_r.
    split_and!; [done | done | apply Ints_sorted | |].
    + rewrite Ints_perm, fmap_app. by rewrite Hp.
    + rewrite Hm. unfold record_all. by rewrite foldl_app.
Qed.

Lemma record_all_lookup (vs : list (Z * string)) (hm : gmap Z string) x :
  x ∈ vs.*1 → ∃ p, record_all hm vs !! x = Some p ∧ (x, p) ∈ vs.
Proof.
  revert hm. induction vs as [|[y q] vs IH] using rev_ind; intros hm.
  - by intros ?%elem_of_nil.
  - unfold record_all. rewrite foldl_app, fmap_app. simpl.
    destruct (decide (x = y)) as [->|Hne].
    + intros _. exists q. rewrite lookup_insert_eq. split; [done | set_solver].
    + rewrite lookup_insert_ne by done. intros Hin.
      apply elem_of_app in Hin as [Hin|Hin]; [|set_solver].
      destruct (IH hm Hin) as (p & Hp & Hxp). exists p. split; [done | set_solver].
Qed.

(** C3. On a ring built by [New] and any [Add] calls the virtual-node
    hashes are in ascending order, and [Get] finds by binary search the
    first of them that is at least the hash of the key.  On a ring that is
    not empty it returns the peer recorded as owner of that virtual node,
    or, when the hash of the key exceeds every virtual-node hash, of the
    virtual node of smallest hash; the owner is one of the registered peers.
    With no virtual node, and so with no peer registered, it returns the
    empty string. *)
Theorem ring_get_first_at_or_after replicas fn (adds : list (list string)) (key : string) :
  let m := build replicas fn adds in
  let h := uint32 (hash m key) in
  let n := length (keys m) in
  let idx := first_geq h (keys m) in
  StronglySorted Z.le (keys m) ∧
  Search (Z.of_nat n) (λ i, bool_decide (h ≤ key_at m i)%Z) = Z.of_nat idx ∧
  (∀ j x, j < idx → keys m !! j = Some x → (x < h)%Z) ∧
  (∀ x, keys m !! idx = Some x → (h ≤ x)%Z) ∧
  (idx = n ↔ ∀ x, x ∈ keys m → (x < h)%Z) ∧
  (0 < n →
     ∃ vnode peer,
       keys m !! wrap_index n idx = Some vnode ∧
       (∀ x, x ∈ keys m → (keys m !!! 0%nat ≤ x)%Z) ∧
       hashMap m !! vnode = Some peer ∧
       (vnode, peer) ∈ vnodes (hash m) replicas (concat adds) ∧
       peer ∈ concat adds ∧
       Get key m = peer) ∧
  (n = 0 → Get key m = "") ∧
  (concat adds = [] → Get key m = "").
Proof.
  intros m h n idx.
  destruct (build_spec replicas fn adds) as (Hh & Hr & Hs & Hp & Hm).
  fold m in Hh, Hr, Hs, Hp, Hm. cbv zeta in Hh, Hp, Hm.
  destruct (first_geq_spec h (keys m)) as (Hle & Hlow & Hhigh).
  fold idx in Hle, Hlow, Hhigh. fold n in Hle.
  assert (Search (Z.of_nat n) (λ i, bool_decide (h ≤ key_at m i)%Z) = Z.of_nat idx)
    as HS by (by apply Search_first_geq).
  assert (n = 0 → Get key m = "") as Hempty.
  { intros Hn. unfold Get. by rewrite decide_True. }
  split_and!; [done | done | done | done | | | done |].
  - pose proof (first_geq_lt_iff h (keys m)) as Hiff.
    fold idx n in Hiff. split.
    + intros Hidx x Hx. destruct (decide (x < h)%Z) as [|Hge]; [done |].
      assert (idx < n) by (apply Hiff; exists x; split; [done | lia]). lia.
    + intros Hall. destruct (decide (idx = n)) as [|Hne]; [done |].
      destruct (proj1 Hiff) as (x & Hx & Hhx); [lia |].
      specialize (Hall x Hx). lia.
  - intros Hn.
    assert (wrap_index n idx < n) as Hw.
    { unfold wrap_index. case_decide; lia. }
    destruct (lookup_lt_is_Some_2 (keys m) _ Hw) as [vnode Hv].
    assert (vnode ∈ (vnodes (hash m) replicas (concat adds)).*1) as Hin.
    { rewrite Hh, <-Hp. by eapply list_elem_of_lookup_2. }
    destruct (record_all_lookup _ ∅ vnode Hin) as (peer & Hpeer & Hvp).
    rewrite Hh, <-Hm in Hpeer.
    exists vnode, peer. split_and!; [done | | done | done | by eapply vnodes_peer |].
    + intros x [j Hj]%list_elem_of_lookup_1.
      destruct (lookup_lt_is_Some_2 (keys m) 0 Hn) as [a Ha].
      rewrite (list_lookup_total_correct _ _ _ Ha).
      apply (StronglySorted_lookup_le (keys m) 0 j); [done | done | done | lia].
    + unfold Get. rewrite decide_False by (fold n; lia).
      fold n h. rewrite HS.
      assert (Z.to_nat (Z.of_nat idx `mod` Z.of_nat n) = wrap_index n idx) as Hmod.
      { unfold wrap_index. case_decide.
        - rewrite Z.mod_small by lia. lia.
        - assert (idx = n) as -> by lia. rewrite Z.mod_same by lia. done. }
      unfold key_at. rewrite Hmod.
      rewrite (list_lookup_total_correct _ _ _ Hv), Hpeer. done.
  - intros Hc. apply Hempty. rewrite Hc in Hp. simpl in Hp.
    apply Permutation_nil_r in Hp. unfold n. by rewrite Hp.
Qed.

(** C8. With the same replica count and hash function, rings that were
    given the same peers in the same order, in whatever batches, are the
    same ring, and [Get], which reads the ring and never writes it, returns
    the same peer for every key. *)
Theorem ring_get_deterministic replicas fn (adds1 adds2 : list (list string)) :
  concat adds1 = concat adds2 →
  build replicas fn adds1 = build replicas fn adds2 ∧
  ∀ key, Get key (build replicas fn adds1) = Get key (build replicas fn adds2).
Proof.
  intros Hc.
  assert (build replicas fn adds1 = build replicas fn adds2) as Heq.
  { destruct (build_spec replicas fn adds1) as (Hh1 & Hr1 & Hs1 & Hp1 & Hm1).
    destruct (build_spec replicas fn adds2) as (Hh2 & Hr2 & Hs2 & Hp2 & Hm2).
    cbv zeta in *. rewrite Hc in Hp1, Hm1.
    assert (keys (build replicas fn adds1) = keys (build replicas fn adds2)) as Hk.
    { apply sorted_perm_unique; [done | done |]. by rewrite Hp1, Hp2. }
    destruct (build replicas fn adds1), (build replicas fn adds2).
    simpl in *. congruence. }
  split; [done |]. intros key. by rewrite Heq.
Qed.

End ring_facts.

(** ** Cache groups *)

Module group_facts.
Import geecache.

Lemma cloneBytes_id (bs : list byte) : cloneBytes bs = bs.
Proof. induction bs as [|x bs IH]; simpl; [done | by rewrite IH]. Qed.

Lemma get_miss key (c : cache) : (get key c).1 = None → (get key c).2 = c.
Proof.
  unfold get. destruct c as [[l|] cb]; simpl; [|done].
  destruct (lru.Get key l) as [[v|] l'] eqn:HG; simpl; [done |]. intros _.
  pose proof (lru_facts.Get_miss key l) as Hm. rewrite HG in Hm. simpl in Hm.
  by rewrite Hm.
Qed.

(** The invariant of the cache wrapper holds for a new group and is kept
    by [add], [get] and [Get]. *)
Lemma add_ok key (value : ByteView) (c c' : cache) :
  cache_ok c → add key value c = Returns c' → cache_ok c'.
Proof.
  unfold cache_ok, add. intros Hok.
  set (l := match lru c with
            | Some l => l
            | None => lru.New (cacheBytes c) None
            end).
  assert (lru.wf l ∧ lru.maxBytes l = cacheBytes c ∧ lru.tallied l)
    as (Hwf & Hm & Ht).
  { subst l. destruct (lru c) as [l|]; [done |].
    split_and!; [apply lru_facts.New_wf | done | apply lru_facts.New_tallied]. }
  destruct (lru.Add key value l tt) as [[l' w']|] eqn:HA; [|done].
  intros [= <-]. simpl. split_and!.
  - by eapply lru_facts.Add_wf.
  - rewrite <-Hm. by eapply lru_facts.Add_fields.
  - by eapply lru_facts.Add_tallied.
Qed.

Lemma get_ok key (c : cache) : cache_ok c → cache_ok (get key c).2.
Proof.
  unfold cache_ok, get. destruct c as [[l|] cb]; simpl; [|done].
  intros (Hwf & Hm & Ht).
  destruct (lru_facts.Get_wf_tallied key l Hwf Ht) as (Hwf' & Ht' & Hm').
  destruct (lru.Get key l) as [[v|] l']; simpl in *; split_and!; congruence.
Qed.

(** An entry that a cache can hold is in it after [add]. *)
Lemma add_front key (value : ByteView) (c : cache) :
  cache_ok c →
  cacheBytes c = 0%Z ∨
  (0 < cacheBytes c ∧ len key + ByteView_Len value ≤ cacheBytes c
   ∧ cacheBytes c ≤ Int64.max_int)%Z →
  ∃ c', add key value c = Returns c' ∧ cache_ok c' ∧
        cacheBytes c' = cacheBytes c ∧
        (get key c').1 = Some value.
Proof.
  intros Hok Hfit. unfold add.
  set (l := match lru c with
            | Some l => l
            | None => lru.New (cacheBytes c) None
            end).
  assert (lru.wf l ∧ lru.maxBytes l = cacheBytes c ∧ lru.tallied l)
    as (Hwf & Hm & Ht).
  { unfold cache_ok in *. subst l. destruct (lru c) as [l|]; [done |].
    split_and!; [apply lru_facts.New_wf | done | apply lru_facts.New_tallied]. }
  destruct (lru_facts.Add_front key value l tt Hwf Ht)
    as (l' & w' & kept & gone & HA & Hwf' & Ht' & Hm' & Hes & _).
  { rewrite Hm. destruct Hfit as [?|(? & ? & ?)]; [by left | right].
    pose proof (len_nonneg key).
    assert (0 ≤ ByteView_Len value)%Z by (unfold ByteView_Len; lia).
    unfold lru.Len, ByteView_Value.
    split_and!; [done | range_solve | done]. }
  rewrite HA. eexists. split; [done |]. split_and!.
  - unfold cache_ok. simpl. split_and!; [done | congruence | done].
  - done.
  - unfold get. simpl.
    pose proof (lru_facts.Get_value key l' Hwf') as HG.
    rewrite Hes in HG. simpl in HG. rewrite decide_True in HG by done.
    destruct (lru.Get key l') as [[v|] l'']; simpl in *; by simplify_eq.
Qed.

Section facts.
Context {W error : Type} (Errorf : string → error).
Implicit Types (g : Group W error) (w : W).

Lemma with_mainCache_id g : with_mainCache g (mainCache g) = g.
Proof. by destruct g. Qed.

(** A call for a key that is not empty and that the local cache misses
    continues with [load], on the same group. *)
Lemma Get_miss_load key g w :
  key ≠ "" → (get key (mainCache g)).1 = None →
  Get Errorf key g w = load key g w.
Proof.
  intros Hkey Hmiss. unfold Get. rewrite decide_False by done.
  pose proof (get_miss key (mainCache g) Hmiss) as Hc.
  destruct (get key (mainCache g)) as [[v|] c]; simpl in *; [done |].
  subst c. by rewrite with_mainCache_id.
Qed.

Lemma load_fallback key g w w1 :
  fallback key g w = Some w1 → load key g w = getLocally key g w1.
Proof.
  unfold fallback, load, getFromPeer. destruct (peers g) as [picker|]; [|by intros [= ->]].
  destruct (picker key w) as [[peer|] w']; [|by intros [= ->]].
  destruct (peer (name g) key w') as [[bytes [err|]] w2]; [|done].
  by intros [= ->].
Qed.

Lemma getLocally_ok (g g' : Group W error) key w r w' :
  cache_ok (mainCache g) →
  getLocally key g w = Returns (r, g', w') → cache_ok (mainCache g').
Proof.
  intros Hok. unfold getLocally, populateCache.
  destruct (getter g key w) as [[bytes [err|]] w1]; [by intros [= _ <- _] |].
  destruct (add key (mkByteView (cloneBytes bytes)) (mainCache g)) as [c2| |] eqn:Hadd;
    [|done..].
  intros [= _ <- _]. simpl. by eapply add_ok.
Qed.

Lemma Get_ok (g g' : Group W error) key w r w' :
  cache_ok (mainCache g) →
  Get Errorf key g w = Returns (r, g', w') → cache_ok (mainCache g').
Proof.
  intros Hok. unfold Get. case_decide; [by intros [= _ <- _] |].
  pose proof (get_ok key (mainCache g) Hok) as Hok1.
  destruct (get key (mainCache g)) as [[v|] c1]; simpl in Hok1; [by intros [= _ <- _] |].
  assert (cache_ok (mainCache (with_mainCache g c1))) as Hok2 by done.
  unfold load, getFromPeer.
  destruct (peers (with_mainCache g c1)) as [picker|]; [|by apply getLocally_ok].
  destruct (picker key w) as [[peer|] s1]; [|by apply getLocally_ok].
  destruct (peer (name (with_mainCache g c1)) key s1) as [[bytes [err|]] s2];
    [by apply getLocally_ok |].
  by intros [= _ <- _].
Qed.

(** C4. For a key that is not empty and that the local cache misses, in a
    group with a peer picker that picks a peer whose fetch succeeds, [Get]
    returns the bytes of the peer as a [ByteView], without error, and
    leaves the group, and so its local cache, as it was. *)
Theorem remote_value_not_cached key g w picker peer w1 bytes w2 :
  key ≠ "" →
  (get key (mainCache g)).1 = None →
  peers g = Some picker →
  picker key w = (Some peer, w1) →
  peer (name g) key w1 = ((bytes, None), w2) →
  Get Errorf key g w = Returns ((mkByteView bytes, None), g, w2).
Proof.
  intros Hkey Hmiss Hp Hpick Hfetch.
  rewrite Get_miss_load by done. unfold load, getFromPeer.
  by rewrite Hp, Hpick, Hfetch.
Qed.

(** C7. For a key that is not empty, that the local cache misses and that
    no peer serves, when the loader fails [Get] returns the error of the
    loader itself, and leaves the group, and so its local cache, as it
    was. *)
Theorem load_error_returned_unchanged key g w w1 bytes err w2 :
  key ≠ "" →
  (get key (mainCache g)).1 = None →
  fallback key g w = Some w1 →
  getter g key w1 = ((bytes, Some err), w2) →
  Get Errorf key g w = Returns ((mkByteView [], Some err), g, w2).
Proof.
  intros Hkey Hmiss Hfb Hload.
  rewrite Get_miss_load, (load_fallback key g w w1) by done.
  unfold getLocally. by rewrite Hload.
Qed.

End facts.

Section counting.
Context {W error : Type} (Errorf : string → error).

(** C6, as amended. In a group without peer picker whose loader counts
    its calls, take a key that is not empty and that the local cache
    misses, on which the loader succeeds, and whose entry the cache can
    hold: the cache has no bound, or key and value together are no
    larger than its capacity.  Then two consecutive calls of [Get] call
    the loader once: the first returns the loaded value and caches it,
    the second returns the same value and leaves the counter, like the
    rest of the loader's state, as the first call left it. *)
Theorem second_get_served_from_cache
    (g : Group (W * nat) error) (f : @Getter W error) key w n bytes w1 :
  peers g = None →
  getter g = counting f →
  key ≠ "" →
  cache_ok (mainCache g) →
  (get key (mainCache g)).1 = None →
  f key w = ((bytes, None), w1) →
  cacheBytes (mainCache g) = 0%Z ∨
  (len key + Z.of_nat (length bytes) ≤ cacheBytes (mainCache g)
   ∧ cacheBytes (mainCache g) ≤ Int64.max_int)%Z →
  ∃ g1 g2,
    Get Errorf key g (w, n) = Returns ((mkByteView bytes, None), g1, (w1, S n)) ∧
    (get key (mainCache g1)).1 = Some (mkByteView bytes) ∧
    getter g1 = counting f ∧ peers g1 = None ∧ cache_ok (mainCache g1) ∧
    Get Errorf key g1 (w1, S n) = Returns ((mkByteView bytes, None), g2, (w1, S n)).
Proof.
  intros Hp Hg Hkey Hok Hmiss Hload Hfit.
  destruct (add_front key (mkByteView bytes) (mainCache g) Hok)
    as (c1 & Hadd & Hok1 & Hcb1 & Hget1).
  { destruct Hfit as [?|[? ?]]; [by left | right].
    assert (0 < len key)%Z by (unfold len; destruct key; [done | simpl; lia]).
    unfold ByteView_Len. simpl. split_and!; [lia | done | done]. }
  exists (with_mainCache g c1), (with_mainCache g (get key c1).2).
  split_and!; [| done | done | done | done |].
  - rewrite Get_miss_load by done. unfold load. rewrite Hp.
    unfold getLocally, populateCache. rewrite Hg. unfold counting. simpl.
    rewrite Hload, cloneBytes_id, Hadd. done.
  - unfold Get. rewrite decide_False by done. simpl.
    destruct (get key c1) as [[v|] c2]; simpl in *; by simplify_eq.
Qed.

End counting.

(** *** The HTTP endpoint *)

Lemma Cut_Some sep s before after :
  Cut sep s = Some (before, after) →
  s = before +:+ String sep after ∧ Cut sep before = None.
Proof.
  revert before. induction s as [|a s IH]; intros before; simpl; [done |].
  case_decide as Ha.
  - intros [= <- <-]. by subst.
  - destruct (Cut sep s) as [[b' a']|] eqn:Hc; [|done].
    intros [= <- <-]. destruct (IH b' eq_refl) as [-> Hb].
    split; [done |]. simpl. rewrite decide_False by done. by rewrite Hb.
Qed.

Lemma SplitN_two s sep :
  SplitN s sep 2 = match Cut sep s with
                   | Some (before, after) => [before; after]
                   | None => [s]
                   end.
Proof.
  unfold SplitN. rewrite decide_False by lia. rewrite decide_False by lia.
  change (Z.to_nat (2 - 1)) with 1. simpl. by destruct (Cut sep s) as [[? ?]|].
Qed.

Lemma genSplit_length more sep s : 1 ≤ length (genSplit more sep s).
Proof.
  destruct more as [|more]; simpl; [lia |].
  destruct (Cut sep s) as [[? ?]|]; simpl; lia.
Qed.

(** A string has one segment when the separator does not occur in it, and
    more than one when it does. *)
Lemma Split_length s sep :
  match Cut sep s with
  | Some _ => 2 ≤ length (Split s sep)
  | None => Split s sep = [s]
  end.
Proof.
  unfold Split, SplitN. rewrite decide_False by lia. rewrite decide_True by lia.
  destruct s as [|a s]; [done |].
  cbn [String.length genSplit]. destruct (Cut sep (String a s)) as [[b' a']|]; [|done].
  simpl. pose proof (genSplit_length (String.length s) sep a'). lia.
Qed.

Section endpoint.
Context {W error : Type} (Errorf : string → error) (Error : error → string).

(** C5, as amended. For a request whose path begins with the base path,
    the handler cuts the remainder at its first separator only.  A
    remainder of one segment, without separator, is answered with the
    bad-request status and changes nothing.  A remainder of two segments
    or more is never answered with that status: the first segment is the
    group name and all the rest, further separators included, is the key;
    the answer is not-found when no group has that name and otherwise
    comes from [Get] of that key on that group. *)
Theorem bad_request_iff_single_segment
    (p : HTTPPool) (path : string) (groups : gmap string (Group W error)) (w : W) :
  HasPrefix path (basePath p) = true →
  let rest := slice_from (String.length (basePath p)) path in
  (length (Split rest "/") < 2 →
     ServeHTTP Errorf Error p path groups w
     = Returns (http_Error "bad request" StatusBadRequest, groups, w)) ∧
  (2 ≤ length (Split rest "/") →
     ∃ groupName key,
       rest = groupName +:+ String "/" key ∧ Cut "/" groupName = None ∧
       (GetGroup groupName groups = None →
          ServeHTTP Errorf Error p path groups w
          = Returns (http_Error ("no such group: " +:+ groupName) StatusNotFound,
                     groups, w)) ∧
       (∀ group resp groups' w',
          GetGroup groupName groups = Some group →
          ServeHTTP Errorf Error p path groups w = Returns (resp, groups', w') →
          ∃ view oerr group',
            Get Errorf key group w = Returns ((view, oerr), group', w') ∧
            groups' = <[groupName := group']> groups ∧
            status resp = match oerr with
                          | Some _ => StatusInternalServerError
                          | None => StatusOK
                          end) ∧
       (∀ resp groups' w',
          ServeHTTP Errorf Error p path groups w = Returns (resp, groups', w') →
          status resp ≠ StatusBadRequest)).
Proof.
  intros Hprefix rest. unfold ServeHTTP. rewrite Hprefix. simpl. fold rest.
  rewrite SplitN_two. pose proof (Split_length rest "/") as Hlen.
  destruct (Cut "/" rest) as [[groupName key]|] eqn:Hcut.
  - split; [lia |]. intros _. exists groupName, key.
    destruct (Cut_Some _ _ _ _ Hcut) as [Hrest Hg].
    split_and!; [done | done | | |].
    + by intros ->.
    + intros group resp groups' w' ->.
      destruct (Get Errorf key group w) as [[[[view [err|]] group'] w'']| |];
        [| |done..]; intros [= <- <- <-]; by eexists _, _, _.
    + intros resp groups' w'.
      destruct (GetGroup groupName groups) as [group|]; [|by intros [= <- _ _]].
      destruct (Get Errorf key group w) as [[[[view [err|]] group'] w'']| |];
        [| |done..]; by intros [= <- _ _].
  - rewrite Hlen. split; [done |]. simpl. lia.
Qed.

End endpoint.
End group_facts.

(** ** Concrete runs *)

Module runs.
Import geecache demo.

(** The scenarios of the design document. *)

Example get_Tom :
  ∃ g', Get Errorf "Tom" (scores 2048) tt = Returns ((bytes_view "630", None), g', tt) ∧
        String_ (bytes_view "630") = "630".
Proof. eexists. split; by vm_compute. Qed.

Example get_kkk :
  Get Errorf "kkk" (scores 2048) tt
  = Returns ((mkByteView [], Some "kkk not exist"), scores 2048, tt).
Proof. by vm_compute. Qed.

Example get_empty_key :
  Get Errorf "" (scores 2048) tt
  = Returns ((mkByteView [], Some "key is required"), scores 2048, tt).
Proof. by vm_compute. Qed.

Example serve_Tom :
  ∃ groups',
    ServeHTTP Errorf Error (NewHTTPPool "http://localhost:8001") "/_geecache/scores/Tom"
      {["scores" := scores 2048]} tt
    = Returns ({| status := 200; contentType := "application/octet-stream";
                  body := String.list_byte_of_string "630" |}, groups', tt).
Proof. eexists. by vm_compute. Qed.

Example serve_one_segment :
  status <$> (match ServeHTTP Errorf Error (NewHTTPPool "http://localhost:8001")
                      "/_geecache/scores" {["scores" := scores 2048]} tt with
              | Returns (resp, _, _) => Some resp
              | _ => None
              end) = Some 400%Z.
Proof. by vm_compute. Qed.

Example serve_unknown_group :
  status <$> (match ServeHTTP Errorf Error (NewHTTPPool "http://localhost:8001")
                      "/_geecache/unknown/Tom" {["scores" := scores 2048]} tt with
              | Returns (resp, _, _) => Some resp
              | _ => None
              end) = Some 404%Z.
Proof. by vm_compute. Qed.

Example four_adds_run :
  ∃ c, lru.Adds four_adds (lru.New 10 (Some record_evicted)) []
       = Some (c, [("k2", bytes_view "345")]) ∧
       lru.entries c = [lru.Entry "k3" (bytes_view "7890"); lru.Entry "k1" (bytes_view "6")] ∧
       lru.nbytes c = 9%Z.
Proof. eexists. split; [by vm_compute |]. split; by vm_compute. Qed.

Example Itoa_values :
  consistenthash.Itoa 0 = "0" ∧ consistenthash.Itoa 7 = "7" ∧
  consistenthash.Itoa 49 = "49" ∧ consistenthash.Itoa 120 = "120".
Proof. by vm_compute. Qed.

Example ChecksumIEEE_check_value :
  consistenthash.ChecksumIEEE "123456789" = 0xCBF43926%Z.
Proof. by vm_compute. Qed.

Example small_ring_keys :
  consistenthash.keys small_ring = [2; 4; 6; 12; 14; 16; 22; 24; 26]%Z.
Proof. by vm_compute. Qed.

Example small_ring_lookups :
  consistenthash.Get "2" small_ring = "2" ∧
  consistenthash.Get "11" small_ring = "2" ∧
  consistenthash.Get "23" small_ring = "4" ∧
  consistenthash.Get "27" small_ring = "2".
Proof. by vm_compute. Qed.

Example small_ring_new_peer :
  consistenthash.Get "27" (consistenthash.Add ["8"] small_ring) = "8".
Proof. by vm_compute. Qed.

Example empty_ring_lookup :
  consistenthash.Get "Tom" (consistenthash.New 50 None) = "".
Proof. by vm_compute. Qed.

Example lru_get_after_adds :
  (lru.Get "k1" small_store).1 = Some (bytes_view "6") ∧
  (lru.Get "k2" small_store).1 = Some (bytes_view "345") ∧
  (lru.Get "k3" small_store).1 = None ∧
  lru.Len_ small_store = 2%Z ∧ lru.nbytes small_store = 8%Z.
Proof. by vm_compute. Qed.

Example ring_of_three_nodes :
  consistenthash.Get "Tom"
    (consistenthash.build 3 None [["http://localhost:8001"; "http://localhost:8002"]])
  = "http://localhost:8002".
Proof. by vm_compute. Qed.

(** *** The theorems at concrete inputs *)

Lemma small_store_run :
  lru.Adds three_adds (lru.New 10 (Some record_evicted)) [] = Some (small_store, []).
Proof. by vm_compute. Qed.

Lemma small_store_wf : lru.wf small_store.
Proof.
  apply (lru_facts.Adds_wf three_adds (lru.New 10 (Some record_evicted)) [] small_store []).
  - apply lru_facts.New_wf.
  - apply small_store_run.
Qed.

Lemma small_store_accounted : lru.accounted small_store.
Proof.
  split; [by vm_compute | | by vm_compute].
  change (lru.entries small_store)
    with [lru.Entry "k1" (bytes_view "6"); lru.Entry "k2" (bytes_view "345")].
  repeat constructor; by vm_compute.
Qed.

Lemma small_store_tallied : lru.tallied small_store.
Proof. by vm_compute. Qed.

Lemma add_sequence_within_capacity_witness :
  (0 < 10)%Z ∧
  ∃ c' w',
    lru.Adds (take 4 four_adds) (lru.New 10 (Some record_evicted)) [] = Some (c', w') ∧
    (lru.nbytes c' ≤ 10)%Z ∧
    lru.nbytes c' = Int64.wrap (lru.total (lru.entries c')) ∧
    (Forall (λ op, 0 ≤ lru.Len op.2 ∧ 10 + len op.1 + lru.Len op.2 ≤ Int64.max_int)%Z
       four_adds →
     lru.nbytes c' = lru.total (lru.entries c')).
Proof.
  assert (0 < 10)%Z as H1 by lia.
  split; [exact H1 |].
  exact (lru_facts.add_sequence_within_capacity 10 (Some record_evicted) four_adds [] H1 4).
Defined.



Lemma oversize_add_empties_store_witness :
  lru.wf small_store ∧ lru.accounted small_store ∧
  (0 < lru.maxBytes small_store)%Z ∧ (0 ≤ lru.Len (bytes_view "0123456789"))%Z ∧
  (lru.nbytes small_store + len "big" + lru.Len (bytes_view "0123456789")
   ≤ Int64.max_int)%Z ∧
  (lru.maxBytes small_store < len "big" + lru.Len (bytes_view "0123456789"))%Z ∧
  ∃ c' w',
    lru.Add "big" (bytes_view "0123456789") small_store [] = Some (c', w') ∧
    lru.entries c' = [] ∧ lru.cache c' !! "big" = None ∧
    (lru.Get "big" c').1 = None ∧ lru.nbytes c' = 0%Z ∧
    w' = lru.notify (lru.OnEvicted small_store)
           (lru.Entry "big" (bytes_view "0123456789")
            :: filter (λ kv, lru.key kv ≠ "big") (lru.entries small_store)) [] ∧
    (∀ f, lru.OnEvicted small_store = Some f →
          w' = f "big" (bytes_view "0123456789")
                 (lru.notify (Some f)
                    (filter (λ kv, lru.key kv ≠ "big") (lru.entries small_store)) [])).
Proof.
  assert (0 < lru.maxBytes small_store)%Z as H1 by (by vm_compute).
  assert (0 ≤ lru.Len (bytes_view "0123456789"))%Z as H2 by (by vm_compute).
  assert (lru.nbytes small_store + len "big" + lru.Len (bytes_view "0123456789")
          ≤ Int64.max_int)%Z as H3 by (by vm_compute).
  assert (lru.maxBytes small_store < len "big" + lru.Len (bytes_view "0123456789"))%Z
    as H4 by (by vm_compute).
  split_and!; [exact small_store_wf | exact small_store_accounted | exact H1
              | exact H2 | exact H3 | exact H4 |].
  exact (lru_facts.oversize_add_empties_store "big" (bytes_view "0123456789")
           small_store [] small_store_wf small_store_accounted H1 H2 H3 H4).
Defined.

(** The claim of C1 without its amendment fails: a value that reports the
    largest [int64] as its length makes the byte counter wrap around, to
    the least [int64], while the sum over the entry held is [2^63]. *)
Lemma add_of_huge_value_wraps_counter :
  (0 < 10)%Z ∧
  ∃ c', lru.Add "k" (mksized Int64.max_int) (lru.New 10 None) tt = Some (c', tt) ∧
        lru.entries c' = [lru.Entry "k" (mksized Int64.max_int)] ∧
        (lru.nbytes c' ≤ 10)%Z ∧
        lru.nbytes c' = Int64.min_int ∧
        lru.total (lru.entries c') = (2 ^ 63)%Z ∧
        lru.nbytes c' ≠ lru.total (lru.entries c').
Proof.
  split; [lia |]. eexists. split; [by vm_compute |].
  split_and!; by vm_compute.
Qed.

(** The claim of C10 without its amendment fails: after a value that
    reports a negative length the byte counter is below zero, within the
    capacity, and an [Add] of an entry larger than the capacity leaves the
    counter within the capacity: nothing is evicted, the entry stays, the
    counter is not zero and the callback is not called. *)
Lemma oversize_add_kept_after_negative_length :
  ∃ c1 c2,
    lru.Add "a" (mksized (-100))
      (lru.New 10 (Some (λ k v (log : list (string * sized)), (k, v) :: log))) []
    = Some (c1, []) ∧
    (0 < lru.maxBytes c1)%Z ∧ (lru.nbytes c1 ≤ lru.maxBytes c1)%Z ∧
    (lru.maxBytes c1 < len "j" + lru.Len (mksized 20))%Z ∧
    lru.Add "j" (mksized 20) c1 [] = Some (c2, []) ∧
    (lru.Get "j" c2).1 = Some (mksized 20) ∧
    lru.entries c2 = [lru.Entry "j" (mksized 20); lru.Entry "a" (mksized (-100))] ∧
    lru.nbytes c2 = (-78)%Z ∧
    lru.nbytes c2 ≠ 0%Z.
Proof.
  eexists _, _. split; [by vm_compute |].
  split_and!; by vm_compute.
Qed.

Lemma ring_get_deterministic_witness :
  concat [["n1"; "n2"]; ["n3"]] = concat [["n1"]; ["n2"; "n3"]] ∧
  consistenthash.build 50 None [["n1"; "n2"]; ["n3"]]
  = consistenthash.build 50 None [["n1"]; ["n2"; "n3"]] ∧
  ∀ key, consistenthash.Get key (consistenthash.build 50 None [["n1"; "n2"]; ["n3"]])
         = consistenthash.Get key (consistenthash.build 50 None [["n1"]; ["n2"; "n3"]]).
Proof.
  split; [reflexivity |].
  exact (ring_facts.ring_get_deterministic 50 None
           [["n1"; "n2"]; ["n3"]] [["n1"]; ["n2"; "n3"]] eq_refl).
Defined.

Lemma remote_value_not_cached_witness :
  "Tom" ≠ "" ∧
  (get "Tom" (mainCache scores_with_peer)).1 = None ∧
  peers scores_with_peer = Some always_remote ∧
  always_remote "Tom" tt = (Some remote_peer, tt) ∧
  remote_peer (name scores_with_peer) "Tom" tt
  = ((String.list_byte_of_string "remote", None), tt) ∧
  Get Errorf "Tom" scores_with_peer tt
  = Returns ((bytes_view "remote", None), scores_with_peer, tt).
Proof.
  assert ("Tom" ≠ "") as H1 by done.
  split_and!; [exact H1 | reflexivity | reflexivity | reflexivity | reflexivity |].
  exact (group_facts.remote_value_not_cached Errorf "Tom" scores_with_peer tt
           always_remote remote_peer tt (String.list_byte_of_string "remote") tt
           H1 eq_refl eq_refl eq_refl eq_refl).
Defined.

Lemma load_error_returned_unchanged_witness :
  "kkk" ≠ "" ∧
  (get "kkk" (mainCache (scores 2048))).1 = None ∧
  fallback "kkk" (scores 2048) tt = Some tt ∧
  getter (scores 2048) "kkk" tt = (([], Some "kkk not exist"), tt) ∧
  Get Errorf "kkk" (scores 2048) tt
  = Returns ((mkByteView [], Some "kkk not exist"), scores 2048, tt).
Proof.
  assert ("kkk" ≠ "") as H1 by done.
  assert (getter (scores 2048) "kkk" tt = (([], Some "kkk not exist"), tt)) as H4
    by (by vm_compute).
  split_and!; [exact H1 | reflexivity | reflexivity | exact H4 |].
  exact (group_facts.load_error_returned_unchanged Errorf "kkk" (scores 2048) tt tt
           [] "kkk not exist" tt H1 eq_refl eq_refl H4).
Defined.

Lemma second_get_served_from_cache_witness :
  peers (counted_scores 2048) = None ∧
  getter (counted_scores 2048) = counting slowDB ∧
  "Tom" ≠ "" ∧
  cache_ok (mainCache (counted_scores 2048)) ∧
  (get "Tom" (mainCache (counted_scores 2048))).1 = None ∧
  slowDB "Tom" tt = ((String.list_byte_of_string "630", None), tt) ∧
  (cacheBytes (mainCache (counted_scores 2048)) = 0%Z ∨
   (len "Tom" + Z.of_nat (length (String.list_byte_of_string "630"))
      ≤ cacheBytes (mainCache (counted_scores 2048))
    ∧ cacheBytes (mainCache (counted_scores 2048)) ≤ Int64.max_int)%Z) ∧
  ∃ g1 g2,
    Get Errorf "Tom" (counted_scores 2048) (tt, 0)
    = Returns ((bytes_view "630", None), g1, (tt, 1)) ∧
    (get "Tom" (mainCache g1)).1 = Some (bytes_view "630") ∧
    getter g1 = counting slowDB ∧ peers g1 = None ∧ cache_ok (mainCache g1) ∧
    Get Errorf "Tom" g1 (tt, 1) = Returns ((bytes_view "630", None), g2, (tt, 1)).
Proof.
  assert ("Tom" ≠ "") as H3 by done.
  assert (slowDB "Tom" tt = ((String.list_byte_of_string "630", None), tt)) as H6
    by (by vm_compute).
  assert (cacheBytes (mainCache (counted_scores 2048)) = 0%Z ∨
          (len "Tom" + Z.of_nat (length (String.list_byte_of_string "630"))
             ≤ cacheBytes (mainCache (counted_scores 2048))
           ∧ cacheBytes (mainCache (counted_scores 2048)) ≤ Int64.max_int)%Z) as H7
    by (right; split; by vm_compute).
  split_and!; [reflexivity | reflexivity | exact H3 | exact I | reflexivity
              | exact H6 | exact H7 |].
  exact (group_facts.second_get_served_from_cache Errorf (counted_scores 2048) slowDB
           "Tom" tt 0 (String.list_byte_of_string "630") tt
           eq_refl eq_refl H3 I eq_refl H6 H7).
Defined.

(** The claim of C6 without its amendment fails: with a capacity of one byte
    the entry of ["Tom"] is evicted as soon as it is stored, and the second
    [Get] calls the loader again. *)
Lemma second_get_reloads_when_entry_too_large :
  peers (counted_scores 1) = None ∧
  slowDB "Tom" tt = ((String.list_byte_of_string "630", None), tt) ∧
  ∃ g1 g2,
    Get Errorf "Tom" (counted_scores 1) (tt, 0)
    = Returns ((bytes_view "630", None), g1, (tt, 1)) ∧
    Get Errorf "Tom" g1 (tt, 1) = Returns ((bytes_view "630", None), g2, (tt, 2)) ∧
    2 ≠ 1.
Proof.
  split; [reflexivity |]. split; [by vm_compute |].
  eexists _, _. split; [by vm_compute |]. split; [by vm_compute | done].
Qed.

Lemma bad_request_iff_single_segment_witness :
  HasPrefix "/_geecache/scores" (basePath (NewHTTPPool "http://localhost:8001")) = true ∧
  ServeHTTP Errorf Error (NewHTTPPool "http://localhost:8001") "/_geecache/scores"
    {["scores" := scores 2048]} tt
  = Returns (http_Error "bad request" StatusBadRequest, {["scores" := scores 2048]}, tt).
Proof.
  split; [reflexivity |].
  refine (proj1 (group_facts.bad_request_iff_single_segment Errorf Error
                   (NewHTTPPool "http://localhost:8001") "/_geecache/scores"
                   {["scores" := scores 2048]} tt eq_refl) _).
  vm_compute. lia.
Defined.

(** The claim of C5 without its amendment fails: a remainder of three
    segments is not answered with the bad-request status; its second and
    third segment together are looked up as the key. *)
Lemma three_segments_not_bad_request :
  HasPrefix "/_geecache/scores/Tom/extra" (basePath (NewHTTPPool "http://localhost:8001")) = true ∧
  length (Split "scores/Tom/extra" "/") = 3 ∧
  ServeHTTP Errorf Error (NewHTTPPool "http://localhost:8001") "/_geecache/scores/Tom/extra"
    {["scores" := scores 2048]} tt
  = Returns (http_Error "Tom/extra not exist" StatusInternalServerError,
             {["scores" := scores 2048]}, tt) ∧
  StatusInternalServerError ≠ StatusBadRequest.
Proof. split_and!; by vm_compute. Qed.

End runs.

(** * Further properties *)

(** ** The LRU store under all its operations *)

Module lru_more.
Import lru lru_facts.

Section more.
Context {V : Type} `{!Value V, !Inhabited V} {W : Type}.
Implicit Types (c : Cache V W) (w : W) (k : string) (v : V) (e : elem)
  (kv : entry V) (es : list (entry V)).

Lemma RemoveOldest_tallied_any c w : wf c → tallied c → tallied (RemoveOldest c w).1.
Proof.
  intros Hwf Ht. destruct (ll c) as [|e l _] eqn:Hl using rev_ind.
  - by rewrite RemoveOldest_empty.
  - by apply (RemoveOldest_tallied c w l e).
Qed.

(** The keys of the index are the keys of the entries, and there are as
    many as the list is long. *)
Lemma index_keys c :
  wf c → dom (cache c) = list_to_set (key <$> entries c) ∧
         length (ll c) = base.size (cache c).
Proof.
  intros Hwf.
  assert (dom (cache c) = list_to_set (key <$> entries c)) as Hdom.
  { apply set_eq. intros k. rewrite elem_of_dom, elem_of_list_to_set, list_elem_of_fmap.
    split.
    - intros [e He]. destruct (wf_deref c k e Hwf He) as (v0 & _ & Hv0 & _).
      exists (Entry k v0). split; [done |]. apply elem_of_entries; eauto.
    - intros ([k' v'] & -> & Hin). apply elem_of_entries in Hin as (e & He & _); [|done].
      by exists e. }
  split; [done |].
  rewrite <-size_dom, Hdom, size_list_to_set by (by apply wf_NoDup_keys).
  unfold entries. by rewrite !length_fmap.
Qed.

Lemma call_keeps_invariants (o : op) c w c' w' :
  wf c → tallied c → call o c w = Some (c', w') →
  wf c' ∧ tallied c' ∧ maxBytes c' = maxBytes c ∧ OnEvicted c' = OnEvicted c.
Proof.
  intros Hwf Ht. destruct o as [k v|k|]; simpl.
  - intros HA. destruct (Add_fields k v c w c' w' HA) as [? ?].
    split_and!; [by eapply Add_wf | by eapply Add_tallied | done | done].
  - intros [= <- <-].
    destruct (Get_wf_tallied k c Hwf Ht) as (? & ? & ?). split_and!; try done.
    unfold Get. by destruct (cache c !! k).
  - intros [= HR]. destruct (RemoveOldest_fields c w) as [Hm Hcb].
    pose proof (RemoveOldest_wf c w Hwf) as Hwf'.
    pose proof (RemoveOldest_tallied_any c w Hwf Ht) as Ht'.
    rewrite HR in Hm, Hcb, Hwf', Ht'. by simpl in *.
Qed.

(** X1. Whatever calls of [Add], [Get] and [RemoveOldest] are made on a
    store created by [New], once they have returned the recency list and
    the index hold the same keys, each once, [Len] is their number, the
    byte counter is the [int64] sum over the entries held, and capacity
    and callback are the ones given to [New]. *)
Theorem invariants_after_any_calls
    (maxB : Z) (cb : option (string → V → W → W)) (ops : list op) w c' w' :
  calls ops (New maxB cb) w = Some (c', w') →
  wf c' ∧
  NoDup (key <$> entries c') ∧
  dom (cache c') = list_to_set (key <$> entries c') ∧
  Len_ c' = Z.of_nat (base.size (cache c')) ∧
  nbytes c' = Int64.wrap (total (entries c')) ∧
  maxBytes c' = maxB ∧ OnEvicted c' = cb.
Proof.
  assert (∀ c, wf c → tallied c → calls ops c w = Some (c', w') →
               wf c' ∧ tallied c' ∧ maxBytes c' = maxBytes c ∧
               OnEvicted c' = OnEvicted c) as Hgen.
  { revert w. induction ops as [|o ops IH]; intros w c Hwf Ht; simpl.
    - by intros [= <- <-].
    - destruct (call o c w) as [[c1 w1]|] eqn:Hc; [|done].
      destruct (call_keeps_invariants o c w c1 w1 Hwf Ht Hc) as (? & ? & <- & <-).
      by apply IH. }
  intros Hrun.
  destruct (Hgen _ (New_wf maxB cb) (New_tallied maxB cb) Hrun) as (Hwf & Ht & Hm & Hcb).
  destruct (index_keys c' Hwf) as [Hdom Hlen].
  split_and!; [done | by apply wf_NoDup_keys | done | | done | done | done].
  unfold Len_. by rewrite Hlen.
Qed.

(** *** A store of negative capacity *)

Lemma evict_negative fuel c w :
  wf c → accounted c → (maxBytes c < 0)%Z → evict fuel c w = None.
Proof.
  revert c w. induction fuel as [|fuel IH]; intros c w Hwf Hacc Hneg.
  - simpl. rewrite bool_decide_eq_true_2; [done |].
    pose proof (total_nonneg _ (acc_nonneg c Hacc)). rewrite (acc_nbytes c Hacc). lia.
  - rewrite evict_S, bool_decide_eq_true_2.
    + destruct (RemoveOldest_fields c w) as [Hm _].
      apply IH; [by apply RemoveOldest_wf | | lia].
      destruct (ll c) as [|e l _] eqn:Hl using rev_ind.
      * by rewrite RemoveOldest_empty.
      * destruct (RemoveOldest_last c w l e Hwf Hl) as (_ & _ & _ & Hes & _).
        apply (accounted_kept c _ [heap c !!! e]); [done | | done].
        apply (RemoveOldest_tallied c w l e); [done | by apply accounted_tallied | done].
    + pose proof (total_nonneg _ (acc_nonneg c Hacc)). rewrite (acc_nbytes c Hacc). lia.
Qed.

Lemma Add_negative k v c w :
  wf c → accounted c → (maxBytes c < 0)%Z → (0 ≤ Len v)%Z →
  (nbytes c + len k + Len v ≤ Int64.max_int)%Z →
  ∀ fuel, evict fuel (store k v c) w = None.
Proof.
  intros Hwf Hacc Hneg Hv Hfit fuel. apply evict_negative;
    [by apply store_wf | by apply store_accounted |].
  by rewrite (proj1 (store_fields k v c)).
Qed.


(** *** What [Add] keeps and what it evicts *)

(** X3. On a bounded store whose byte counter is the sum over its entries,
    [Add] returns.  The entries it keeps are the most recently used ones,
    in their order, with the added entry first if anything is kept; the
    ones it evicts are the least recently used, each handed to the callback
    once, oldest first; the counter ends within the capacity; and nothing
    is evicted needlessly: with the youngest evicted entry still held the
    counter would exceed the capacity. *)
Theorem bounded_add_evicts_least_recent k v c w :
  wf c → tallied c → (0 < maxBytes c)%Z →
  ∃ c' gone,
    Add k v c w = Some (c', notify (OnEvicted c) gone w) ∧
    Entry k v :: filter (λ kv, key kv ≠ k) (entries c) = entries c' ++ gone ∧
    (nbytes c' ≤ maxBytes c)%Z ∧
    (∀ kv gone', gone = kv :: gone' →
       (maxBytes c < Int64.wrap (total (entries c' ++ [kv])))%Z) ∧
    Len_ c' = (Z.of_nat (length (filter (λ kv, key kv ≠ k) (entries c))) + 1
               - Z.of_nat (length gone))%Z.
Proof.
  intros Hwf Ht Hmax.
  destruct (Add_bounded k v c w Hwf Ht Hmax)
    as (c' & gone & HA & _ & _ & _ & _ & Hes & Hle & Hmaxi).
  exists c', gone. split_and!; [done | done | done | |].
  - intros kv gone' ->. done.
  - apply (f_equal length) in Hes. rewrite length_app in Hes. simpl in Hes.
    unfold Len_. replace (length (ll c')) with (length (entries c'))
      by (unfold entries; by rewrite length_fmap). lia.
Qed.

Lemma evict_prefix fuel c w c' w' :
  wf c → evict fuel c w = Some (c', w') →
  ∃ gone, entries c = entries c' ++ gone ∧ w' = notify (OnEvicted c) gone w.
Proof.
  revert c w. induction fuel as [|fuel IH]; intros c w Hwf.
  - simpl. case_bool_decide; [done |]. intros [= <- <-].
    exists []. by rewrite app_nil_r, notify_nil.
  - rewrite evict_S. case_bool_decide; [|intros [= <- <-]; exists [];
      by rewrite app_nil_r, notify_nil].
    intros Hev. destruct (IH _ _ (RemoveOldest_wf c w Hwf) Hev) as (gone & Hes & Hw).
    destruct (RemoveOldest_fields c w) as [_ Hcb]. rewrite Hcb in Hw.
    destruct (ll c) as [|e l _] eqn:Hl using rev_ind.
    + rewrite RemoveOldest_empty in Hes, Hw by done. by exists gone.
    + destruct (RemoveOldest_last c w l e Hwf Hl) as (_ & _ & _ & Hes1 & _ & Hw1).
      exists (gone ++ [heap c !!! e]).
      rewrite notify_app, <-Hw1, app_assoc, <-Hes. done.
Qed.

Lemma held_app es1 es2 k :
  held k (es1 ++ es2) = match held k es1 with
                        | Some v => Some v
                        | None => held k es2
                        end.
Proof.
  induction es1 as [|kv es1 IH]; simpl; [done |]. by case_decide.
Qed.

Lemma held_filter_ne es k k' :
  k ≠ k' → held k' (filter (λ kv, key kv ≠ k) es) = held k' es.
Proof.
  intros Hne. induction es as [|kv es IH]; [done |].
  destruct (decide (key kv = k)) as [Hk|Hk].
  - rewrite filter_cons_False by (intros ?; done). simpl.
    by rewrite decide_False by congruence.
  - rewrite filter_cons_True by done. simpl. by rewrite IH.
Qed.

(** X5. An [Add] that returns, on any store whose list and index agree,
    changes no other key's value: afterwards [Get] of another key returns
    what it returned before, or misses because the entry was evicted; and
    [Get] of the added key returns the added value, or misses because the
    entry did not fit.  On a store without bound nothing is evicted. *)
Theorem add_changes_no_other_value k v c w c' w' :
  wf c → Add k v c w = Some (c', w') →
  ((Get k c').1 = Some v ∨ (Get k c').1 = None) ∧
  (∀ k', k' ≠ k → (Get k' c').1 = (Get k' c).1 ∨ (Get k' c').1 = None) ∧
  (maxBytes c = 0%Z →
     (Get k c').1 = Some v ∧ ∀ k', k' ≠ k → (Get k' c').1 = (Get k' c).1).
Proof.
  intros Hwf HA.
  pose proof (Add_wf k v c w c' w' Hwf HA) as Hwf'.
  assert (∃ gone, Entry k v :: filter (λ kv, key kv ≠ k) (entries c)
                  = entries c' ++ gone) as [gone Hes].
  { unfold Add in HA.
    destruct (evict_prefix _ _ _ _ _ (store_wf k v c Hwf) HA) as (gone & Hes & _).
    exists gone. by rewrite <-store_entries. }
  assert (∀ k', match held k' (entries c') with
                | Some v' => Some v'
                | None => held k' gone
                end = if decide (k = k') then Some v
                      else held k' (filter (λ kv, key kv ≠ k) (entries c))) as Hheld.
  { intros k'. rewrite <-held_app, <-Hes. done. }
  split_and!.
  - rewrite Get_value by done. specialize (Hheld k).
    rewrite decide_True in Hheld by done.
    destruct (held k (entries c')); [left; congruence | by right].
  - intros k' Hne. rewrite !Get_value by done. specialize (Hheld k').
    rewrite decide_False, held_filter_ne in Hheld by done.
    destruct (held k' (entries c')); [left; congruence | by right].
  - intros H0. rewrite Add_unbounded in HA by done. injection HA as <- _.
    split.
    + rewrite Get_value, held_store by done. by rewrite decide_True.
    + intros k' Hne. rewrite !Get_value, held_store by done.
      by rewrite decide_False.
Qed.

Lemma Get_Get k k' c : wf c → (Get k' (Get k c).2).1 = (Get k' c).1.
Proof.
  intros Hwf. destruct (Get k c).1 as [v|] eqn:HG.
  - destruct (Get_hit k v c Hwf HG) as (Hwf' & Hes & _).
    assert (held k (entries c) = Some v) as Hk by (by rewrite <-Get_value).
    rewrite !Get_value, Hes by done. simpl. case_decide as Hkk.
    + by subst k'.
    + by apply held_filter_ne.
  - by rewrite (Get_miss k c HG).
Qed.

(** X4. [Get] changes the order of the entries and nothing else: after
    it every key is answered as before, the entries are the same up to
    order, and counter, length, index and capacity are unchanged; a [Get]
    that misses leaves the store as it is. *)
Theorem get_changes_order_only k c :
  wf c →
  (∀ k', (Get k' (Get k c).2).1 = (Get k' c).1) ∧
  entries (Get k c).2 ≡ₚ entries c ∧
  nbytes (Get k c).2 = nbytes c ∧
  Len_ (Get k c).2 = Len_ c ∧
  cache (Get k c).2 = cache c ∧
  maxBytes (Get k c).2 = maxBytes c ∧
  ((Get k c).1 = None → (Get k c).2 = c).
Proof.
  intros Hwf. destruct (Get k c).1 as [v|] eqn:HG.
  - destruct (Get_hit k v c Hwf HG) as (Hwf' & Hes & Hn & Hm & Hc & _).
    assert (held k (entries c) = Some v) as Hk by (by rewrite <-Get_value).
    assert (entries (Get k c).2 ≡ₚ entries c) as Hperm.
    { rewrite Hes. clear Hes. pose proof (wf_NoDup_keys c Hwf) as Hnd.
      apply held_elem_of in Hk; [|done].
      induction (entries c) as [|kv es IH]; [by apply elem_of_nil in Hk |].
      rewrite fmap_cons in Hnd. apply NoDup_cons in Hnd as [Hkv Hnd].
      apply elem_of_cons in Hk as [<-|Hin].
      - rewrite filter_cons_False by (intros ?; done).
        rewrite filter_all; [done |]. apply Forall_forall. intros kv' Hkv' Heq.
        apply Hkv. simpl. rewrite <-Heq. by apply list_elem_of_fmap_2.
      - rewrite filter_cons_True.
        + rewrite Permutation_swap. by rewrite IH.
        + intros Heq. apply Hkv. rewrite Heq.
          by apply (list_elem_of_fmap_2 key) in Hin. }
    split_and!; [| done | done | | done | done | done].
    + intros k'. rewrite !Get_value, Hes by done. simpl. case_decide as Hkk.
      * by subst k'.
      * by apply held_filter_ne.
    + unfold Len_. f_equal. apply Permutation_length in Hperm.
      unfold entries in Hperm. by rewrite !length_fmap in Hperm.
  - rewrite (Get_miss k c HG). by split_and!.
Qed.

(** *** Draining a store *)

Lemma RemoveOldest_times_empty n c w : ll c = [] → RemoveOldest_times n c w = (c, w).
Proof.
  intros Hl. induction n as [|n IH]; [done |]. simpl.
  by rewrite RemoveOldest_empty.
Qed.

(** X6. [RemoveOldest] called at least as often as the store has entries
    empties it: no entry, no key in the index, the byte counter back at
    zero, and the callback called once for each entry that was held,
    oldest first.  Calls on the empty store change nothing. *)
Theorem remove_oldest_drains n c w :
  wf c → tallied c → length (ll c) ≤ n →
  let c' := (RemoveOldest_times n c w).1 in
  entries c' = [] ∧ cache c' = ∅ ∧ Len_ c' = 0%Z ∧ nbytes c' = 0%Z ∧
  (RemoveOldest_times n c w).2 = notify (OnEvicted c) (entries c) w ∧
  ∀ m, RemoveOldest_times m c' (RemoveOldest_times n c w).2
       = RemoveOldest_times n c w.
Proof.
  revert c w. induction n as [|n IH]; intros c w Hwf Ht Hlen.
  - assert (ll c = []) as Hl by (destruct (ll c); [done | simpl in Hlen; lia]).
    assert (entries c = []) as Hes by (unfold entries; by rewrite Hl).
    simpl. split_and!; [done | | | | by rewrite Hes, notify_nil | ].
    + destruct (index_keys c Hwf) as [_ Hsz]. rewrite Hl in Hsz. simpl in Hsz.
      symmetry in Hsz. by apply map_size_empty_iff in Hsz.
    + unfold Len_. by rewrite Hl.
    + rewrite Ht, Hes. done.
    + intros m. rewrite RemoveOldest_times_empty by done. by destruct c.
  - destruct (ll c) as [|e l _] eqn:Hl using rev_ind.
    + simpl. rewrite RemoveOldest_empty by done.
      apply IH; [done | done | rewrite Hl; simpl; lia].
    + destruct (RemoveOldest_last c w l e Hwf Hl) as (Hwf1 & Hl1 & _ & Hes & _ & Hw1).
      pose proof (RemoveOldest_tallied c w l e Hwf Ht Hl) as Ht1.
      destruct (RemoveOldest_fields c w) as [_ Hcb].
      cbn [RemoveOldest_times]. destruct (RemoveOldest c w) as [c1 w1] eqn:HR.
      cbn [fst snd] in *.
      destruct (IH c1 w1 Hwf1 Ht1) as (H1 & H2 & H3 & H4 & H5 & H6).
      { rewrite Hl1. rewrite length_app in Hlen. simpl in Hlen. lia. }
      split_and!; [done | done | done | done | | done].
      rewrite H5, Hcb, Hes, notify_app, Hw1. done.
Qed.

(** *** Replacing and inserting on a store without bound *)

(** X7. On a store without bound [Add] returns without calling the
    callback and leaves the entry of the key at the front, with the value
    given: [Get] of the key returns that value, every other entry is held
    as before, in the same order, and every other key is answered as
    before.  For a key that was held the value is replaced, [Len] is as it
    was and the difference of the two value lengths is added to the byte
    counter; for a new key [Len] is one larger and the length of key and
    value is added. *)
Theorem unbounded_add_replaces_or_inserts k v c w :
  wf c → maxBytes c = 0%Z →
  ∃ c', Add k v c w = Some (c', w) ∧
        (Get k c').1 = Some v ∧
        entries c' = Entry k v :: filter (λ kv, key kv ≠ k) (entries c) ∧
        (∀ k', k' ≠ k → (Get k' c').1 = (Get k' c).1) ∧
        match (Get k c).1 with
        | Some v0 =>
            Len_ c' = Len_ c ∧
            nbytes c' = Int64.wrap (nbytes c + (Len v - Len v0))
        | None =>
            Len_ c' = (Len_ c + 1)%Z ∧
            nbytes c' = Int64.wrap (nbytes c + (len k + Len v))
        end.
Proof.
  intros Hwf H0. exists (store k v c). split; [by apply Add_unbounded |].
  pose proof (store_wf k v c Hwf) as Hwf'.
  split_and!.
  - rewrite Get_value, held_store by done. by rewrite decide_True.
  - by apply store_entries.
  - intros k' Hne. rewrite !Get_value, held_store by done.
    by rewrite decide_False.
  - destruct (index_keys c Hwf) as [_ Hsz].
    destruct (index_keys (store k v c) Hwf') as [_ Hsz'].
    unfold Len_. rewrite Hsz, Hsz'. unfold Get, store.
    destruct (cache c !! k) as [ele|] eqn:Hk; simpl.
    + split; [done |]. wrap_eq.
    + split.
      * rewrite map_size_insert_None by done. lia.
      * unfold cost. wrap_eq.
Qed.

End more.
End lru_more.

(** ** The ring as peers come *)

Module ring_more.
Import consistenthash ring_facts.

Lemma successor_unique h l x x' : successor h l x → successor h l x' → x = x'.
Proof.
  intros (Hx & Hge & Hlt) (Hx' & Hge' & Hlt').
  destruct (decide (Exists (λ y, h ≤ y)%Z l)) as [(y & Hy & Hhy)%Exists_exists|Hnone].
  - destruct (Hge y Hy Hhy) as [Hhx _]. destruct (Hge' y Hy Hhy) as [Hhx' _].
    destruct (Hge x' Hx' Hhx') as [_ ?]. destruct (Hge' x Hx Hhx) as [_ ?]. lia.
  - assert (∀ y, y ∈ l → (y < h)%Z) as Hall.
    { intros y Hy. destruct (decide (y < h)%Z); [done |].
      exfalso. apply Hnone. apply Exists_exists. exists y. split; [done | lia]. }
    pose proof (Hlt Hall x' Hx'). pose proof (Hlt' Hall x Hx). lia.
Qed.

(** On an ascending ring that is not empty [Get] answers with the owner
    recorded for the successor of the key's hash. *)
Lemma Get_successor (m : Map) key :
  StronglySorted Z.le (keys m) → keys m ≠ [] →
  ∃ x, successor (uint32 (hash m key)) (keys m) x ∧
       Get key m = default "" (hashMap m !! x).
Proof.
  intros Hs Hne. set (h := uint32 (hash m key)). set (n := length (keys m)).
  set (idx := first_geq h (keys m)).
  assert (0 < n) as Hn by (subst n; destruct (keys m); [done | simpl; lia]).
  destruct (first_geq_spec h (keys m)) as (Hle & Hlow & Hhigh).
  fold idx in Hle, Hlow, Hhigh. fold n in Hle.
  pose proof (first_geq_lt_iff h (keys m)) as Hiff. fold idx n in Hiff.
  assert (wrap_index n idx < n) as Hw by (unfold wrap_index; case_decide; lia).
  destruct (lookup_lt_is_Some_2 (keys m) _ Hw) as [x Hx].
  exists x. split.
  - split_and!.
    + by eapply list_elem_of_lookup_2.
    + intros y Hy Hhy.
      assert (idx < n) as Hlt by (apply Hiff; eauto).
      unfold wrap_index in Hx. rewrite decide_True in Hx by done.
      split; [by apply Hhigh |].
      apply list_elem_of_lookup_1 in Hy as [j Hj].
      destruct (decide (j < idx)) as [Hji|Hji].
      * pose proof (Hlow j y Hji Hj). lia.
      * apply (StronglySorted_lookup_le (keys m) idx j); [done | done | done | lia].
    + intros Hall y Hy.
      assert (¬ idx < n) as Hge.
      { intros (z & Hz & Hhz)%Hiff. specialize (Hall z Hz). lia. }
      unfold wrap_index in Hx. rewrite decide_False in Hx by done.
      apply list_elem_of_lookup_1 in Hy as [j Hj].
      apply (StronglySorted_lookup_le (keys m) 0 j); [done | done | done | lia].
  - assert (Search (Z.of_nat n) (λ i, bool_decide (h ≤ key_at m i)%Z) = Z.of_nat idx)
      as HS by (by apply Search_first_geq).
    unfold Get. rewrite decide_False by (fold n; lia). fold n h.
    rewrite HS.
    assert (Z.to_nat (Z.of_nat idx `mod` Z.of_nat n) = wrap_index n idx) as Hmod.
    { unfold wrap_index. case_decide.
      - rewrite Z.mod_small by lia. lia.
      - assert (idx = n) as -> by lia. rewrite Z.mod_same by lia. done. }
    unfold key_at. rewrite Hmod. by rewrite (list_lookup_total_correct _ _ _ Hx).
Qed.

Lemma record_all_snoc (hm : gmap Z string) vs v :
  record_all hm (vs ++ [v]) = <[v.1 := v.2]> (record_all hm vs).
Proof. unfold record_all. by rewrite foldl_app. Qed.

Lemma record_all_other (vs : list (Z * string)) (hm : gmap Z string) x :
  x ∉ vs.*1 → record_all hm vs !! x = hm !! x.
Proof.
  induction vs as [|v vs IH] using rev_ind; [done |].
  rewrite fmap_app, record_all_snoc. simpl. intros Hnin.
  rewrite lookup_insert_ne by set_solver. apply IH. set_solver.
Qed.

Lemma length_vnodes hash replicas peers :
  length (vnodes hash replicas peers) = length peers * Z.to_nat replicas.
Proof.
  unfold vnodes. induction peers as [|p peers IH]; [done |].
  rewrite bind_cons, length_app, IH, length_fmap, length_seq. simpl. lia.
Qed.

(** X8. A ring built by [New] and [Add] calls holds one virtual-node hash
    for each of the [replicas] labels of each peer registered, equal hashes
    included: as many as peers times replicas (none when [replicas] is not
    positive), and they are the keys for which the ring records an owner. *)
Theorem ring_holds_replicas_per_peer replicas fn (adds : list (list string)) :
  let m := build replicas fn adds in
  keys m ≡ₚ (concat adds ≫= λ p,
               (λ i, uint32 (hash m (Itoa i +:+ p))) <$> seq 0 (Z.to_nat replicas)) ∧
  length (keys m) = length (concat adds) * Z.to_nat replicas ∧
  dom (hashMap m) = list_to_set (keys m) ∧
  ((replicas ≤ 0)%Z → keys m = [] ∧ hashMap m = ∅ ∧ ∀ key, Get key m = "").
Proof.
  intros m. destruct (build_spec replicas fn adds) as (Hh & Hr & Hs & Hp & Hm).
  fold m in Hh, Hr, Hs, Hp, Hm. cbv zeta in Hh, Hp, Hm.
  assert (length (keys m) = length (concat adds) * Z.to_nat replicas) as Hlen.
  { rewrite Hp, length_fmap. apply length_vnodes. }
  split_and!; [| done | |].
  - rewrite Hp, Hh. unfold vnodes. generalize (concat adds). intros ps.
    induction ps as [|p ps IH]; [done |].
    rewrite !bind_cons, fmap_app, IH, <-list_fmap_compose. done.
  - apply set_eq. intros x. rewrite elem_of_dom, elem_of_list_to_set, Hp, Hm. split.
    + intros [p Hp']. destruct (decide (x ∈ (vnodes (default ChecksumIEEE fn) replicas
                                              (concat adds)).*1)) as [|Hnin]; [done |].
      rewrite record_all_other, lookup_empty in Hp' by done. done.
    + intros Hin. destruct (record_all_lookup _ ∅ x Hin) as (p & Hp' & _). by exists p.
  - intros Hneg. replace (Z.to_nat replicas) with 0 in Hlen by lia.
    rewrite Nat.mul_0_r in Hlen. apply length_zero_iff_nil in Hlen.
    split_and!; [done | |].
    + rewrite Hm. unfold vnodes. replace (Z.to_nat replicas) with 0 by lia.
      simpl. generalize (concat adds). intros ps.
      induction ps as [|p ps IH]; [done |]. by rewrite bind_cons.
    + intros key. unfold Get. by rewrite Hlen.
Qed.

Lemma Get_registered replicas fn (adds : list (list string)) key :
  keys (build replicas fn adds) ≠ [] →
  Get key (build replicas fn adds) ∈ concat adds.
Proof.
  intros Hne. destruct (build_spec replicas fn adds) as (Hh & Hr & Hs & Hp & Hm).
  cbv zeta in *.
  destruct (Get_successor _ key Hs Hne) as (x & (Hx & _) & ->).
  rewrite Hp in Hx. destruct (record_all_lookup _ ∅ x Hx) as (p & Hp' & Hxp).
  rewrite Hm, Hp'. simpl. by eapply vnodes_peer.
Qed.

(** X9. With a positive number of replicas and at least one peer
    registered, [Get] returns a registered peer for every key, never the
    empty answer of the empty ring; with a single peer registered every key
    goes to it. *)
Theorem ring_get_returns_registered_peer replicas fn (adds : list (list string)) key :
  (0 < replicas)%Z → concat adds ≠ [] →
  Get key (build replicas fn adds) ∈ concat adds ∧
  ∀ p, (∀ q, q ∈ concat adds → q = p) → Get key (build replicas fn adds) = p.
Proof.
  intros Hr Hne.
  assert (Get key (build replicas fn adds) ∈ concat adds) as Hin.
  { apply Get_registered. intros Hnil.
    destruct (build_spec replicas fn adds) as (_ & _ & _ & Hp & _). cbv zeta in Hp.
    apply (f_equal length) in Hnil. rewrite Hp, length_fmap, length_vnodes in Hnil.
    simpl in Hnil. destruct (concat adds); [done |]. simpl in Hnil. lia. }
  split; [done |]. intros p Hall. by apply Hall.
Qed.

(** X10. Registering further peers moves keys only to those peers: after
    [Add] a key is answered as it was before, or by one of the peers just
    added. *)
Theorem ring_add_remaps_only_to_new_peers
    replicas fn (adds : list (list string)) (ps : list string) key :
  let m := build replicas fn adds in
  Get key (Add ps m) = Get key m ∨ Get key (Add ps m) ∈ ps.
Proof.
  intros m. destruct (build_spec replicas fn adds) as (Hh & Hr & Hs & Hp & Hm).
  fold m in Hh, Hr, Hs, Hp, Hm. cbv zeta in Hh, Hp, Hm.
  set (vs := vnodes (hash m) (consistenthash.replicas m) ps).
  assert (hash (Add ps m) = hash m ∧
          keys (Add ps m) = Ints (keys m ++ vs.*1) ∧
          hashMap (Add ps m) = record_all (hashMap m) vs) as (Hh' & Hk' & Hm').
  { unfold Add. by rewrite add_all_spec. }
  assert (StronglySorted Z.le (keys (Add ps m))) as Hs'
    by (rewrite Hk'; apply Ints_sorted).
  assert (∀ y, y ∈ keys (Add ps m) ↔ y ∈ keys m ∨ y ∈ vs.*1) as Hmem.
  { intros y. rewrite Hk', Ints_perm. apply elem_of_app. }
  destruct (decide (keys (Add ps m) = [])) as [Hnil|Hne'].
  - left. unfold Get at 1. rewrite Hnil. simpl.
    assert (keys m = []) as Hnil0.
    { destruct (keys m) as [|a l] eqn:Hkm; [done |].
      assert (a ∈ keys (Add ps m)) as Ha by (apply Hmem; left; left).
      rewrite Hnil in Ha. by apply elem_of_nil in Ha. }
    unfold Get. by rewrite Hnil0.
  - destruct (Get_successor (Add ps m) key Hs' Hne') as (x' & Hsucc' & HG').
    rewrite Hh' in Hsucc'. rewrite HG', Hm'.
    destruct (decide (x' ∈ vs.*1)) as [Hnew|Hold].
    + right. destruct (record_all_lookup vs (hashMap m) x' Hnew) as (p & -> & Hxp).
      simpl. by eapply vnodes_peer.
    + left. rewrite record_all_other by done.
      destruct Hsucc' as (Hx' & Hge' & Hlt').
      assert (x' ∈ keys m) as Hxm by (apply Hmem in Hx' as [?|?]; done).
      assert (keys m ≠ []) as Hne0 by (intros Hnil; rewrite Hnil in Hxm;
                                        by apply elem_of_nil in Hxm).
      destruct (Get_successor m key Hs Hne0) as (x & Hsucc & ->).
      f_equal. f_equal. apply (successor_unique (uint32 (hash m key)) (keys m)); [|done].
      split_and!; [done | |].
      * intros y Hy Hhy. apply Hge'; [|done]. apply Hmem. by left.
      * intros Hall y Hy.
        assert (∀ z, z ∈ keys (Add ps m) → (z < uint32 (hash m key))%Z) as Hall'.
        { intros z Hz. destruct (decide (z < uint32 (hash m key))%Z); [done |].
          destruct (Hge' z Hz) as [Hhx _]; [lia |].
          specialize (Hall x' Hxm). lia. }
        apply (Hlt' Hall'). apply Hmem. by left.
Qed.

Lemma record_all_last (vs : list (Z * string)) x :
  record_all ∅ vs !! x = snd <$> last (filter (λ v, v.1 = x) vs).
Proof.
  induction vs as [|v vs IH] using rev_ind; [done |].
  rewrite record_all_snoc, filter_app. destruct (decide (v.1 = x)) as [Hv|Hv].
  - rewrite filter_cons_True, filter_nil by done. rewrite last_snoc. simpl.
    rewrite <-Hv. by rewrite lookup_insert_eq.
  - rewrite filter_cons_False, filter_nil, app_nil_r by done.
    by rewrite lookup_insert_ne.
Qed.

(** X11. The owner that a ring records for a virtual-node hash is the peer
    of the last virtual node registered with that hash: when the labels of
    two peers collide, the peer registered later takes the place of the
    earlier one, while the hash is kept once for each of them in the list
    of keys. *)
Theorem ring_collision_last_peer_owns replicas fn (adds : list (list string)) (x : Z) :
  let m := build replicas fn adds in
  let vs := vnodes (hash m) replicas (concat adds) in
  hashMap m !! x = snd <$> last (filter (λ v, v.1 = x) vs) ∧
  length (filter (λ y, y = x) (keys m)) = length (filter (λ v, v.1 = x) vs).
Proof.
  intros m vs. destruct (build_spec replicas fn adds) as (Hh & Hr & Hs & Hp & Hm).
  fold m in Hh, Hr, Hs, Hp, Hm. cbv zeta in Hh, Hp, Hm.
  subst vs. rewrite Hh. split.
  - rewrite Hm. apply record_all_last.
  - rewrite Hp. generalize (vnodes (default ChecksumIEEE fn) replicas (concat adds)).
    intros vs. induction vs as [|v vs IH]; [done |].
    rewrite fmap_cons. destruct (decide (v.1 = x)).
    + rewrite !filter_cons_True by done. simpl. by rewrite IH.
    + by rewrite !filter_cons_False by done.
Qed.

(** *** The order in which peers are added *)

Lemma record_all_list_to_map (vs : list (Z * string)) :
  record_all ∅ vs = list_to_map (reverse vs).
Proof.
  induction vs as [|[x q] vs IH] using rev_ind; [done |].
  rewrite record_all_snoc, reverse_snoc, IH. done.
Qed.

Lemma vnodes_perm hash replicas ps1 ps2 :
  ps1 ≡ₚ ps2 → vnodes hash replicas ps1 ≡ₚ vnodes hash replicas ps2.
Proof. unfold vnodes. by intros ->. Qed.

(** X20. When no two virtual nodes of the peers have the same hash, the
    ring does not depend on the order in which the peers are added, nor on
    how they are spread over [Add] calls: rings of the same peers are the
    same ring, and [Get] gives the same owner for every key. *)
Theorem ring_order_irrelevant_without_collisions
    replicas fn (adds1 adds2 : list (list string)) :
  concat adds1 ≡ₚ concat adds2 →
  NoDup (vnodes (default ChecksumIEEE fn) replicas (concat adds1)).*1 →
  build replicas fn adds1 = build replicas fn adds2 ∧
  ∀ key, Get key (build replicas fn adds1) = Get key (build replicas fn adds2).
Proof.
  intros Hperm Hnd.
  assert (build replicas fn adds1 = build replicas fn adds2) as Heq; [|by rewrite Heq].
  destruct (build_spec replicas fn adds1) as (Hh1 & Hr1 & Hs1 & Hp1 & Hm1).
  destruct (build_spec replicas fn adds2) as (Hh2 & Hr2 & Hs2 & Hp2 & Hm2).
  cbv zeta in *.
  pose proof (vnodes_perm (default ChecksumIEEE fn) replicas _ _ Hperm) as Hv.
  assert (keys (build replicas fn adds1) = keys (build replicas fn adds2)) as Hk.
  { apply sorted_perm_unique; [done | done |]. by rewrite Hp1, Hp2, Hv. }
  assert (hashMap (build replicas fn adds1) = hashMap (build replicas fn adds2)) as Hm.
  { rewrite Hm1, Hm2, !record_all_list_to_map.
    apply list_to_map_proper.
    - by rewrite fmap_reverse, reverse_Permutation.
    - by rewrite !reverse_Permutation, Hv. }
  destruct (build replicas fn adds1), (build replicas fn adds2).
  simpl in *. congruence.
Qed.

End ring_more.

(** ** Cache wrappers, groups and the registry *)

Module group_more.
Import geecache group_facts.

Lemma add_allocates key value c c' :
  add key value c = Returns c' → is_Some (lru c') ∧ cacheBytes c' = cacheBytes c.
Proof.
  unfold add.
  destruct (lru.Add key value _ tt) as [[l' ?]|]; [|done].
  intros [= <-]. simpl. split; [by eexists | done].
Qed.

Lemma get_allocation key c :
  lru (get key c).2 = None ↔ lru c = None.
Proof.
  unfold get. destruct c as [[l|] cb]; simpl; [|done].
  by destruct (lru.Get key l) as [[v|] l'].
Qed.

Lemma get_cacheBytes key c : cacheBytes (get key c).2 = cacheBytes c.
Proof.
  unfold get. destruct c as [[l|] cb]; simpl; [|done].
  by destruct (lru.Get key l) as [[v|] l'].
Qed.

(** X12. A cache wrapper allocates its store on the first [add] and not
    before: after any calls that have returned, the store is still absent
    exactly when no [add] was among them, and then every [get] misses;
    once allocated the store has the capacity of the wrapper, its list and
    index agree and its byte counter is the sum over its entries. *)
Theorem cache_wrapper_allocates_on_first_add (ops : list cache_op) (cb : Z) c' :
  cache_calls ops {| lru := None; cacheBytes := cb |} = Returns c' →
  cacheBytes c' = cb ∧ cache_ok c' ∧
  (lru c' = None ↔ Forall (λ o, is_add o = false) ops) ∧
  (lru c' = None → ∀ key, get key c' = (None, c')).
Proof.
  assert (∀ c, cache_ok c → cache_calls ops c = Returns c' →
               cacheBytes c' = cacheBytes c ∧ cache_ok c' ∧
               (lru c' = None ↔ lru c = None ∧ Forall (λ o, is_add o = false) ops))
    as Hgen.
  { induction ops as [|o ops IH]; intros c Hok; simpl.
    - intros [= <-]. split_and!; [done | done |]. split; [done | by intros [? _]].
    - destruct (cache_call o c) as [c1| |] eqn:Hc; [|done..]. intros Hrest.
      destruct o as [key value|key]; simpl in Hc.
      + destruct (add_allocates key value c c1 Hc) as [[l1 Hl1] Hcb].
        destruct (IH c1 (add_ok key value c c1 Hok Hc) Hrest) as (-> & Hok' & Hiff).
        split_and!; [done | done |]. rewrite Hiff, Hl1, Forall_cons. simpl.
        split; [by intros [? _] | by intros [_ [? _]]].
      + injection Hc as <-.
        destruct (IH _ (get_ok key c Hok) Hrest) as (-> & Hok' & Hiff).
        split_and!; [apply get_cacheBytes | done |].
        rewrite Hiff, get_allocation, Forall_cons. simpl. naive_solver. }
  intros Hrun.
  destruct (Hgen {| lru := None; cacheBytes := cb |} I Hrun) as (Hcb & Hok & Hiff).
  simpl in *.
  split_and!; [done | done | |].
  - rewrite Hiff. naive_solver.
  - intros Hnone key. unfold get. by rewrite Hnone.
Qed.

Section more.
Context {W error : Type} (Errorf : string → error) (Error : error → string).
Implicit Types (g : Group W error) (w : W).

Lemma getLocally_fields key g w r g' w' :
  getLocally key g w = Returns (r, g', w') →
  name g' = name g ∧ getter g' = getter g ∧ peers g' = peers g ∧
  cacheBytes (mainCache g') = cacheBytes (mainCache g).
Proof.
  unfold getLocally, populateCache.
  destruct (getter g key w) as [[bytes [err|]] w1]; [by intros [= _ <- _] |].
  destruct (add key (mkByteView (cloneBytes bytes)) (mainCache g)) as [c2| |] eqn:Hadd;
    [|done..].
  intros [= _ <- _]. simpl. split_and!; try done.
  by destruct (add_allocates _ _ _ _ Hadd).
Qed.

(** [Get] changes nothing of a group but its cache. *)
Lemma Get_fields key g w r g' w' :
  Get Errorf key g w = Returns (r, g', w') →
  name g' = name g ∧ getter g' = getter g ∧ peers g' = peers g ∧
  cacheBytes (mainCache g') = cacheBytes (mainCache g).
Proof.
  unfold Get. case_decide; [by intros [= _ <- _] |].
  pose proof (get_cacheBytes key (mainCache g)) as Hcb.
  destruct (get key (mainCache g)) as [[v|] c1]; simpl in Hcb; [by intros [= _ <- _] |].
  assert (∀ w0, getLocally key (with_mainCache g c1) w0 = Returns (r, g', w') →
                name g' = name g ∧ getter g' = getter g ∧ peers g' = peers g ∧
                cacheBytes (mainCache g') = cacheBytes (mainCache g)) as Hloc.
  { intros w0 (? & ? & ? & ?)%getLocally_fields. simpl in *.
    split_and!; congruence. }
  unfold load, getFromPeer.
  destruct (peers (with_mainCache g c1)) as [picker|]; [|apply Hloc].
  destruct (picker key w) as [[peer|] s1]; [|apply Hloc].
  destruct (peer (name (with_mainCache g c1)) key s1) as [[bytes [err|]] s2];
    [apply Hloc |].
  by intros [= _ <- _].
Qed.

Lemma Gets_keep (keys : list string) g w g' w' :
  cache_ok (mainCache g) →
  Gets Errorf keys g w = Returns (g', w') →
  cache_ok (mainCache g') ∧
  name g' = name g ∧ getter g' = getter g ∧ peers g' = peers g ∧
  cacheBytes (mainCache g') = cacheBytes (mainCache g).
Proof.
  revert g w. induction keys as [|key keys IH]; intros g w Hok; simpl.
  - by intros [= <- <-].
  - destruct (Get Errorf key g w) as [[[r g1] w1]| |] eqn:HG; [|done..].
    intros Hrest.
    destruct (Get_fields key g w r g1 w1 HG) as (Hn & Hg & Hp & Hcb).
    destruct (IH g1 w1 (Get_ok Errorf g g1 key w r w1 Hok HG) Hrest)
      as (? & ? & ? & ? & ?).
    split_and!; congruence.
Qed.

(** X13. Whatever keys a group is asked for, once the calls have returned
    the group has the name, the loader, the peer picker and the capacity it
    had; only its cache has changed, and the cache still satisfies its
    invariant: store allocated with the capacity of the wrapper, list and
    index in agreement, byte counter equal to the sum over the entries. *)
Theorem gets_change_only_the_cache (keys : list string) g w g' w' :
  cache_ok (mainCache g) →
  Gets Errorf keys g w = Returns (g', w') →
  name g' = name g ∧ getter g' = getter g ∧ peers g' = peers g ∧
  cacheBytes (mainCache g') = cacheBytes (mainCache g) ∧
  cache_ok (mainCache g').
Proof.
  intros Hok Hrun.
  destruct (Gets_keep keys g w g' w' Hok Hrun) as (? & ? & ? & ? & ?).
  by split_and!.
Qed.

(** X14. A peer picker can be registered once: [RegisterPeers] with a
    picker, on a group without one, returns the group with that picker and
    nothing else changed, and from then on, whatever keys the group has
    been asked for in between, a further [RegisterPeers] panics, whatever
    its argument.  [RegisterPeers] with the nil picker leaves a group
    without picker as it is, so that it can be called again. *)
Theorem register_peers_only_once (picker : @PeerPicker W error)
    (later : option (@PeerPicker W error)) (keys : list string) g w :
  peers g = None → cache_ok (mainCache g) →
  RegisterPeers None g = Returns g ∧
  ∃ g1, RegisterPeers (Some picker) g = Returns g1 ∧
        peers g1 = Some picker ∧ name g1 = name g ∧ getter g1 = getter g ∧
        mainCache g1 = mainCache g ∧
        ∀ g2 w2, Gets Errorf keys g1 w = Returns (g2, w2) →
                 RegisterPeers later g2
                 = Panics "RegisterPeerPicker called more than once".
Proof.
  intros Hp Hok. split.
  - unfold RegisterPeers. rewrite Hp. destruct g; simpl in *. by subst.
  - unfold RegisterPeers at 1. rewrite Hp. eexists. split; [done |].
    simpl. split_and!; try done.
    intros g2 w2 Hrun.
    destruct (Gets_keep keys _ w g2 w2 (Hok : cache_ok (mainCache
      {| name := name g; getter := getter g; mainCache := mainCache g;
         peers := Some picker |})) Hrun) as (_ & _ & _ & Hp2 & _).
    simpl in Hp2. unfold RegisterPeers. by rewrite Hp2.
Qed.

Lemma NewGroups_cons name cb (getter : @Getter W error) regs groups :
  NewGroups ((name, cb, Some getter) :: regs) groups
  = NewGroups regs (<[name := fresh_group name cb getter]> groups).
Proof. done. Qed.

(** X15. The registry answers a name with the group of the most recent
    [NewGroup] call for that name, a group with an unallocated cache of
    the capacity given and without peer picker, and answers every other
    name as before; a [NewGroup] without loader panics. *)
Theorem registry_returns_latest_group
    (regs : list (string * Z * option (@Getter W error)))
    (groups : gmap string (Group W error)) :
  (Forall (λ r, is_Some r.2) regs →
     ∃ groups',
       NewGroups regs groups = Returns groups' ∧
       ∀ n, GetGroup n groups'
            = match last (filter (λ r, r.1.1 = n) regs) with
              | Some (_, cb, Some getter) => Some (fresh_group n cb getter)
              | _ => GetGroup n groups
              end) ∧
  (¬ Forall (λ r, is_Some r.2) regs → NewGroups regs groups = Panics "nil Getter").
Proof.
  revert groups. induction regs as [|[[name cb] getter] regs IH]; intros groups.
  - split; [|intros Hn; destruct Hn; constructor].
    intros _. exists groups. by split.
  - destruct getter as [getter|].
    + rewrite NewGroups_cons.
      destruct (IH (<[name := fresh_group name cb getter]> groups)) as [IH1 IH2].
      split.
      * intros [_ Hall]%Forall_cons. destruct (IH1 Hall) as (groups' & -> & Hlk).
        exists groups'. split; [done |]. intros n. rewrite Hlk.
        destruct (decide (name = n)) as [->|Hne].
        -- rewrite filter_cons_True by done.
           destruct (filter (λ r, r.1.1 = n) regs) as [|r rs] eqn:Hf using rev_ind.
           ++ simpl. unfold GetGroup. by rewrite lookup_insert_eq.
           ++ rewrite app_comm_cons, !last_snoc. destruct r as [[? ?] [?|]]; [done |].
              unfold GetGroup. (* the last registration has no loader *)
              assert ((s, z, None) ∈ regs) as Hin.
              { apply (list_elem_of_filter (λ r, r.1.1 = n) regs).
                rewrite Hf. set_solver. }
              apply (proj1 (Forall_forall _ _) Hall) in Hin. by destruct Hin.
        -- rewrite filter_cons_False by done.
           destruct (last (filter (λ r, r.1.1 = n) regs)) as [[[? ?] [?|]]|];
             unfold GetGroup; by rewrite ?lookup_insert_ne.
      * intros Hn. apply IH2. intros Hall. apply Hn. constructor; [by eexists | done].
    + split; [intros [[? ?] _]%Forall_cons; done | done].
Qed.

(** *** Hits, loads and capacity *)

Lemma get_fst key (c : cache) :
  (get key c).1 = match lru c with
                  | Some l => (lru.Get key l).1
                  | None => None
                  end.
Proof.
  unfold get. destruct (lru c) as [l|]; [|done].
  by destruct (lru.Get key l) as [[v|] l'].
Qed.

Lemma get_get key key' (c : cache) :
  cache_ok c → (get key' (get key c).2).1 = (get key' c).1.
Proof.
  intros Hok. rewrite !get_fst. unfold get, cache_ok in *.
  destruct c as [[l|] cb]; simpl in *; [|done]. destruct Hok as (Hwf & _).
  pose proof (lru_more.Get_Get key key' l Hwf) as HGG.
  by destruct (lru.Get key l) as [[v|] l'].
Qed.

Lemma add_returns key (value : ByteView) (c : cache) :
  cache_ok c → (0 ≤ cacheBytes c)%Z → ∃ c', add key value c = Returns c'.
Proof.
  intros Hok Hcb. unfold add.
  set (l := match lru c with
            | Some l => l
            | None => lru.New (cacheBytes c) None
            end).
  assert (lru.wf l ∧ lru.maxBytes l = cacheBytes c ∧ lru.tallied l)
    as (Hwf & Hm & Ht).
  { unfold cache_ok in *. subst l. destruct (lru c) as [l|]; [done |].
    split_and!; [apply lru_facts.New_wf | done | apply lru_facts.New_tallied]. }
  destruct (decide (cacheBytes c = 0%Z)) as [H0|H0].
  - rewrite lru_facts.Add_unbounded by congruence. by eexists.
  - destruct (lru_facts.Add_bounded key value l tt Hwf Ht) as (l' & gone & -> & _);
      [lia | by eexists].
Qed.

(** X16. A key that the cache holds is served from it: [Get] returns the
    cached value without error and leaves the world outside the group as
    it is, so that neither the loader nor a peer picker nor a peer is
    called; afterwards the cache answers every key as before. *)
Theorem cached_key_served_without_loader key v g w :
  key ≠ "" → cache_ok (mainCache g) →
  (get key (mainCache g)).1 = Some v →
  ∃ g', Get Errorf key g w = Returns ((v, None), g', w) ∧
        cache_ok (mainCache g') ∧
        ∀ key', (get key' (mainCache g')).1 = (get key' (mainCache g)).1.
Proof.
  intros Hkey Hok Hhit. unfold Get. rewrite decide_False by done.
  pose proof (get_ok key (mainCache g) Hok) as Hok'.
  pose proof (λ key', get_get key key' (mainCache g) Hok) as Hgg.
  destruct (get key (mainCache g)) as [[v'|] c1]; simpl in *; [|done].
  injection Hhit as ->. by eexists.
Qed.

(** X17. In a group of non-negative capacity, a key that the cache misses
    and that no peer serves is loaded: [Get] returns the bytes of the
    loader, whether the cache can hold them or not, and the cache keeps its
    invariant.  When it can hold them, the next [Get] of the key is served
    from the cache, in whatever state the world is, without loader, picker
    or peer. *)
Theorem loaded_value_returned_and_cached key g w w1 bytes w2 :
  key ≠ "" → cache_ok (mainCache g) →
  (get key (mainCache g)).1 = None →
  fallback key g w = Some w1 →
  getter g key w1 = ((bytes, None), w2) →
  (0 ≤ cacheBytes (mainCache g))%Z →
  ∃ g1,
    Get Errorf key g w = Returns ((mkByteView bytes, None), g1, w2) ∧
    cache_ok (mainCache g1) ∧ peers g1 = peers g ∧ getter g1 = getter g ∧
    (cacheBytes (mainCache g) = 0%Z ∨
     (len key + Z.of_nat (length bytes) ≤ cacheBytes (mainCache g)
      ∧ cacheBytes (mainCache g) ≤ Int64.max_int)%Z →
     ∀ w', ∃ g2, Get Errorf key g1 w' = Returns ((mkByteView bytes, None), g2, w')).
Proof.
  intros Hkey Hok Hmiss Hfb Hload Hcb.
  destruct (add_returns key (mkByteView bytes) (mainCache g) Hok Hcb) as [c1 Hadd].
  exists (with_mainCache g c1).
  split_and!; [| by eapply add_ok | done | done |].
  - rewrite Get_miss_load, (load_fallback key g w w1) by done.
    unfold getLocally, populateCache. by rewrite Hload, cloneBytes_id, Hadd.
  - intros Hfit w'.
    destruct (add_front key (mkByteView bytes) (mainCache g) Hok)
      as (c1' & Hadd' & _ & _ & Hget).
    { destruct Hfit as [?|[? ?]]; [by left | right].
      assert (0 < len key)%Z by (unfold len; destruct key; [done | simpl; lia]).
      unfold ByteView_Len. simpl. split_and!; [lia | done | done]. }
    rewrite Hadd in Hadd'. injection Hadd' as <-.
    unfold Get. rewrite decide_False by done. simpl.
    destruct (get key c1) as [[v|] c2]; simpl in *; [|done].
    injection Hget as ->. by eexists.
Qed.

(** X18. In a group of negative capacity that has cached nothing yet, a
    [Get] that comes to load a value never returns: the store is created
    with the negative bound, and the eviction loop of its [Add] cannot get
    the byte counter below it. *)
Theorem negative_capacity_get_hangs key g w w1 bytes w2 :
  key ≠ "" → lru (mainCache g) = None →
  (cacheBytes (mainCache g) < 0)%Z →
  fallback key g w = Some w1 →
  getter g key w1 = ((bytes, None), w2) →
  (len key + Z.of_nat (length bytes) ≤ Int64.max_int)%Z →
  Get Errorf key g w = Hangs.
Proof.
  intros Hkey Hnone Hneg Hfb Hload Hfit.
  assert ((get key (mainCache g)).1 = None) as Hmiss
    by (unfold get; by rewrite Hnone).
  rewrite Get_miss_load, (load_fallback key g w w1) by done.
  unfold getLocally, populateCache, add. rewrite Hload, cloneBytes_id, Hnone.
  unfold lru.Add. rewrite lru_more.Add_negative; [done | | | done | |].
  - apply lru_facts.New_wf.
  - apply lru_facts.New_accounted.
  - unfold lru.Len, ByteView_Value, ByteView_Len. lia.
  - unfold lru.Len, ByteView_Value, ByteView_Len. simpl. lia.
Qed.

(** *** The endpoint and the registry *)

(** X19. Whatever the request, a [ServeHTTP] that returns answers with one
    of four statuses, registers no group and drops none, and changes
    nothing of a group but its cache, whose invariant it keeps; when the
    answer is bad-request or not-found, registry and world are as they
    were. *)
Theorem serve_changes_only_caches
    (p : HTTPPool) (path : string) (groups groups' : gmap string (Group W error))
    (w w' : W) (resp : response) :
  ServeHTTP Errorf Error p path groups w = Returns (resp, groups', w') →
  status resp ∈ [StatusOK; StatusBadRequest; StatusNotFound; StatusInternalServerError] ∧
  (status resp = StatusBadRequest ∨ status resp = StatusNotFound →
     groups' = groups ∧ w' = w) ∧
  ∀ n, match groups !! n, groups' !! n with
       | Some g, Some g' =>
           name g' = name g ∧ getter g' = getter g ∧ peers g' = peers g ∧
           cacheBytes (mainCache g') = cacheBytes (mainCache g) ∧
           (cache_ok (mainCache g) → cache_ok (mainCache g'))
       | None, None => True
       | _, _ => False
       end.
Proof.
  assert (∀ n, match groups !! n, groups !! n with
               | Some g, Some g' =>
                   name g' = name g ∧ getter g' = getter g ∧ peers g' = peers g ∧
                   cacheBytes (mainCache g') = cacheBytes (mainCache g) ∧
                   (cache_ok (mainCache g) → cache_ok (mainCache g'))
               | None, None => True
               | _, _ => False
               end) as Hsame.
  { intros n. by destruct (groups !! n). }
  assert (∀ gn key group r group1,
            groups !! gn = Some group →
            Get Errorf key group w = Returns (r, group1, w') →
            ∀ n, match groups !! n, <[gn := group1]> groups !! n with
                 | Some g, Some g' =>
                     name g' = name g ∧ getter g' = getter g ∧ peers g' = peers g ∧
                     cacheBytes (mainCache g') = cacheBytes (mainCache g) ∧
                     (cache_ok (mainCache g) → cache_ok (mainCache g'))
                 | None, None => True
                 | _, _ => False
                 end) as Hupd.
  { intros gn key group r group1 Hgn HG n.
    destruct (decide (gn = n)) as [<-|Hne].
    - rewrite Hgn, lookup_insert_eq.
      destruct (Get_fields key group w r group1 w' HG) as (? & ? & ? & ?).
      split_and!; try done. intros Hok. by eapply Get_ok.
    - rewrite lookup_insert_ne by done. apply Hsame. }
  unfold ServeHTTP. destruct (negb (HasPrefix path (basePath p))); [done |].
  destruct (SplitN _ "/" 2) as [|gn [|key [|? ?]]];
    try (intros [= <- <- <-]; split_and!; [set_solver | done | done]).
  unfold GetGroup. destruct (groups !! gn) as [group|] eqn:Hgn;
    [|intros [= <- <- <-]; split_and!; [set_solver | done | done]].
  destruct (Get Errorf key group w) as [[[[view [err|]] group1] w1]| |] eqn:HG;
    [| |done..]; intros [= <- <- <-].
  - split_and!; [set_solver | by intros [?|?] | by eapply Hupd].
  - split_and!; [set_solver | by intros [?|?] | by eapply Hupd].
Qed.

End more.

(** *** The peers of a pool *)

Lemma Set_ring peers p :
  pool_peers (Set_ peers p) = Some (consistenthash.build defaultReplicas None [peers]).
Proof. done. Qed.

Lemma httpGetters_Set peers p peer :
  peer ∈ peers →
  httpGetters (Set_ peers p) !! peer = Some (mkhttpGetter (peer +:+ basePath (pool p))).
Proof.
  unfold Set_. simpl. induction peers as [|q peers IH] using rev_ind.
  - by intros ?%elem_of_nil.
  - rewrite foldl_app. simpl. destruct (decide (q = peer)) as [->|Hne].
    + intros _. by rewrite lookup_insert_eq.
    + rewrite lookup_insert_ne by done. intros Hin. apply IH.
      apply elem_of_app in Hin as [Hin|Hin]; [done |].
      by apply list_elem_of_singleton in Hin.
Qed.

Lemma owner_registered peers key :
  let owner := consistenthash.Get key (consistenthash.build defaultReplicas None [peers]) in
  (peers = [] → owner = "") ∧
  (peers ≠ [] → owner ∈ peers).
Proof.
  set (m := consistenthash.build defaultReplicas None [peers]).
  destruct (ring_facts.build_spec defaultReplicas None [peers]) as (_ & _ & _ & Hp & _).
  cbv zeta in Hp. fold m in Hp. simpl in Hp. rewrite app_nil_r in Hp.
  pose proof (ring_more.length_vnodes consistenthash.ChecksumIEEE defaultReplicas peers)
    as Hlen.
  apply Permutation_length in Hp. rewrite length_fmap, Hlen in Hp.
  split.
  - intros ->. simpl in Hp. unfold consistenthash.Get. by rewrite decide_True.
  - intros Hne.
    pose proof (ring_more.Get_registered defaultReplicas None [peers] key) as Hreg.
    fold m in Hreg. simpl in Hreg. rewrite app_nil_r in Hreg. apply Hreg.
    intros Hk. rewrite Hk in Hp. simpl in Hp.
    destruct peers; [done |]. simpl in Hp. unfold defaultReplicas in Hp. lia.
Qed.

(** X21. Before [Set] a pool has no ring, and [PickPeer] panics.  After
    [Set] it returns for every key: either no getter and [false], or
    [true] with the getter of a peer that was given to [Set], that is
    neither the empty address nor the pool's own, and whose base address
    is the address of that peer followed by the base path; with [true] the
    getter is never missing.  With no peer given it is always [false]. *)
Theorem pick_peer_returns_registered_getter (peers : list string) (p : PeerPool) key :
  (∀ self, PickPeer key (NewPeerPool self)
           = Panics "runtime error: invalid memory address or nil pointer dereference") ∧
  (∃ r, PickPeer key (Set_ peers p) = Returns r ∧
        match r with
        | (Some h, true) =>
            ∃ peer, peer ∈ peers ∧ peer ≠ "" ∧ peer ≠ self (pool p) ∧
                    h = mkhttpGetter (peer +:+ basePath (pool p))
        | (None, false) => True
        | _ => False
        end ∧
        (peers = [] → r = (None, false))).
Proof.
  split; [done |]. unfold PickPeer. rewrite Set_ring.
  destruct (owner_registered peers key) as [Hnil Hreg]. cbv zeta in *.
  set (owner := consistenthash.Get key _) in *.
  change (self (pool (Set_ peers p))) with (self (pool p)).
  case_decide as Hd.
  - destruct Hd as [Hne Hself].
    assert (peers ≠ []) as Hps by (intros Hps; by apply Hne, Hnil).
    eexists. split; [done |]. rewrite (httpGetters_Set peers p owner) by auto.
    split; [|done]. exists owner. by split_and!; [apply Hreg | ..].
  - eexists. by split.
Qed.


(** *** The address of a request to a peer *)

Lemma escaped_char c :
  shouldEscape c = true → c ≠ " "%char →
  ishex (upperhex (nat_of_ascii c / 16)) && ishex (upperhex (nat_of_ascii c mod 16)) = true ∧
  ascii_of_nat (unhex (upperhex (nat_of_ascii c / 16)) * 16
                + unhex (upperhex (nat_of_ascii c mod 16))) = c.
Proof.
  destruct c as [[] [] [] [] [] [] [] []]; vm_compute; intros H1 H2; done.
Qed.

Lemma plain_char c :
  shouldEscape c = false → c ≠ "%"%char ∧ c ≠ "/"%char ∧ c ≠ " "%char.
Proof.
  destruct c as [[] [] [] [] [] [] [] []]; vm_compute; intros H1; done.
Qed.

Lemma PathUnescape_plain c s :
  c ≠ "%"%char → PathUnescape (String c s) = String c <$> PathUnescape s.
Proof. intros Hc. simpl. by case_decide. Qed.

Lemma PathUnescape_escape a b s :
  PathUnescape (String "%" (String a (String b s)))
  = if ishex a && ishex b
    then String (ascii_of_nat (unhex a * 16 + unhex b)) <$> PathUnescape s
    else None.
Proof. done. Qed.

Lemma str_app_nil_l (r : string) : "" +:+ r = r.
Proof. done. Qed.

Lemma str_app_cons a (s r : string) : String a s +:+ r = String a (s +:+ r).
Proof. done. Qed.

Lemma str_app_nil_r (s : string) : s +:+ "" = s.
Proof. induction s as [|a s IH]; [done | by rewrite str_app_cons, IH]. Qed.

Lemma str_app_assoc (s1 s2 s3 : string) : (s1 +:+ s2) +:+ s3 = s1 +:+ s2 +:+ s3.
Proof. induction s1 as [|a s1 IH]; [done | by rewrite !str_app_cons, IH]. Qed.

Lemma PathUnescape_QueryEscape s rest :
  PathUnescape (QueryEscape s +:+ rest)
  = (λ r, plus_for_space s +:+ r) <$> PathUnescape rest.
Proof.
  induction s as [|c s IH].
  - cbn [QueryEscape plus_for_space]. rewrite str_app_nil_l.
    by destruct (PathUnescape rest).
  - cbn [QueryEscape plus_for_space]. destruct (shouldEscape c) eqn:Hesc.
    + destruct (decide (c = " "%char)) as [->|Hsp].
      * rewrite str_app_cons, PathUnescape_plain, IH by done.
        by destruct (PathUnescape rest).
      * destruct (escaped_char c Hesc Hsp) as [Hhex Hc].
        rewrite !str_app_cons, PathUnescape_escape, Hhex, Hc, IH.
        by destruct (PathUnescape rest).
    + destruct (plain_char c Hesc) as (Hpct & _ & Hsp).
      rewrite decide_False by done.
      rewrite str_app_cons, PathUnescape_plain, IH by done.
      by destruct (PathUnescape rest).
Qed.

Lemma PathUnescape_nil_r s :
  PathUnescape (QueryEscape s) = Some (plus_for_space s).
Proof.
  pose proof (PathUnescape_QueryEscape s "") as H.
  by rewrite str_app_nil_r in H; simpl in H; rewrite str_app_nil_r in H.
Qed.

Lemma Cut_append sep a rest :
  Cut sep a = None → Cut sep (a +:+ String sep rest) = Some (a, rest).
Proof.
  induction a as [|c a IH].
  - intros _. rewrite str_app_nil_l. simpl. by rewrite decide_True.
  - rewrite str_app_cons. simpl. case_decide; [done |].
    destruct (Cut sep a) as [[? ?]|]; [done |].
    intros _. by rewrite IH.
Qed.

Lemma Cut_plus_for_space s :
  Cut "/" s = None → Cut "/" (plus_for_space s) = None.
Proof.
  induction s as [|c s IH]; simpl; [done |].
  case_decide as Hc; [done |]. destruct (Cut "/" s) as [[? ?]|]; [done |].
  intros _. rewrite IH by done.
  rewrite decide_False; [done |]. by case_decide.
Qed.

Lemma plus_for_space_id s : Cut " " s = None → plus_for_space s = s.
Proof.
  induction s as [|c s IH]; simpl; [done |].
  case_decide as Hc; [done |]. destruct (Cut " " s) as [[? ?]|]; [done |].
  intros _. by rewrite IH.
Qed.

(** X23. The address that [httpGetter.Get] builds for a group and a key
    is the address of the peer followed by a path that, decoded as the
    server decodes the path of a request, begins with the base path and
    continues with the group, a separator and the key, both with a [+] in
    the place of each space.  When the group name has no separator,
    [ServeHTTP] splits what follows the base path into exactly these two;
    when moreover neither has a space, into the group and the key that
    were asked for. *)
Theorem peer_request_names_group_and_key (peer group key : string) :
  let h := mkhttpGetter (peer +:+ defaultBasePath) in
  let path := defaultBasePath +:+ plus_for_space group
              +:+ String "/" (plus_for_space key) in
  request_url h group key = peer +:+ request_path defaultBasePath group key ∧
  PathUnescape (request_path defaultBasePath group key) = Some path ∧
  HasPrefix path defaultBasePath = true ∧
  (Cut "/" group = None →
     SplitN (slice_from (String.length defaultBasePath) path) "/" 2
     = [plus_for_space group; plus_for_space key]) ∧
  (Cut "/" group = None → Cut " " group = None → Cut " " key = None →
     SplitN (slice_from (String.length defaultBasePath) path) "/" 2 = [group; key]).
Proof.
  cbv zeta.
  assert (Cut "/" group = None →
          SplitN (slice_from (String.length defaultBasePath)
                    (defaultBasePath +:+ plus_for_space group
                     +:+ String "/" (plus_for_space key))) "/" 2
          = [plus_for_space group; plus_for_space key]) as Hsplit.
  { intros Hg. rewrite SplitN_two. unfold defaultBasePath.
    rewrite !str_app_cons, str_app_nil_l. simpl.
    by rewrite Cut_append by (by apply Cut_plus_for_space). }
  split_and!.
  - unfold request_url, request_path. simpl. by rewrite str_app_assoc.
  - unfold request_path, defaultBasePath.
    rewrite !str_app_cons, str_app_nil_l, !PathUnescape_plain by done.
    rewrite PathUnescape_QueryEscape, PathUnescape_plain, PathUnescape_nil_r by done.
    done.
  - unfold defaultBasePath, HasPrefix. rewrite !str_app_cons, str_app_nil_l.
    simpl. by destruct (plus_for_space group +:+ String "/" (plus_for_space key)).
  - done.
  - intros Hg Hsg Hsk. rewrite Hsplit by done. by rewrite !plus_for_space_id.
Qed.

Lemma HasPrefix_default rest : HasPrefix (defaultBasePath +:+ rest) defaultBasePath = true.
Proof.
  unfold defaultBasePath, HasPrefix. rewrite !str_app_cons, str_app_nil_l.
  simpl. by destruct rest.
Qed.

Lemma slice_from_default rest :
  slice_from (String.length defaultBasePath) (defaultBasePath +:+ rest) = rest.
Proof. unfold defaultBasePath. by rewrite !str_app_cons, str_app_nil_l. Qed.

Section agreement.
Context {W error : Type} (Errorf : string → error) (Error : error → string).

(** X25. A group without peer picker behaves as the groups of
    3_http-server, which had none: [Get] of any key returns the same value
    or error, leaves the same cache and the same world, and hangs when the
    other hangs. *)
Theorem group_without_picker_as_before key (g : Group W error) (w : W) :
  peers g = None →
  geecache3.Get Errorf key (geecache3.forget g) w
  = match Get Errorf key g w with
    | Returns (r, g', w') => Returns (r, geecache3.forget g', w')
    | Panics msg => Panics msg
    | Hangs => Hangs
    end.
Proof.
  intros Hp. unfold geecache3.Get, Get. case_decide; [done |].
  unfold geecache3.forget at 1. simpl.
  destruct (get key (mainCache g)) as [[v|] c]; [done |].
  unfold load, geecache3.load, geecache3.getLocally, getLocally. simpl. rewrite Hp.
  destruct (getter g key w) as [[bytes [err|]] w1]; [done |].
  unfold geecache3.populateCache, populateCache. simpl.
  by destruct (add key (mkByteView (cloneBytes bytes)) c).
Qed.

(** X26. The two doors to a group agree: for a group registered under a
    name without separator, the peer endpoint asked for the base path, the
    name, a separator and a key answers with the status, the content type
    and the body with which the [/api] handler of main.go answers for that
    key, and leaves the same world; the registry holds the group as the
    handler leaves it. *)
Theorem api_and_endpoint_agree self gname key (g : Group W error)
    (groups : gmap string (Group W error)) (w : W) :
  groups !! gname = Some g → Cut "/" gname = None →
  ServeHTTP Errorf Error (NewHTTPPool self)
    (defaultBasePath +:+ gname +:+ String "/" key) groups w
  = match demo.api_handler Errorf Error key g w with
    | Returns (resp, g', w') => Returns (resp, <[gname := g']> groups, w')
    | Panics msg => Panics msg
    | Hangs => Hangs
    end.
Proof.
  intros Hg Hcut. unfold ServeHTTP, demo.api_handler.
  change (basePath (NewHTTPPool self)) with defaultBasePath.
  rewrite HasPrefix_default, slice_from_default, SplitN_two, Cut_append by done.
  simpl. unfold GetGroup. rewrite Hg.
  by destruct (Get Errorf key g w) as [[[[view [err|]] g'] w']| |].
Qed.

End agreement.

(** *** Read-only views *)

Lemma length_string_of_list_byte (bs : list byte) :
  String.length (String.string_of_list_byte bs) = length bs.
Proof.
  unfold String.string_of_list_byte.
  induction bs as [|x bs IH]; simpl; [done | by rewrite IH].
Qed.

(** X24. The three readings of a [ByteView] agree: [ByteSlice] returns the
    bytes held, [String] the text of these bytes, and [Len] the length of
    both; the view of the bytes of a text reads back as that text. *)
Theorem byteview_readings_agree (v : ByteView) :
  ByteSlice v = b v ∧
  String.list_byte_of_string (String_ v) = ByteSlice v ∧
  ByteView_Len v = Z.of_nat (length (ByteSlice v)) ∧
  ByteView_Len v = len (String_ v) ∧
  ∀ s, String_ (mkByteView (String.list_byte_of_string s)) = s.
Proof.
  unfold ByteSlice, String_, ByteView_Len, len. rewrite cloneBytes_id.
  split_and!; [done | | done | |].
  - apply String.list_byte_of_string_of_list_byte.
  - by rewrite length_string_of_list_byte.
  - intros s. simpl. apply String.string_of_list_byte_of_string.
Qed.

End group_more.

(** ** Runs of the further properties *)

Module more_runs.
Import geecache demo.

Lemma busy_store_run :
  lru.calls busy_ops (lru.New 10 (Some record_evicted)) []
  = Some (busy_store.1, busy_store.2).
Proof. by vm_compute. Qed.

Lemma scores_after_run :
  Gets Errorf ["Tom"; "kkk"; "Tom"] (scores 2048) tt = Returns (scores_after, tt).
Proof. by vm_compute. Qed.

Lemma scores_after_ok : cache_ok (mainCache scores_after).
Proof.
  by destruct (group_more.Gets_keep Errorf _ _ _ _ _ (I : cache_ok (mainCache (scores 2048)))
                 scores_after_run) as [? _].
Qed.

Lemma invariants_after_any_calls_witness :
  lru.calls busy_ops (lru.New 10 (Some record_evicted)) []
  = Some (busy_store.1, busy_store.2) ∧
  lru.wf busy_store.1 ∧
  NoDup (lru.key <$> lru.entries busy_store.1) ∧
  dom (lru.cache busy_store.1) = list_to_set (lru.key <$> lru.entries busy_store.1) ∧
  lru.Len_ busy_store.1 = Z.of_nat (base.size (lru.cache busy_store.1)) ∧
  lru.nbytes busy_store.1 = Int64.wrap (lru.total (lru.entries busy_store.1)) ∧
  lru.maxBytes busy_store.1 = 10%Z ∧
  lru.OnEvicted busy_store.1 = Some record_evicted.
Proof.
  split; [exact busy_store_run |].
  exact (lru_more.invariants_after_any_calls 10 (Some record_evicted) busy_ops []
           busy_store.1 busy_store.2 busy_store_run).
Defined.


Lemma bounded_add_evicts_least_recent_witness :
  lru.wf small_store ∧ lru.tallied small_store ∧ (0 < lru.maxBytes small_store)%Z ∧
  ∃ c' gone,
    lru.Add "k3" (bytes_view "7890") small_store []
    = Some (c', lru.notify (lru.OnEvicted small_store) gone []) ∧
    lru.Entry "k3" (bytes_view "7890")
    :: filter (λ kv, lru.key kv ≠ "k3") (lru.entries small_store)
    = lru.entries c' ++ gone ∧
    (lru.nbytes c' ≤ lru.maxBytes small_store)%Z ∧
    (∀ kv gone', gone = kv :: gone' →
       (lru.maxBytes small_store < Int64.wrap (lru.total (lru.entries c' ++ [kv])))%Z) ∧
    lru.Len_ c'
    = (Z.of_nat (length (filter (λ kv, lru.key kv ≠ "k3") (lru.entries small_store)))
       + 1 - Z.of_nat (length gone))%Z.
Proof.
  assert (0 < lru.maxBytes small_store)%Z as H3 by (by vm_compute).
  split_and!; [exact runs.small_store_wf | exact runs.small_store_tallied | exact H3 |].
  exact (lru_more.bounded_add_evicts_least_recent "k3" (bytes_view "7890") small_store []
           runs.small_store_wf runs.small_store_tallied H3).
Defined.

Lemma add_changes_no_other_value_witness :
  lru.wf small_store ∧
  lru.Add "k3" (bytes_view "7890") small_store []
  = Some (default (small_store, []) (lru.Add "k3" (bytes_view "7890") small_store [])) ∧
  ∀ k', k' ≠ "k3" →
        (lru.Get k' (default (small_store, [])
                       (lru.Add "k3" (bytes_view "7890") small_store [])).1).1
        = (lru.Get k' small_store).1 ∨
        (lru.Get k' (default (small_store, [])
                       (lru.Add "k3" (bytes_view "7890") small_store [])).1).1 = None.
Proof.
  assert (lru.Add "k3" (bytes_view "7890") small_store []
          = Some ((default (small_store, [])
                     (lru.Add "k3" (bytes_view "7890") small_store [])).1,
                  (default (small_store, [])
                     (lru.Add "k3" (bytes_view "7890") small_store [])).2)) as H2
    by (by vm_compute).
  split_and!; [exact runs.small_store_wf | by vm_compute |].
  exact (proj1 (proj2 (lru_more.add_changes_no_other_value "k3" (bytes_view "7890")
                         small_store [] _ _ runs.small_store_wf H2))).
Defined.

Lemma get_changes_order_only_witness :
  lru.wf small_store ∧
  (∀ k', (lru.Get k' (lru.Get "k2" small_store).2).1 = (lru.Get k' small_store).1) ∧
  lru.entries (lru.Get "k2" small_store).2 ≡ₚ lru.entries small_store ∧
  lru.nbytes (lru.Get "k2" small_store).2 = lru.nbytes small_store ∧
  lru.Len_ (lru.Get "k2" small_store).2 = lru.Len_ small_store ∧
  lru.cache (lru.Get "k2" small_store).2 = lru.cache small_store ∧
  lru.maxBytes (lru.Get "k2" small_store).2 = lru.maxBytes small_store ∧
  ((lru.Get "k2" small_store).1 = None → (lru.Get "k2" small_store).2 = small_store).
Proof.
  split; [exact runs.small_store_wf |].
  exact (lru_more.get_changes_order_only "k2" small_store runs.small_store_wf).
Defined.

Lemma remove_oldest_drains_witness :
  lru.wf small_store ∧ lru.tallied small_store ∧ length (lru.ll small_store) ≤ 5 ∧
  lru.entries (lru.RemoveOldest_times 5 small_store []).1 = [] ∧
  lru.cache (lru.RemoveOldest_times 5 small_store []).1 = ∅ ∧
  lru.Len_ (lru.RemoveOldest_times 5 small_store []).1 = 0%Z ∧
  lru.nbytes (lru.RemoveOldest_times 5 small_store []).1 = 0%Z ∧
  (lru.RemoveOldest_times 5 small_store []).2
  = lru.notify (lru.OnEvicted small_store) (lru.entries small_store) [] ∧
  ∀ m, lru.RemoveOldest_times m (lru.RemoveOldest_times 5 small_store []).1
         (lru.RemoveOldest_times 5 small_store []).2
       = lru.RemoveOldest_times 5 small_store [].
Proof.
  assert (length (lru.ll small_store) ≤ 5) as H3 by (vm_compute; lia).
  split_and!; [exact runs.small_store_wf | exact runs.small_store_tallied | exact H3 | ..];
    apply (lru_more.remove_oldest_drains 5 small_store []
             runs.small_store_wf runs.small_store_tallied H3).
Defined.

Lemma unbounded_add_replaces_or_inserts_witness :
  lru.wf unbounded_store ∧ lru.maxBytes unbounded_store = 0%Z ∧
  (lru.Get "Tom" unbounded_store).1 = Some (bytes_view "630") ∧
  ∃ c', lru.Add "Tom" (bytes_view "1") unbounded_store tt = Some (c', tt) ∧
        (lru.Get "Tom" c').1 = Some (bytes_view "1") ∧
        lru.entries c'
        = lru.Entry "Tom" (bytes_view "1")
          :: filter (λ kv, lru.key kv ≠ "Tom") (lru.entries unbounded_store) ∧
        (∀ k', k' ≠ "Tom" → (lru.Get k' c').1 = (lru.Get k' unbounded_store).1) ∧
        lru.Len_ c' = lru.Len_ unbounded_store ∧
        lru.nbytes c'
        = Int64.wrap (lru.nbytes unbounded_store
                      + (lru.Len (bytes_view "1") - lru.Len (bytes_view "630"))).
Proof.
  assert (lru.wf unbounded_store) as H1
    by apply lru_facts.store_wf, lru_facts.New_wf.
  split_and!; [exact H1 | reflexivity | reflexivity |].
  exact (lru_more.unbounded_add_replaces_or_inserts "Tom" (bytes_view "1")
           unbounded_store tt H1 eq_refl).
Defined.

Lemma ring_get_returns_registered_peer_witness :
  (0 < 3)%Z ∧ concat [["6"; "4"]; ["2"]] ≠ [] ∧
  consistenthash.Get "15" (consistenthash.build 3 (Some digit_hash) [["6"; "4"]; ["2"]])
  ∈ concat [["6"; "4"]; ["2"]].
Proof.
  assert (0 < 3)%Z as H1 by lia.
  assert (concat [["6"; "4"]; ["2"]] ≠ []) as H2 by done.
  split_and!; [exact H1 | exact H2 |].
  exact (proj1 (ring_more.ring_get_returns_registered_peer 3 (Some digit_hash)
                  [["6"; "4"]; ["2"]] "15" H1 H2)).
Defined.

Lemma ring_order_irrelevant_without_collisions_witness :
  concat [["6"; "4"]; ["2"]] ≡ₚ concat [["2"]; ["6"; "4"]] ∧
  NoDup (consistenthash.vnodes (default consistenthash.ChecksumIEEE (Some digit_hash)) 3
           (concat [["6"; "4"]; ["2"]])).*1 ∧
  consistenthash.build 3 (Some digit_hash) [["6"; "4"]; ["2"]]
  = consistenthash.build 3 (Some digit_hash) [["2"]; ["6"; "4"]] ∧
  ∀ key,
    consistenthash.Get key (consistenthash.build 3 (Some digit_hash) [["6"; "4"]; ["2"]])
    = consistenthash.Get key (consistenthash.build 3 (Some digit_hash) [["2"]; ["6"; "4"]]).
Proof.
  assert (concat [["6"; "4"]; ["2"]] ≡ₚ concat [["2"]; ["6"; "4"]]) as H1
    by exact (Permutation_app_comm ["6"; "4"] ["2"]).
  assert (NoDup (consistenthash.vnodes
                   (default consistenthash.ChecksumIEEE (Some digit_hash)) 3
                   (concat [["6"; "4"]; ["2"]])).*1) as H2
    by compute_done.
  split_and!; [exact H1 | exact H2 | ..];
    apply (ring_more.ring_order_irrelevant_without_collisions 3 (Some digit_hash)
             [["6"; "4"]; ["2"]] [["2"]; ["6"; "4"]] H1 H2).
Defined.

Lemma cache_wrapper_allocates_on_first_add_witness :
  cache_calls wrapper_ops {| lru := None; cacheBytes := 10 |} = Returns wrapper_after ∧
  cacheBytes wrapper_after = 10%Z ∧ cache_ok wrapper_after ∧
  (lru wrapper_after = None ↔ Forall (λ o, is_add o = false) wrapper_ops) ∧
  (lru wrapper_after = None → ∀ key, get key wrapper_after = (None, wrapper_after)).
Proof.
  assert (cache_calls wrapper_ops {| lru := None; cacheBytes := 10 |}
          = Returns wrapper_after) as H1 by (by vm_compute).
  split; [exact H1 |].
  exact (group_more.cache_wrapper_allocates_on_first_add wrapper_ops 10 wrapper_after H1).
Defined.

Lemma gets_change_only_the_cache_witness :
  cache_ok (mainCache (scores 2048)) ∧
  Gets Errorf ["Tom"; "kkk"; "Tom"] (scores 2048) tt = Returns (scores_after, tt) ∧
  name scores_after = name (scores 2048) ∧
  getter scores_after = getter (scores 2048) ∧
  peers scores_after = peers (scores 2048) ∧
  cacheBytes (mainCache scores_after) = cacheBytes (mainCache (scores 2048)) ∧
  cache_ok (mainCache scores_after).
Proof.
  split_and!; [exact I | exact scores_after_run | ..];
    apply (group_more.gets_change_only_the_cache Errorf ["Tom"; "kkk"; "Tom"]
             (scores 2048) tt scores_after tt I scores_after_run).
Defined.

Lemma register_peers_only_once_witness :
  peers (scores 2048) = None ∧ cache_ok (mainCache (scores 2048)) ∧
  RegisterPeers None (scores 2048) = Returns (scores 2048) ∧
  ∃ g1, RegisterPeers (Some always_remote) (scores 2048) = Returns g1 ∧
        peers g1 = Some always_remote ∧ name g1 = name (scores 2048) ∧
        getter g1 = getter (scores 2048) ∧
        mainCache g1 = mainCache (scores 2048) ∧
        ∀ g2 w2, Gets Errorf ["Tom"] g1 tt = Returns (g2, w2) →
                 RegisterPeers None g2
                 = Panics "RegisterPeerPicker called more than once".
Proof.
  split_and!; [reflexivity | exact I | ..];
    apply (group_more.register_peers_only_once Errorf always_remote None ["Tom"]
             (scores 2048) tt eq_refl I).
Defined.

Lemma cached_key_served_without_loader_witness :
  "Tom" ≠ "" ∧ cache_ok (mainCache scores_after) ∧
  (get "Tom" (mainCache scores_after)).1 = Some (bytes_view "630") ∧
  ∃ g', Get Errorf "Tom" scores_after tt = Returns ((bytes_view "630", None), g', tt) ∧
        cache_ok (mainCache g') ∧
        ∀ key', (get key' (mainCache g')).1 = (get key' (mainCache scores_after)).1.
Proof.
  assert ("Tom" ≠ "") as H1 by done.
  assert ((get "Tom" (mainCache scores_after)).1 = Some (bytes_view "630")) as H3
    by (by vm_compute).
  split_and!; [exact H1 | exact scores_after_ok | exact H3 |].
  exact (group_more.cached_key_served_without_loader Errorf "Tom" (bytes_view "630")
           scores_after tt H1 scores_after_ok H3).
Defined.

Lemma loaded_value_returned_and_cached_witness :
  "Tom" ≠ "" ∧ cache_ok (mainCache (scores 2048)) ∧
  (get "Tom" (mainCache (scores 2048))).1 = None ∧
  fallback "Tom" (scores 2048) tt = Some tt ∧
  getter (scores 2048) "Tom" tt = ((String.list_byte_of_string "630", None), tt) ∧
  (0 ≤ cacheBytes (mainCache (scores 2048)))%Z ∧
  ∃ g1,
    Get Errorf "Tom" (scores 2048) tt = Returns ((bytes_view "630", None), g1, tt) ∧
    cache_ok (mainCache g1) ∧ peers g1 = peers (scores 2048) ∧
    getter g1 = getter (scores 2048) ∧
    (cacheBytes (mainCache (scores 2048)) = 0%Z ∨
     (len "Tom" + Z.of_nat (length (String.list_byte_of_string "630"))
        ≤ cacheBytes (mainCache (scores 2048))
      ∧ cacheBytes (mainCache (scores 2048)) ≤ Int64.max_int)%Z →
     ∀ w', ∃ g2, Get Errorf "Tom" g1 w' = Returns ((bytes_view "630", None), g2, w')).
Proof.
  assert ("Tom" ≠ "") as H1 by done.
  assert (getter (scores 2048) "Tom" tt
          = ((String.list_byte_of_string "630", None), tt)) as H5 by (by vm_compute).
  assert (0 ≤ cacheBytes (mainCache (scores 2048)))%Z as H6 by (by vm_compute).
  split_and!; [exact H1 | exact I | reflexivity | reflexivity | exact H5 | exact H6 |].
  exact (group_more.loaded_value_returned_and_cached Errorf "Tom" (scores 2048) tt tt
           (String.list_byte_of_string "630") tt H1 I eq_refl eq_refl H5 H6).
Defined.

Lemma negative_capacity_get_hangs_witness :
  "Tom" ≠ "" ∧ lru (mainCache (scores (-1))) = None ∧
  (cacheBytes (mainCache (scores (-1))) < 0)%Z ∧
  fallback "Tom" (scores (-1)) tt = Some tt ∧
  getter (scores (-1)) "Tom" tt = ((String.list_byte_of_string "630", None), tt) ∧
  (len "Tom" + Z.of_nat (length (String.list_byte_of_string "630")) ≤ Int64.max_int)%Z ∧
  Get Errorf "Tom" (scores (-1)) tt = Hangs.
Proof.
  assert ("Tom" ≠ "") as H1 by done.
  assert (cacheBytes (mainCache (scores (-1))) < 0)%Z as H3 by (by vm_compute).
  assert (getter (scores (-1)) "Tom" tt
          = ((String.list_byte_of_string "630", None), tt)) as H5 by (by vm_compute).
  assert (len "Tom" + Z.of_nat (length (String.list_byte_of_string "630"))
          ≤ Int64.max_int)%Z as H6 by (by vm_compute).
  split_and!; [exact H1 | reflexivity | exact H3 | reflexivity | exact H5 | exact H6 |].
  exact (group_more.negative_capacity_get_hangs Errorf "Tom" (scores (-1)) tt tt
           (String.list_byte_of_string "630") tt H1 eq_refl H3 eq_refl H5 H6).
Defined.

Lemma serve_changes_only_caches_witness :
  ServeHTTP Errorf Error (NewHTTPPool "http://localhost:8001") "/_geecache/nobody/Tom"
    {["scores" := scores 2048]} tt
  = Returns (http_Error "no such group: nobody" StatusNotFound,
             {["scores" := scores 2048]}, tt) ∧
  status (http_Error "no such group: nobody" StatusNotFound)
  ∈ [StatusOK; StatusBadRequest; StatusNotFound; StatusInternalServerError].
Proof.
  assert (ServeHTTP Errorf Error (NewHTTPPool "http://localhost:8001")
            "/_geecache/nobody/Tom" {["scores" := scores 2048]} tt
          = Returns (http_Error "no such group: nobody" StatusNotFound,
                     {["scores" := scores 2048]}, tt)) as H1 by (by vm_compute).
  split; [exact H1 |].
  exact (proj1 (group_more.serve_changes_only_caches Errorf Error _ _ _ _ _ _ _ H1)).
Defined.


Lemma group_without_picker_as_before_witness :
  peers (scores 2048) = None ∧
  geecache3.Get Errorf "Tom" (geecache3.forget (scores 2048)) tt
  = match Get Errorf "Tom" (scores 2048) tt with
    | Returns (r, g', w') => Returns (r, geecache3.forget g', w')
    | Panics msg => Panics msg
    | Hangs => Hangs
    end.
Proof.
  split; [reflexivity |].
  exact (group_more.group_without_picker_as_before Errorf "Tom" (scores 2048) tt eq_refl).
Defined.

Lemma api_and_endpoint_agree_witness :
  ({["scores" := scores 2048]} : gmap string (Group unit string)) !! "scores"
  = Some (scores 2048) ∧
  Cut "/" "scores" = None ∧
  ServeHTTP Errorf Error (NewHTTPPool "http://localhost:8001")
    (defaultBasePath +:+ "scores" +:+ String "/" "Tom") {["scores" := scores 2048]} tt
  = match api_handler Errorf Error "Tom" (scores 2048) tt with
    | Returns (resp, g', w') => Returns (resp, <["scores" := g']> {["scores" := scores 2048]}, w')
    | Panics msg => Panics msg
    | Hangs => Hangs
    end.
Proof.
  assert (({["scores" := scores 2048]} : gmap string (Group unit string)) !! "scores"
          = Some (scores 2048)) as H1 by (by vm_compute).
  split_and!; [exact H1 | reflexivity |].
  exact (group_more.api_and_endpoint_agree Errorf Error "http://localhost:8001"
           "scores" "Tom" (scores 2048) {["scores" := scores 2048]} tt H1 eq_refl).
Defined.

End more_runs.
